(** * Huffman file compressor: a shallow embedding of huffman.c

    The development follows src/huffman.c and src/huffman.h function by
    function.  C values are integers of [Z] with the wrap-around of their C
    type written out, arrays are lists read with [!!!] and updated with
    [<[_:=_]>], a stream opened for reading is the list of bytes still to be
    read, a stream opened for writing is the list of bytes written so far.

    Conventions of the model:
    - [int] and [unsigned int] are 32 bits wide, [unsigned char] 8 bits;
      signed arithmetic wraps in two's complement;
    - [fread]/[fwrite] of a 32-bit field use the little-endian byte order of
      the host;
    - [malloc] succeeds; [fopen] succeeds in the functions that work on the
      contents of files, and can fail in the part on files and the command
      line;
    - what the program prints on [stdout] is left out, what it prints on
      [stderr] is kept as a list of [diag] (the heap-overflow message of
      [insertMinHeap] apart, see there). *)

From Stdlib Require Import ZArith Lia Ascii.
From stdpp Require Import base tactics option list numbers strings sorting gmap.

Local Open Scope Z_scope.

(** ** Machine integers *)

Definition MAX_CODE_LENGTH : Z := 256.
Definition ASCII_SIZE : nat := 256.
Definition MAGIC_NUMBER : Z := 0x48554646.

(** Conversion to [unsigned int] / [uint32_t]. *)
Definition to_uint (z : Z) : Z := z mod 2 ^ 32.

(** Conversion to [int]. *)
Definition to_int (z : Z) : Z := (z + 2 ^ 31) mod 2 ^ 32 - 2 ^ 31.

(** Conversion to [unsigned char] / [uint8_t]. *)
Definition to_uchar (z : Z) : Z := z mod 256.

(** A byte of a file. *)
Definition is_byte (b : Z) : Prop := 0 <= b < 256.

(** ** Data structures (huffman.h) *)

(** A value of type [HuffmanNode*]: the null pointer or a node with its four
    fields. *)
Inductive HuffmanNode : Type :=
| NULL
| Node (character : Z) (frequency : Z) (left right : HuffmanNode).

Global Instance HuffmanNode_inhabited : Inhabited HuffmanNode := populate NULL.

Global Instance HuffmanNode_eq_dec : EqDecision HuffmanNode.
Proof. solve_decision. Defined.

Definition is_null (p : HuffmanNode) : bool :=
  match p with NULL => true | Node _ _ _ _ => false end.

(** Field reads.  On [NULL] they return a default; the functions below that
    can reach a null pointer ([decodeAndWrite]) test for it before they use
    these. *)
Definition character (p : HuffmanNode) : Z :=
  match p with NULL => 0 | Node c _ _ _ => c end.
Definition frequency (p : HuffmanNode) : Z :=
  match p with NULL => 0 | Node _ f _ _ => f end.
Definition left (p : HuffmanNode) : HuffmanNode :=
  match p with NULL => NULL | Node _ _ l _ => l end.
Definition right (p : HuffmanNode) : HuffmanNode :=
  match p with NULL => NULL | Node _ _ _ r => r end.

(** [!p->left && !p->right] *)
Definition is_leaf (p : HuffmanNode) : bool := is_null (left p) && is_null (right p).

Record MinHeap : Type := mkMinHeap {
  size : Z;
  capacity : Z;
  nodes : list HuffmanNode
}.

Module CodeEntry.
Record t : Type := mk {
  code : list ascii;   (* the C string held in [code], without its NUL *)
  length : Z
}.
End CodeEntry.
Abbreviation CodeEntry := CodeEntry.t.

Global Instance CodeEntry_inhabited : Inhabited CodeEntry :=
  populate (CodeEntry.mk [] 0).

Record FileHeader : Type := mkFileHeader {
  magic : Z;
  original_size : Z;
  compressed_size : Z;
  frequency_count : Z;
  padding_bits : Z
}.

Record BitBuffer : Type := mkBitBuffer {
  buffer : Z;
  bitCount : Z
}.

(** Messages written to [stderr], one constructor per [fprintf] site. *)
Inductive diag : Type :=
| EmptyInput            (* "Error: Input file is empty" *)
| NoCharacters          (* "Error: No characters found in input" *)
| ExtractFailed         (* "Error: Failed to extract nodes from heap" *)
| TreeBuildFailed       (* "Error: Failed to build Huffman tree" *)
| NoCodeFor (c : Z)     (* "Error: No code found for character %d" *)
| MagicMismatch         (* "Error: Invalid file format (magic number mismatch)" *)
| FreqEOF               (* "Error: Unexpected end of file while reading frequencies" *)
| FreqReadFailed        (* "Error: Failed to read frequency data" *)
| RebuildFailed         (* "Error: Failed to rebuild Huffman tree" *)
| InvalidBitSequence.   (* "Error: Invalid bit sequence encountered during decoding" *)

(** How a run of [compressFile] or [decompressFile] ends: it returns [ret],
    or the process dies on a null-pointer dereference.  [output] is [None]
    when the output file was never opened; otherwise it holds the bytes
    written to it up to that point. *)
Inductive result : Type :=
| Exit (ret : Z) (stderr : list diag) (output : option (list Z))
| Crash (stderr : list diag) (output : option (list Z)).

(** ** Memory management *)

Definition createNode (character frequency : Z) : HuffmanNode :=
  Node character frequency NULL NULL.

(** ** Min-heap operations *)

(** The array behind a fresh heap is uninitialised; no cell is read before
    it is written. *)
Definition createMinHeap (capacity : Z) : MinHeap :=
  {| size := 0; capacity := capacity; nodes := replicate (Z.to_nat capacity) NULL |}.

(** [heap->nodes[i]] *)
Definition node_at (nodes : list HuffmanNode) (i : Z) : HuffmanNode :=
  nodes !!! Z.to_nat i.

(** [heap->nodes[i] = p] *)
Definition set_node (nodes : list HuffmanNode) (i : Z) (p : HuffmanNode) : list HuffmanNode :=
  <[Z.to_nat i := p]> nodes.

(** One call of [minHeapify]; a recursive call spends one unit of [fuel].
    The index grows at each call, so [size] units are enough (lemma
    [minHeapify_rec_fuel]). *)
Fixpoint minHeapify_rec (fuel : nat) (heap : MinHeap) (index : Z) : MinHeap :=
  match fuel with
  | O => heap
  | S fuel' =>
    let smallest := index in
    let left := 2 * index + 1 in
    let right := 2 * index + 2 in
    let smallest :=
      if (left <? size heap)
         && (frequency (node_at (nodes heap) left) <? frequency (node_at (nodes heap) smallest))
      then left else smallest in
    let smallest :=
      if (right <? size heap)
         && (frequency (node_at (nodes heap) right) <? frequency (node_at (nodes heap) smallest))
      then right else smallest in
    if negb (smallest =? index) then
      let temp := node_at (nodes heap) smallest in
      let nodes1 := set_node (nodes heap) smallest (node_at (nodes heap) index) in
      let nodes2 := set_node nodes1 index temp in
      minHeapify_rec fuel' {| size := size heap; capacity := capacity heap; nodes := nodes2 |} smallest
    else heap
  end.

Definition minHeapify (heap : MinHeap) (index : Z) : MinHeap :=
  minHeapify_rec (Z.to_nat (size heap)) heap index.

(** Returns the extracted node ([NULL] when the heap is empty) and the heap
    after the call. *)
Definition extractMin (heap : MinHeap) : HuffmanNode * MinHeap :=
  if size heap <=? 0 then (NULL, heap)
  else
    let root := node_at (nodes heap) 0 in
    let nodes1 := set_node (nodes heap) 0 (node_at (nodes heap) (size heap - 1)) in
    let heap1 := {| size := size heap - 1; capacity := capacity heap; nodes := nodes1 |} in
    let heap2 := if 0 <? size heap1 then minHeapify heap1 0 else heap1 in
    (root, heap2).

(** The [while] loop of [insertMinHeap]: the hole at [i] moves up while the
    parent is strictly heavier than [node].  [i] strictly decreases, so [i]
    units of fuel are enough (lemma [sift_up_fuel]). *)
Fixpoint sift_up (fuel : nat) (node : HuffmanNode) (nodes : list HuffmanNode) (i : Z)
  : list HuffmanNode * Z :=
  match fuel with
  | O => (nodes, i)
  | S fuel' =>
    if negb (i =? 0) && (frequency node <? frequency (node_at nodes (Z.quot (i - 1) 2)))
    then sift_up fuel' node (set_node nodes i (node_at nodes (Z.quot (i - 1) 2))) (Z.quot (i - 1) 2)
    else (nodes, i)
  end.

(** On overflow the C function prints "Error: Heap overflow" and returns;
    the heap is unchanged and the message is not recorded here. *)
Definition insertMinHeap (heap : MinHeap) (node : HuffmanNode) : MinHeap :=
  if capacity heap <=? size heap then heap
  else
    let size1 := size heap + 1 in
    let i := size1 - 1 in
    let '(nodes1, i1) := sift_up (Z.to_nat i) node (nodes heap) i in
    {| size := size1; capacity := capacity heap; nodes := set_node nodes1 i1 node |}.

Definition isHeapEmpty (heap : MinHeap) : Z :=
  if size heap =? 0 then 1 else 0.

(** ** Frequency calculation *)

(** [frequencies[i]] *)
Definition freq_at (frequencies : list Z) (i : nat) : Z := frequencies !!! i.

(** One iteration of the counting loop on the byte [ch] returned by
    [fgetc]. *)
Definition count_step (st : list Z * Z) (ch : Z) : list Z * Z :=
  let '(frequencies, fileSize) := st in
  let c := Z.to_nat (to_uchar ch) in
  (<[c := to_uint (freq_at frequencies c + 1)]> frequencies, to_int (fileSize + 1)).

(** Returns the value returned by the C function, the frequency array it
    filled, and what it printed on [stderr]. *)
Definition calculateFrequencies (file : list Z) : Z * list Z * list diag :=
  let '(frequencies, fileSize) := fold_left count_step file (replicate ASCII_SIZE 0, 0) in
  if fileSize =? 0 then (-1, frequencies, [EmptyInput])
  else (fileSize, frequencies, []).

(** ** Huffman tree construction *)

(** [for (i = 0; i < ASCII_SIZE; i++) if (frequencies[i] > 0) uniqueChars++] *)
Definition count_unique (frequencies : list Z) : Z :=
  fold_left (fun n i => if 0 <? freq_at frequencies i then to_int (n + 1) else n)
            (seq 0 ASCII_SIZE) 0.

(** The loop of the single-character case: the tree for the first index
    with a positive count, if there is one. *)
Fixpoint single_char_tree (frequencies : list Z) (indices : list nat) : option HuffmanNode :=
  match indices with
  | [] => None
  | i :: rest =>
    if 0 <? freq_at frequencies i then
      Some (Node 0 (freq_at frequencies i)
                 (createNode (to_uchar (Z.of_nat i)) (freq_at frequencies i)) NULL)
    else single_char_tree frequencies rest
  end.

(** The loop that fills the heap with one leaf per present symbol. *)
Definition populate_heap (frequencies : list Z) (heap : MinHeap) : MinHeap :=
  fold_left (fun heap i =>
               if 0 <? freq_at frequencies i then
                 insertMinHeap heap (createNode (to_uchar (Z.of_nat i)) (freq_at frequencies i))
               else heap)
            (seq 0 ASCII_SIZE) heap.

(** The merging loop; [None] is the error return inside the loop.  Each
    iteration removes one node from the heap, so [size] units of fuel are
    enough (lemma [merge_loop_spec]). *)
Fixpoint merge_loop (fuel : nat) (heap : MinHeap) : option MinHeap :=
  match fuel with
  | O => Some heap
  | S fuel' =>
    if 1 <? size heap then
      let '(left, heap1) := extractMin heap in
      let '(right, heap2) := extractMin heap1 in
      if is_null left || is_null right then None
      else
        let merged := Node 0 (to_uint (frequency left + frequency right)) left right in
        merge_loop fuel' (insertMinHeap heap2 merged)
    else Some heap
  end.

Definition buildHuffmanTree (frequencies : list Z) : HuffmanNode * list diag :=
  let uniqueChars := count_unique frequencies in
  if uniqueChars =? 0 then (NULL, [NoCharacters])
  else
    match (if uniqueChars =? 1 then single_char_tree frequencies (seq 0 ASCII_SIZE) else None) with
    | Some root => (root, [])
    | None =>
      let heap := populate_heap frequencies (createMinHeap uniqueChars) in
      match merge_loop (Z.to_nat (size heap)) heap with
      | None => (NULL, [ExtractFailed])
      | Some heap' => (fst (extractMin heap'), [])
      end
    end.

(** ** Code generation *)

Definition NUL : ascii := Ascii.zero.

Global Instance ascii_inhabited : Inhabited ascii := populate NUL.

(** [strcpy(dst, src)]: the characters of [src] before its first NUL. *)
Fixpoint strcpy (src : list ascii) : list ascii :=
  match src with
  | [] => []
  | c :: rest => if decide (c = NUL) then [] else c :: strcpy rest
  end.

(** [currentCode] is the caller's buffer, shared by all recursive calls and
    updated in place; the function returns it next to the code table. *)
Fixpoint generateCodes (root : HuffmanNode) (codes : list CodeEntry)
    (currentCode : list ascii) (depth : Z) : list CodeEntry * list ascii :=
  match root with
  | NULL => (codes, currentCode)
  | Node c _ l r =>
    if is_null l && is_null r then
      let currentCode := <[Z.to_nat depth := NUL]> currentCode in
      (<[Z.to_nat c := CodeEntry.mk (strcpy currentCode) depth]> codes, currentCode)
    else
      let '(codes, currentCode) :=
        if negb (is_null l) then
          generateCodes l codes (<[Z.to_nat depth := "0"%char]> currentCode) (depth + 1)
        else (codes, currentCode) in
      if negb (is_null r) then
        generateCodes r codes (<[Z.to_nat depth := "1"%char]> currentCode) (depth + 1)
      else (codes, currentCode)
  end.

(** [char currentCode[MAX_CODE_LENGTH]] is uninitialised in C; every cell is
    written before [strcpy] reads it (lemma [generateCodes_spec]: the codes
    stored depend on the cells below [depth] only, and there are none at
    depth 0). *)
Definition buildCodeTable (root : HuffmanNode) : list CodeEntry :=
  let codes := replicate ASCII_SIZE (CodeEntry.mk [] 0) in
  match root with
  | NULL => codes
  | Node c _ l r =>
    if is_null l && is_null r then
      <[Z.to_nat c := CodeEntry.mk ["0"%char] 1]> codes
    else
      fst (generateCodes root codes (replicate (Z.to_nat MAX_CODE_LENGTH) NUL) 0)
  end.

(** ** Bit operations *)

Definition writeBit (file : list Z) (bitBuffer : BitBuffer) (bit : Z) : list Z * BitBuffer :=
  let buffer1 := to_uchar (Z.lor (Z.shiftl (buffer bitBuffer) 1) (Z.land bit 1)) in
  let bitCount1 := bitCount bitBuffer + 1 in
  if bitCount1 =? 8 then (file ++ [buffer1], {| buffer := 0; bitCount := 0 |})
  else (file, {| buffer := buffer1; bitCount := bitCount1 |}).

Definition flushBits (file : list Z) (bitBuffer : BitBuffer) : list Z :=
  if 0 <? bitCount bitBuffer then
    file ++ [to_uchar (Z.shiftl (buffer bitBuffer) (8 - bitCount bitBuffer))]
  else file.

(** Returns the bit (or -1), the rest of the file, [*currentByte] and
    [*bitPosition]. *)
Definition readBit (file : list Z) (currentByte bitPosition : Z) : Z * list Z * Z * Z :=
  let refill :=
    if bitPosition =? 0 then
      match file with
      | [] => None
      | ch :: rest => Some (rest, to_uchar ch, 8)
      end
    else Some (file, currentByte, bitPosition) in
  match refill with
  | None => (-1, file, currentByte, bitPosition)
  | Some (file, currentByte, bitPosition) =>
    let bitPosition := bitPosition - 1 in
    (Z.land (Z.shiftr currentByte bitPosition) 1, file, currentByte, bitPosition)
  end.

(** ** Reading and writing 32-bit fields *)

Definition fwrite_uint (file : list Z) (v : Z) : list Z :=
  file ++ [v mod 256; (v / 256) mod 256; (v / 65536) mod 256; (v / 16777216) mod 256].

(** [None] when fewer than four bytes are left. *)
Definition fread_uint (file : list Z) : option (Z * list Z) :=
  match file with
  | b0 :: b1 :: b2 :: b3 :: rest =>
    Some (to_uchar b0 + 256 * to_uchar b1 + 65536 * to_uchar b2 + 16777216 * to_uchar b3, rest)
  | _ => None
  end.

Definition fread_uchar (file : list Z) : option (Z * list Z) :=
  match file with
  | b :: rest => Some (to_uchar b, rest)
  | [] => None
  end.

(** ** Compression *)

Definition writeFileHeader (file : list Z) (header : FileHeader) : list Z :=
  let file := fwrite_uint file (magic header) in
  let file := fwrite_uint file (original_size header) in
  let file := fwrite_uint file (compressed_size header) in
  let file := fwrite_uint file (frequency_count header) in
  file ++ [to_uchar (padding_bits header)].

Definition writeFrequencies (file : list Z) (frequencies : list Z) : list Z :=
  fold_left (fun file i =>
               if 0 <? freq_at frequencies i then
                 fwrite_uint (file ++ [to_uchar (Z.of_nat i)]) (freq_at frequencies i)
               else file)
            (seq 0 ASCII_SIZE) file.

(** The inner [for] loop of [encodeAndWrite]: the bits of one code. *)
Definition write_code (entry : CodeEntry) (st : list Z * BitBuffer) : list Z * BitBuffer :=
  fold_left (fun st i =>
               let bit := if decide (CodeEntry.code entry !!! i = "1"%char) then 1 else 0 in
               writeBit st.1 st.2 bit)
            (seq 0 (Z.to_nat (CodeEntry.length entry))) st.

(** One iteration of the [while] loop of [encodeAndWrite]. *)
Definition encode_step (codes : list CodeEntry) (st : list Z * BitBuffer * list diag) (ch : Z)
  : list Z * BitBuffer * list diag :=
  let '(outputFile, bitBuffer, err) := st in
  let character := to_uchar ch in
  let entry := codes !!! Z.to_nat character in
  if CodeEntry.length entry =? 0 then (outputFile, bitBuffer, err ++ [NoCodeFor character])
  else
    let '(outputFile, bitBuffer) := write_code entry (outputFile, bitBuffer) in
    (outputFile, bitBuffer, err).

Definition encodeAndWrite (inputFile outputFile : list Z) (codes : list CodeEntry)
  : list Z * list diag :=
  let '(outputFile, bitBuffer, err) :=
    fold_left (encode_step codes) inputFile (outputFile, {| buffer := 0; bitCount := 0 |}, []) in
  (flushBits outputFile bitBuffer, err).

(** [fseek(file, 0, SEEK_SET)] followed by writing [data]. *)
Definition rewrite_from_start (data file : list Z) : list Z :=
  data ++ drop (length data) file.

Definition compressFile (inputFile : list Z) : result :=
  let '(originalSize, frequencies, err) := calculateFrequencies inputFile in
  if originalSize <? 0 then Exit (-1) err None
  else
    let '(root, err1) := buildHuffmanTree frequencies in
    if is_null root then Exit (-1) (err ++ err1 ++ [TreeBuildFailed]) None
    else
      let codes := buildCodeTable root in
      let frequencyCount :=
        fold_left (fun n i => if 0 <? freq_at frequencies i then to_uint (n + 1) else n)
                  (seq 0 ASCII_SIZE) 0 in
      let header := {| magic := MAGIC_NUMBER;
                       original_size := to_uint originalSize;
                       compressed_size := 0;
                       frequency_count := frequencyCount;
                       padding_bits := 0 |} in
      let outFile := writeFileHeader [] header in
      let outFile := writeFrequencies outFile frequencies in
      let dataStart := Z.of_nat (length outFile) in
      let '(outFile, err2) := encodeAndWrite inputFile outFile codes in
      let dataEnd := Z.of_nat (length outFile) in
      let header := {| magic := magic header;
                       original_size := original_size header;
                       compressed_size := to_uint (dataEnd - dataStart);
                       frequency_count := frequency_count header;
                       padding_bits := padding_bits header |} in
      let outFile := rewrite_from_start (writeFileHeader [] header) outFile in
      Exit 0 (err ++ err1 ++ err2) (Some outFile).

(** ** Decompression *)

(** A function that returns 0 or -1 and fills its output parameters:
    [Ok] carries what it filled, [Err] what it printed. *)
Inductive res (A : Type) : Type :=
| Ok (a : A)
| Err (stderr : list diag).
Arguments Ok {A} a.
Arguments Err {A} stderr.

Definition readFileHeader (file : list Z) : res (FileHeader * list Z) :=
  match fread_uint file with
  | None => Err []
  | Some (magic, file) =>
  match fread_uint file with
  | None => Err []
  | Some (original_size, file) =>
  match fread_uint file with
  | None => Err []
  | Some (compressed_size, file) =>
  match fread_uint file with
  | None => Err []
  | Some (frequency_count, file) =>
  match fread_uchar file with
  | None => Err []
  | Some (padding_bits, file) =>
    if negb (magic =? MAGIC_NUMBER) then Err [MagicMismatch]
    else Ok (mkFileHeader magic original_size compressed_size frequency_count padding_bits, file)
  end end end end end.

(** The loop of [readFrequencies].  An iteration that does not fail consumes
    five bytes, so one unit of fuel per byte of the file (and one for the
    last test) is enough. *)
Fixpoint readFrequencies_loop (fuel : nat) (file : list Z) (frequencies : list Z) (i count : Z)
  : res (list Z * list Z) :=
  match fuel with
  | O => Err [FreqEOF]
  | S fuel' =>
    if i <? count then
      match file with
      | [] => Err [FreqEOF]
      | ch :: file =>
        let character := to_uchar ch in
        match fread_uint file with
        | None => Err [FreqReadFailed]
        | Some (v, file) =>
          readFrequencies_loop fuel' file (<[Z.to_nat character := v]> frequencies)
                               (to_int (i + 1)) count
        end
      end
    else Ok (frequencies, file)
  end.

Definition readFrequencies (file : list Z) (count : Z) : res (list Z * list Z) :=
  readFrequencies_loop (S (length file)) file (replicate ASCII_SIZE 0) 0 count.

(** Why [decodeAndWrite] stopped. *)
Inductive decode_end : Type :=
| NoRoot           (* [if (!root) return] *)
| SizeReached      (* the loop condition became false *)
| BitsExhausted    (* [readBit] returned -1 *)
| Desync           (* the [!currentNode] test fired and the message was printed *)
| NullDeref        (* a field of a null node was read *)
| OutOfFuel.

(** The [while] loop of [decodeAndWrite].  An iteration that does not leave
    the loop consumes one bit of the input, so one unit of fuel per bit and
    one more are enough (lemma [decode_loop_fuel]). *)
Fixpoint decode_loop (fuel : nat) (root : HuffmanNode) (originalSize : Z)
    (currentNode : HuffmanNode) (currentByte bitPosition decodedBytes : Z)
    (inputFile outputFile : list Z) : decode_end * list Z :=
  match fuel with
  | O => (OutOfFuel, outputFile)
  | S fuel' =>
    if to_uint decodedBytes <? originalSize then
      let '(bit, inputFile, currentByte, bitPosition) := readBit inputFile currentByte bitPosition in
      if bit =? -1 then (BitsExhausted, outputFile)
      else
        match currentNode with
        | NULL => (NullDeref, outputFile)
        | Node _ _ l r =>
          let currentNode := if bit =? 0 then l else r in
          (* [!currentNode->left && !currentNode->right] comes first *)
          match currentNode with
          | NULL => (NullDeref, outputFile)
          | Node c _ l' r' =>
            let '(currentNode, outputFile, decodedBytes) :=
              if is_null l' && is_null r' then
                (root, outputFile ++ [to_uchar c], to_int (decodedBytes + 1))
              else (currentNode, outputFile, decodedBytes) in
            if is_null currentNode then (Desync, outputFile)
            else decode_loop fuel' root originalSize currentNode currentByte bitPosition
                             decodedBytes inputFile outputFile
          end
        end
    else (SizeReached, outputFile)
  end.

Definition decodeAndWrite (inputFile outputFile : list Z) (root : HuffmanNode)
    (originalSize paddingBits : Z) : decode_end * list Z :=
  if is_null root then (NoRoot, outputFile)
  else decode_loop (S (8 * length inputFile)) root originalSize root 0 0 0 inputFile outputFile.

Definition decompressFile (inputFile : list Z) : result :=
  match readFileHeader inputFile with
  | Err err => Exit (-1) err None
  | Ok (header, inFile) =>
    match readFrequencies inFile (to_int (frequency_count header)) with
    | Err err => Exit (-1) err None
    | Ok (frequencies, inFile) =>
      let '(root, err) := buildHuffmanTree frequencies in
      if is_null root then Exit (-1) (err ++ [RebuildFailed]) None
      else
        match decodeAndWrite inFile [] root (original_size header) (padding_bits header) with
        | (NullDeref, outFile) => Crash err (Some outFile)
        | (Desync, outFile) => Exit 0 (err ++ [InvalidBitSequence]) (Some outFile)
        | (_, outFile) => Exit 0 err (Some outFile)
        end
    end
  end.

(** ** Files and the command line

    The functions above work on the contents of files.  The functions of
    this part are given paths.  The file system is a finite map from the
    paths of the files that exist to their contents; [fopen(path, "rb")]
    succeeds when the path is bound; [fopen(path, "wb")] succeeds when
    [writable path] holds, and then leaves the file empty.  Paths are never
    null, so the null test of [validateFiles] is left out, and [argv[0]],
    which is only printed, is not part of the arguments of [main]. *)

Abbreviation file_system := (gmap string (list Z)).

(** Messages written to [stderr] by the functions of this part; [Core] is
    a message of the functions above. *)
Inductive message : Type :=
| Core (d : diag)
| CannotOpenForReading (path : string)  (* "Error: Cannot open file '%s' for reading" *)
| CannotOpenForCompression              (* "Error: Cannot open files for compression" *)
| CannotOpenInput (path : string)       (* "Error: Cannot open input file '%s'" *)
| CannotCreateOutput (path : string)    (* "Error: Cannot create output file '%s'" *)
| CannotAccessInput (path : string)     (* "Error: Cannot access input file '%s'" *)
| CannotOpenForStatistics               (* "Error: Cannot open files for statistics" *)
| CompressionUsage      (* "Error: Compression requires input and output file paths" *)
| DecompressionUsage    (* "Error: Decompression requires input and output file paths" *)
| StatisticsUsage       (* "Error: Statistics requires original and compressed file paths" *)
| UnknownOption (option : string).      (* "Error: Unknown option '%s'" *)

(** How a run ends: the function returns [ret]; or the process is killed
    by the read of a field of a null pointer in [decodeAndWrite] (what has
    reached the output file by then depends on the buffering of the C
    library); or the output file is opened for writing while the same file
    is open for reading, after which what is read depends on that buffering
    too, and the run is not followed further; or [main] hands over to
    [interactiveMenu], which reads [stdin] and is not followed either. *)
Inductive run : Type :=
| Returns (ret : Z) (fs : file_system) (stderr : list message)
| Killed (stderr : list message)
| SameFile (stderr : list message)
| Menu.

(** [compressFile] with its files: the counting pass opens and closes the
    input, then both files are opened, the input first. *)
Definition compressFile_files (writable : string -> bool) (fs : file_system)
    (inputFile outputFile : string) : run :=
  match fs !! inputFile with
  | None => Returns (-1) fs [CannotOpenForReading inputFile]
  | Some content =>
    let '(originalSize, frequencies, err) := calculateFrequencies content in
    if originalSize <? 0 then Returns (-1) fs (Core <$> err)
    else
      let '(root, err1) := buildHuffmanTree frequencies in
      if is_null root then Returns (-1) fs (Core <$> err ++ err1 ++ [TreeBuildFailed])
      else
        let codes := buildCodeTable root in
        if negb (writable outputFile) then
          Returns (-1) fs ((Core <$> err ++ err1) ++ [CannotOpenForCompression])
        else if decide (inputFile = outputFile) then SameFile (Core <$> err ++ err1)
        else
          let frequencyCount :=
            fold_left (fun n i => if 0 <? freq_at frequencies i then to_uint (n + 1) else n)
                      (seq 0 ASCII_SIZE) 0 in
          let header := {| magic := MAGIC_NUMBER;
                           original_size := to_uint originalSize;
                           compressed_size := 0;
                           frequency_count := frequencyCount;
                           padding_bits := 0 |} in
          let outFile := writeFileHeader [] header in
          let outFile := writeFrequencies outFile frequencies in
          let dataStart := Z.of_nat (length outFile) in
          let '(outFile, err2) := encodeAndWrite content outFile codes in
          let dataEnd := Z.of_nat (length outFile) in
          let header := {| magic := magic header;
                           original_size := original_size header;
                           compressed_size := to_uint (dataEnd - dataStart);
                           frequency_count := frequency_count header;
                           padding_bits := padding_bits header |} in
          let outFile := rewrite_from_start (writeFileHeader [] header) outFile in
          Returns 0 (<[outputFile := outFile]> fs) (Core <$> err ++ err1 ++ err2)
  end.

(** [decompressFile] with its files: the input is opened first, the output
    once the tree is rebuilt. *)
Definition decompressFile_files (writable : string -> bool) (fs : file_system)
    (inputFile outputFile : string) : run :=
  match fs !! inputFile with
  | None => Returns (-1) fs [CannotOpenInput inputFile]
  | Some content =>
    match readFileHeader content with
    | Err err => Returns (-1) fs (Core <$> err)
    | Ok (header, inFile) =>
      match readFrequencies inFile (to_int (frequency_count header)) with
      | Err err => Returns (-1) fs (Core <$> err)
      | Ok (frequencies, inFile) =>
        let '(root, err) := buildHuffmanTree frequencies in
        if is_null root then Returns (-1) fs (Core <$> err ++ [RebuildFailed])
        else if negb (writable outputFile) then
          Returns (-1) fs ((Core <$> err) ++ [CannotCreateOutput outputFile])
        else if decide (inputFile = outputFile) then SameFile (Core <$> err)
        else
          match decodeAndWrite inFile [] root (original_size header) (padding_bits header) with
          | (NullDeref, _) => Killed (Core <$> err)
          | (Desync, outFile) =>
            Returns 0 (<[outputFile := outFile]> fs) (Core <$> err ++ [InvalidBitSequence])
          | (_, outFile) => Returns 0 (<[outputFile := outFile]> fs) (Core <$> err)
          end
      end
    end
  end.

(** What [printCompressionStats] writes to [stderr]; the sizes and ratios
    go to [stdout]. *)
Definition printCompressionStats (fs : file_system) (inputFile outputFile : string)
  : list message :=
  match fs !! inputFile, fs !! outputFile with
  | Some _, Some _ => []
  | _, _ => [CannotOpenForStatistics]
  end.

(** Returns the value returned by the C function, the file system after the
    call, and what it printed on [stderr]. *)
Definition validateFiles (writable : string -> bool) (fs : file_system)
    (inputFile outputFile : string) : Z * file_system * list message :=
  match fs !! inputFile with
  | None => (-1, fs, [CannotAccessInput inputFile])
  | Some _ =>
    if negb (writable outputFile) then (-1, fs, [CannotCreateOutput outputFile])
    else (0, <[outputFile := []]> fs, [])
  end.

(** The run [r] with [err] printed before it. *)
Definition after (err : list message) (r : run) : run :=
  match r with
  | Returns ret fs err' => Returns ret fs (err ++ err')
  | Killed err' => Killed (err ++ err')
  | SameFile err' => SameFile (err ++ err')
  | Menu => Menu
  end.

(** [main] on the arguments [argv[1]], ..., [argv[argc - 1]]. *)
Definition main (writable : string -> bool) (fs : file_system) (args : list string) : run :=
  match args with
  | [] => Menu
  | option :: paths =>
    if decide (option = "-h"%string) then Returns 0 fs []
    else if decide (option = "-c"%string) then
      match paths with
      | [inputFile; outputFile] =>
        let '(valid, fs, err) := validateFiles writable fs inputFile outputFile in
        if negb (valid =? 0) then Returns 1 fs err
        else
          after err
            match compressFile_files writable fs inputFile outputFile with
            | Returns result fs err =>
              Returns result fs
                      (err ++ if result =? 0 then printCompressionStats fs inputFile outputFile
                              else [])
            | r => r
            end
      | _ => Returns 1 fs [CompressionUsage]
      end
    else if decide (option = "-d"%string) then
      match paths with
      | [inputFile; outputFile] =>
        let '(valid, fs, err) := validateFiles writable fs inputFile outputFile in
        if negb (valid =? 0) then Returns 1 fs err
        else after err (decompressFile_files writable fs inputFile outputFile)
      | _ => Returns 1 fs [DecompressionUsage]
      end
    else if decide (option = "-s"%string) then
      match paths with
      | [inputFile; outputFile] => Returns 0 fs (printCompressionStats fs inputFile outputFile)
      | _ => Returns 1 fs [StatisticsUsage]
      end
    else Returns 1 fs [UnknownOption option]
  end.

(** The bytes of a text, for examples. *)
Definition bytes_of_string (s : string) : list Z :=
  (fun a => Z.of_nat (nat_of_ascii a)) <$> String.list_ascii_of_string s.

(** * Vocabulary of the statements

    What the lemmas and theorems below speak about: the symbols of a
    frequency array, the nodes of a heap, the leaves and paths of a tree,
    the bits of a byte stream. *)

(** The four bytes of the magic constant, as they lie in the file. *)
Definition magic_bytes : list Z := fwrite_uint [] MAGIC_NUMBER.

(** The header [h] with another value in its padding field. *)
Definition set_padding_bits (h : FileHeader) (b : Z) : FileHeader :=
  {| magic := magic h; original_size := original_size h;
     compressed_size := compressed_size h; frequency_count := frequency_count h;
     padding_bits := b |}.

(** A frequency array as C holds it: 256 cells of type [unsigned int]. *)
Definition valid_frequencies (frequencies : list Z) : Prop :=
  length frequencies = ASCII_SIZE /\ Forall (fun v => 0 <= v < 2 ^ 32) frequencies.

(** The indices of [indices] with a positive count, in the same order. *)
Definition present_in (frequencies : list Z) (indices : list nat) : list nat :=
  filter (fun i => 0 < freq_at frequencies i) indices.

(** The symbols that occur, in ascending order. *)
Definition present (frequencies : list Z) : list nat :=
  present_in frequencies (seq 0 ASCII_SIZE).

(** The record of one symbol in the file: the symbol, then its count. *)
Definition freq_record (f : list Z) (i : nat) : list Z :=
  to_uchar (Z.of_nat i) :: fwrite_uint [] (freq_at f i).

(** What the loop of [readFrequencies] stores when it reads the records of
    the symbols [js]. *)
Definition store_counts (f : list Z) (js : list nat) (g : list Z) : list Z :=
  fold_left (fun g j => <[j := to_uint (freq_at f j)]> g) js g.

(** The cells of the array that hold the nodes of the heap. *)
Definition live (heap : MinHeap) : list HuffmanNode :=
  take (Z.to_nat (size heap)) (nodes heap).

(** The heap is within its array. *)
Definition heap_wf (heap : MinHeap) : Prop :=
  0 <= size heap <= capacity heap /\ length (nodes heap) = Z.to_nat (capacity heap).

(** The leaves of a tree, left to right, each with the path from the root:
    [false] for a left edge, [true] for a right edge. *)
Fixpoint paths (t : HuffmanNode) : list (Z * list bool) :=
  match t with
  | NULL => []
  | Node c _ l r =>
    if is_null l && is_null r then [(c, [])]
    else (prod_map id (cons false) <$> paths l) ++ (prod_map id (cons true) <$> paths r)
  end.

(** The characters at the leaves. *)
Definition symbols (t : HuffmanNode) : list Z := (paths t).*1.

(** The number of edges on the longest path to a leaf. *)
Fixpoint height (t : HuffmanNode) : nat :=
  match t with
  | NULL => 0
  | Node _ _ l r =>
    if is_null l && is_null r then 0 else S (Nat.max (height l) (height r))
  end.

(** A tree of the heap: it exists, and it is lower than it has leaves. *)
Definition good (t : HuffmanNode) : Prop :=
  is_null t = false /\ (height t < length (paths t))%nat.

(** The leaf that [buildHuffmanTree] creates for the symbol [i]. *)
Definition leaf_of (f : list Z) (i : nat) : HuffmanNode :=
  createNode (to_uchar (Z.of_nat i)) (freq_at f i).

(** The character that [generateCodes] writes for an edge. *)
Definition bit_char (b : bool) : ascii := if b then "1"%char else "0"%char.

(** A path written as the C string of its code. *)
Definition code_string (p : list bool) : list ascii := bit_char <$> p.

(** The table after the codes of the leaves [ps] are stored, each behind the
    prefix [pre]. *)
Definition assign_codes (pre : list ascii) (ps : list (Z * list bool))
    (codes : list CodeEntry) : list CodeEntry :=
  fold_left (fun codes cp =>
               <[Z.to_nat cp.1 :=
                   CodeEntry.mk (pre ++ code_string cp.2)
                                (Z.of_nat (length pre + length cp.2))]> codes)
            ps codes.

(** The [n] low bits of [cb], most significant first. *)
Fixpoint low_bits (cb : Z) (n : nat) : list bool :=
  match n with
  | O => []
  | S n' => Z.testbit cb (Z.of_nat n') :: low_bits cb n'
  end.

(** The eight bits of a byte, in the order in which [readBit] returns them. *)
Definition bits_of_byte (b : Z) : list bool := low_bits (to_uchar b) 8.

(** The bits of a file. *)
Definition bits_of_bytes (l : list Z) : list bool := l ≫= bits_of_byte.

(** The number written by the bits [bs], most significant first. *)
Definition bits_value (bs : list bool) : Z :=
  fold_left (fun v b => 2 * v + Z.b2z b) bs 0.

(** The state of the writer once the bits [bits] were written behind
    [file0]: whole bytes are in the file, the others wait in the buffer. *)
Definition written (file0 : list Z) (bits : list bool) (st : list Z * BitBuffer) : Prop :=
  exists out acc,
    st.1 = file0 ++ out /\ (length acc < 8)%nat
    /\ buffer st.2 = bits_value acc /\ bitCount st.2 = Z.of_nat (length acc)
    /\ bits = bits_of_bytes out ++ acc.

(** The symbol [c] has the code of the path [p] in [codes]. *)
Definition has_code (codes : list CodeEntry) (c : Z) (p : list bool) : Prop :=
  codes !!! Z.to_nat (to_uchar c) = CodeEntry.mk (code_string p) (Z.of_nat (length p))
  /\ p <> [].

(** The bits that [readBit] still has to deliver: the unread bits of the
    current byte, then the bytes of the file. *)
Definition pending_bits (cb : Z) (bp : nat) (inp : list Z) : list bool :=
  low_bits cb bp ++ bits_of_bytes inp.

(** How often the byte [k] occurs in [x]. *)
Definition occurrences (x : list Z) (k : nat) : Z :=
  Z.of_nat (length (filter (fun b => b = Z.of_nat k) x)).

(** What [compressFile] computes for the input [x]: the frequency array
    [f], the tree [t], the path [ps] of every byte of [x], and the payload. *)
Record compressed (x f : list Z) (t : HuffmanNode) (ps : list (list bool))
    (payload : list Z) : Prop := {
  compressed_valid : valid_frequencies f;
  compressed_counts : forall k, (k < 256)%nat -> freq_at f k = occurrences x k;
  compressed_tree : buildHuffmanTree f = (t, []);
  compressed_not_null : is_null t = false;
  compressed_not_leaf : is_leaf t = false;
  compressed_symbols : symbols t ≡ₚ Z.of_nat <$> present f;
  compressed_height : (height t <= 255)%nat;
  compressed_paths : Forall2 (fun c p => (c, p) ∈ paths t) x ps;
  compressed_codes : Forall2 (has_code (buildCodeTable t)) x ps;
  compressed_payload :
    exists k, (k < 8)%nat /\ bits_of_bytes payload = concat ps ++ replicate k false
}.

(** The header of the archive of [x]. *)
Definition archive_header (x f payload : list Z) : FileHeader :=
  {| magic := MAGIC_NUMBER;
     original_size := Z.of_nat (length x);
     compressed_size := to_uint (Z.of_nat (length payload));
     frequency_count := Z.of_nat (length (present f));
     padding_bits := 0 |}.

(** An input of exactly 2^31 zero bytes. *)
Definition two_gib_of_zeros : list Z := replicate (Z.to_nat (2 ^ 31)) 0.

(** [(i - 1) / 2] in C *)
Definition parent (i : Z) : Z := Z.quot (i - 1) 2.

(** The weight of the node in cell [j]. *)
Definition weight_at (l : list HuffmanNode) (j : Z) : Z := frequency (node_at l j).

(** No node among the first [n] is lighter than its parent. *)
Definition heap_ordered (n : Z) (l : list HuffmanNode) : Prop :=
  forall j, 0 < j < n -> weight_at l (parent j) <= weight_at l j.

(** The array of a heap of [n] cells while [insertMinHeap] holds [node] and
    the hole is at [i]: the order holds everywhere but between the hole and
    its parent, the children of the hole are not lighter than its parent,
    and they are heavier than [node]. *)
Definition holed (node : HuffmanNode) (n : Z) (l : list HuffmanNode) (i : Z) : Prop :=
  (forall j, 0 < j < n -> j <> i -> weight_at l (parent j) <= weight_at l j)
  /\ (forall j, 0 < j < n -> parent j = i -> 0 < i ->
        weight_at l (parent i) <= weight_at l j)
  /\ (forall j, 0 < j < n -> parent j = i -> frequency node < weight_at l j).

(** The node that is kept as the lighter of two: the newcomer [x] only when
    it is strictly lighter than [best]. *)
Definition lighter (best x : HuffmanNode) : HuffmanNode :=
  if frequency x <? frequency best then x else best.

(** The first node of [ns] among those of least weight. *)
Definition earliest_min (ns : list HuffmanNode) : HuffmanNode :=
  match ns with
  | [] => NULL
  | n :: rest => fold_left lighter rest n
  end.

(** The array of a heap of [n] cells while [minHeapify] works at [i]: the
    order holds between every node and its parent except for the children
    of [i], and those are not lighter than the parent of [i]. *)
Definition sinking (n : Z) (l : list HuffmanNode) (i : Z) : Prop :=
  (forall j, 0 < j < n -> parent j <> i -> weight_at l (parent j) <= weight_at l j)
  /\ (forall j, 0 < j < n -> parent j = i -> 0 < i ->
        weight_at l (parent i) <= weight_at l j).

(** Extracts nodes until the heap is empty, as the caller of [extractMin]
    does; the extracted nodes, first to last. *)
Fixpoint drain (fuel : nat) (heap : MinHeap) : list HuffmanNode :=
  match fuel with
  | O => []
  | S fuel' =>
    if isHeapEmpty heap =? 1 then []
    else let '(m, heap') := extractMin heap in m :: drain fuel' heap'
  end.

(** The weights do not decrease along the list. *)
Definition by_weight (x y : HuffmanNode) : Prop := frequency x <= frequency y.

(** The leaves of a tree, left to right, each with its weight. *)
Fixpoint leaf_weights (t : HuffmanNode) : list (Z * Z) :=
  match t with
  | NULL => []
  | Node c w l r =>
    if is_null l && is_null r then [(c, w)] else leaf_weights l ++ leaf_weights r
  end.

(** Every node of the tree is a leaf or has two children. *)
Fixpoint full (t : HuffmanNode) : Prop :=
  match t with
  | NULL => False
  | Node _ _ l r => if is_null l && is_null r then True else full l /\ full r
  end.

(** The weight of every inner node is the [unsigned int] sum of the weights
    of its children (a missing child counts 0), and its character is 0. *)
Fixpoint weighted (t : HuffmanNode) : Prop :=
  match t with
  | NULL => True
  | Node c w l r =>
    if is_null l && is_null r then True
    else c = 0 /\ w = to_uint (frequency l + frequency r) /\ weighted l /\ weighted r
  end.

(** The sum of the counts of a frequency array. *)
Definition total (f : list Z) : Z := foldr Z.add 0 f.

(** The node that the merging loop of [buildHuffmanTree] creates. *)
Definition merged (l r : HuffmanNode) : HuffmanNode :=
  Node 0 (to_uint (frequency l + frequency r)) l r.

(** The properties that every tree in the heap of [buildHuffmanTree] has. *)
Definition sound_tree (t : HuffmanNode) : Prop :=
  is_null t = false /\ full t /\ weighted t.

(** The bits [bits] written one after the other with [writeBit]. *)
Definition write_bits (bits : list bool) (st : list Z * BitBuffer) : list Z * BitBuffer :=
  fold_left (fun st b => writeBit st.1 st.2 (Z.b2z b)) bits st.

(** The values returned by [n] successive calls of [readBit]. *)
Fixpoint read_bits (n : nat) (file : list Z) (currentByte bitPosition : Z) : list Z :=
  match n with
  | O => []
  | S n' =>
    let '(bit, file, currentByte, bitPosition) := readBit file currentByte bitPosition in
    bit :: read_bits n' file currentByte bitPosition
  end.

(** The bytes in the output file at the end of a run (none when it was
    never opened). *)
Definition written_bytes (r : result) : list Z :=
  match r with
  | Exit _ _ (Some out) | Crash _ (Some out) => out
  | _ => []
  end.

(** What a run printed on [stderr]. *)
Definition stderr_of (r : result) : list diag :=
  match r with Exit _ err _ | Crash err _ => err end.

(** The number of bits that the codes of the bytes of [x] take. *)
Definition code_bits (codes : list CodeEntry) (x : list Z) : Z :=
  total ((fun b => CodeEntry.length (codes !!! Z.to_nat (to_uchar b))) <$> x).

(** A tree in which every inner node has two children, with the weights
    of its leaves. *)
Inductive wtree : Type :=
| Leaf (w : Z)
| Fork (l r : wtree).

(** The leaves of a tree, left to right, each with its weight and its
    depth. *)
Fixpoint leaf_depths (t : wtree) : list (Z * nat) :=
  match t with
  | Leaf w => [(w, 0%nat)]
  | Fork l r => prod_map id S <$> (leaf_depths l ++ leaf_depths r)
  end.

(** The sum of weight times depth. *)
Definition weighted_depth (ld : list (Z * nat)) : Z :=
  total ((fun p => p.1 * Z.of_nat p.2) <$> ld).

(** The number of bits of a text coded with the tree, when each leaf
    stands for a symbol that occurs as often as its weight says: a symbol
    at depth [d] takes [d] bits. *)
Definition cost (t : wtree) : Z := weighted_depth (leaf_depths t).

Fixpoint wheight (t : wtree) : nat :=
  match t with
  | Leaf _ => 0
  | Fork l r => S (Nat.max (wheight l) (wheight r))
  end.

(** The tree [t] with the weights [ws] at its leaves, left to right. *)
Fixpoint relabel (t : wtree) (ws : list Z) : wtree :=
  match t with
  | Leaf w => Leaf (default w (head ws))
  | Fork l r =>
    Fork (relabel l (take (length (leaf_depths l)) ws))
         (relabel r (drop (length (leaf_depths l)) ws))
  end.

(** The leaves of a tree of the program and their weights; the characters
    and the weights of the inner nodes are left out. *)
Fixpoint shape (t : HuffmanNode) : wtree :=
  match t with
  | NULL => Leaf 0
  | Node _ w l r => if is_null l && is_null r then Leaf w else Fork (shape l) (shape r)
  end.

(** The number of bits that the codes of the tree [t] give to a text in
    which the symbol of each leaf occurs as often as its weight says. *)
Definition encoded_bits (t : HuffmanNode) : Z := cost (shape t).

(** A tree of the heap whose weight is the exact sum of the weights of its
    leaves. *)
Definition tight (t : HuffmanNode) : Prop :=
  is_null t = false /\ 0 <= frequency t
  /\ frequency t = total (leaf_depths (shape t)).*1.

(** The header [h] with another value in its compressed-size field. *)
Definition set_compressed_size (h : FileHeader) (n : Z) : FileHeader :=
  {| magic := magic h; original_size := original_size h;
     compressed_size := n; frequency_count := frequency_count h;
     padding_bits := padding_bits h |}.

(** * Properties *)

(** ** Machine integers and 32-bit fields *)

(** Unfolds the conversions and writes the powers of two as numerals. *)
Ltac ints :=
  unfold to_uint, to_int, to_uchar, is_byte in *;
  change (2 ^ 32) with 4294967296 in *;
  change (2 ^ 31) with 2147483648 in *.

(** Linear arithmetic with division and remainder by numerals. *)
Ltac dlia := ints; Z.to_euclidean_division_equations; lia.

Lemma to_uint_range z : 0 <= to_uint z < 2 ^ 32.
Proof. dlia. Qed.

Lemma to_uint_small z : 0 <= z < 2 ^ 32 -> to_uint z = z.
Proof. dlia. Qed.

Lemma to_int_small z : - 2 ^ 31 <= z < 2 ^ 31 -> to_int z = z.
Proof. dlia. Qed.

Lemma to_uchar_small z : is_byte z -> to_uchar z = z.
Proof. dlia. Qed.

Lemma to_uchar_byte z : is_byte (to_uchar z).
Proof. dlia. Qed.

Lemma to_uchar_idemp z : to_uchar (to_uchar z) = to_uchar z.
Proof. apply to_uchar_small, to_uchar_byte. Qed.

Lemma to_uint_to_int z : to_uint (to_int z) = to_uint z.
Proof. dlia. Qed.

Lemma to_int_succ z : to_int (to_int z + 1) = to_int (z + 1).
Proof. dlia. Qed.

Lemma uint_bytes v :
  v mod 256 + 256 * ((v / 256) mod 256) + 65536 * ((v / 65536) mod 256)
  + 16777216 * ((v / 16777216) mod 256) = to_uint v.
Proof. dlia. Qed.

Lemma fwrite_uint_app file v : fwrite_uint file v = file ++ fwrite_uint [] v.
Proof. reflexivity. Qed.

Lemma fwrite_uint_length file v : length (fwrite_uint file v) = (length file + 4)%nat.
Proof. unfold fwrite_uint. rewrite length_app. reflexivity. Qed.

Lemma fread_fwrite_uint v rest :
  fread_uint (fwrite_uint [] v ++ rest) = Some (to_uint v, rest).
Proof.
  unfold fwrite_uint, fread_uint. simpl.
  rewrite !to_uchar_small by (unfold is_byte; apply Z.mod_pos_bound; lia).
  by rewrite uint_bytes.
Qed.

Lemma fread_uint_range file v rest :
  fread_uint file = Some (v, rest) -> 0 <= v < 2 ^ 32.
Proof.
  unfold fread_uint. intros H.
  do 4 (destruct file as [|? file]; try discriminate).
  injection H as <- <-.
  pose proof (to_uchar_byte z). pose proof (to_uchar_byte z0).
  pose proof (to_uchar_byte z1). pose proof (to_uchar_byte z2).
  ints. lia.
Qed.

Lemma fread_uint_rest file v rest :
  fread_uint file = Some (v, rest) -> length file = (4 + length rest)%nat.
Proof.
  unfold fread_uint. intros H.
  do 4 (destruct file as [|? file]; try discriminate).
  injection H as <- <-. reflexivity.
Qed.

(** ** The file header *)

Lemma writeFileHeader_length h : length (writeFileHeader [] h) = 17%nat.
Proof. reflexivity. Qed.

Lemma readFileHeader_writeFileHeader h rest :
  readFileHeader (writeFileHeader [] h ++ rest) =
  if negb (to_uint (magic h) =? MAGIC_NUMBER) then Err [MagicMismatch]
  else Ok (mkFileHeader (to_uint (magic h)) (to_uint (original_size h))
                        (to_uint (compressed_size h)) (to_uint (frequency_count h))
                        (to_uchar (padding_bits h)), rest).
Proof.
  unfold writeFileHeader, readFileHeader.
  rewrite (fwrite_uint_app _ (frequency_count h)), (fwrite_uint_app _ (compressed_size h)),
    (fwrite_uint_app _ (original_size h)).
  rewrite <- !app_assoc.
  rewrite !fread_fwrite_uint. simpl.
  by rewrite to_uchar_idemp.
Qed.

Lemma readFileHeader_bad_magic file :
  Forall is_byte file ->
  take 4 file <> magic_bytes ->
  readFileHeader file = Err (if decide (17 <= length file)%nat then [MagicMismatch] else []).
Proof.
  intros Hb Hm. unfold readFileHeader.
  destruct file as [|b0 [|b1 [|b2 [|b3 file]]]]; try reflexivity.
  assert (Hv : to_uchar b0 + 256 * to_uchar b1 + 65536 * to_uchar b2
               + 16777216 * to_uchar b3 <> MAGIC_NUMBER).
  { apply Forall_cons in Hb as [H0 Hb]. apply Forall_cons in Hb as [H1 Hb].
    apply Forall_cons in Hb as [H2 Hb]. apply Forall_cons in Hb as [H3 Hb].
    rewrite !to_uchar_small by done.
    intros Hv. apply Hm. unfold MAGIC_NUMBER in Hv. unfold is_byte in *.
    assert (b0 = 70) by lia. assert (b1 = 70) by lia.
    assert (b2 = 85) by lia. assert (b3 = 72) by lia.
    by subst. }
  cbn [fread_uint].
  do 12 (destruct file as [|? file]; try reflexivity).
  destruct file as [|? file]; try reflexivity.
  cbn [fread_uint fread_uchar].
  apply Z.eqb_neq in Hv. rewrite Hv. cbn [negb].
  case_decide as Hlen; [done|]. cbn [length] in Hlen. lia.
Qed.

(** ** The decoding loop *)

Lemma readBit_measure file cb bp bit file' cb' bp' :
  0 <= bp ->
  readBit file cb bp = (bit, file', cb', bp') ->
  bit <> -1 ->
  0 <= bp' /\ (Z.to_nat bp' + 8 * length file' + 1 = Z.to_nat bp + 8 * length file)%nat.
Proof.
  unfold readBit. intros Hbp H Hbit.
  destruct (bp =? 0) eqn:E.
  - apply Z.eqb_eq in E. subst bp.
    destruct file as [|ch rest]; injection H as <- <- <- <-; [done|].
    split; [lia|]. cbn [length]. lia.
  - apply Z.eqb_neq in E. injection H as <- <- <- <-. lia.
Qed.

(** The loop never reaches its [!currentNode] test with a null pointer: the
    message of that test is never printed. *)
Lemma decode_loop_not_Desync fuel root osz cur cb bp d inp out :
  is_null root = false ->
  (decode_loop fuel root osz cur cb bp d inp out).1 <> Desync.
Proof.
  intros Hroot. revert cur cb bp d inp out.
  induction fuel as [|fuel IH]; intros; cbn [decode_loop]; [done|].
  destruct (to_uint d <? osz); [|done].
  destruct (readBit inp cb bp) as [[[bit inp'] cb'] bp'].
  destruct (bit =? -1); [done|].
  destruct cur as [|c f l r]; [done|].
  destruct (if bit =? 0 then l else r) as [|c' f' l' r']; [done|].
  destruct (is_null l' && is_null r'); cbn [is_null]; [rewrite Hroot|]; apply IH.
Qed.

(** One unit of fuel per bit left to read, and one more, is enough. *)
Lemma decode_loop_fuel fuel root osz cur cb bp d inp out :
  0 <= bp ->
  (Z.to_nat bp + 8 * length inp < fuel)%nat ->
  (decode_loop fuel root osz cur cb bp d inp out).1 <> OutOfFuel.
Proof.
  revert cur cb bp d inp out.
  induction fuel as [|fuel IH]; intros cur cb bp d inp out Hbp Hfuel; [lia|].
  cbn [decode_loop].
  destruct (to_uint d <? osz); [|done].
  destruct (readBit inp cb bp) as [[[bit inp'] cb'] bp'] eqn:Hread.
  destruct (bit =? -1) eqn:Hbit; [done|].
  apply Z.eqb_neq in Hbit.
  destruct (readBit_measure _ _ _ _ _ _ _ Hbp Hread Hbit) as [Hbp' Hm].
  destruct cur as [|c f l r]; [done|].
  destruct (if bit =? 0 then l else r) as [|c' f' l' r']; [done|].
  destruct (is_null l' && is_null r').
  - destruct (is_null root); [done|]. apply IH; lia.
  - cbn [is_null]. apply IH; lia.
Qed.

(** [decodedBytes] counts the bytes written, and the loop leaves on
    exhausted input only while that count is below [originalSize]. *)
Lemma decode_loop_exhausted fuel root osz cur cb bp d inp out out' :
  osz < 2 ^ 32 ->
  Z.of_nat (length out) = to_uint d ->
  decode_loop fuel root osz cur cb bp d inp out = (BitsExhausted, out') ->
  Z.of_nat (length out') < osz.
Proof.
  intros Hosz. revert cur cb bp d inp out.
  induction fuel as [|fuel IH]; intros cur cb bp d inp out Hd; cbn [decode_loop]; [done|].
  destruct (to_uint d <? osz) eqn:Hlt; [|done].
  apply Z.ltb_lt in Hlt.
  destruct (readBit inp cb bp) as [[[bit inp'] cb'] bp'].
  destruct (bit =? -1).
  { intros [= <-]. lia. }
  destruct cur as [|c f l r]; [done|].
  destruct (if bit =? 0 then l else r) as [|c' f' l' r']; [done|].
  destruct (is_null l' && is_null r').
  - destruct (is_null root); [done|]. apply IH.
    rewrite length_app, to_uint_to_int. cbn [length].
    rewrite Nat2Z.inj_add, Hd. change (Z.of_nat 1) with 1.
    clear IH. dlia.
  - cbn [is_null]. by apply IH.
Qed.

Lemma decodeAndWrite_not_Desync inp out root osz pad :
  (decodeAndWrite inp out root osz pad).1 <> Desync.
Proof.
  unfold decodeAndWrite. destruct (is_null root) eqn:Hroot; [done|].
  by apply decode_loop_not_Desync.
Qed.

Lemma decodeAndWrite_not_OutOfFuel inp out root osz pad :
  (decodeAndWrite inp out root osz pad).1 <> OutOfFuel.
Proof.
  unfold decodeAndWrite. destruct (is_null root); [done|].
  apply decode_loop_fuel; lia.
Qed.

(** The tree builder prints nothing when it returns a tree. *)
Lemma buildHuffmanTree_stderr frequencies root err :
  buildHuffmanTree frequencies = (root, err) -> is_null root = false -> err = [].
Proof.
  unfold buildHuffmanTree.
  destruct (count_unique frequencies =? 0); [by intros [= <- <-]|].
  destruct (if count_unique frequencies =? 1 then _ else None); [by intros [= <- <-]|].
  destruct (merge_loop _ _); by intros [= <- <-].
Qed.

Lemma readFileHeader_original_size file h rest :
  readFileHeader file = Ok (h, rest) -> 0 <= original_size h < 2 ^ 32.
Proof.
  unfold readFileHeader. intros H.
  destruct (fread_uint file) as [[m f1]|]; [|done].
  destruct (fread_uint f1) as [[o f2]|] eqn:Ho; [|done].
  destruct (fread_uint f2) as [[c f3]|]; [|done].
  destruct (fread_uint f3) as [[n f4]|]; [|done].
  destruct (fread_uchar f4) as [[p f5]|]; [|done].
  destruct (negb (m =? MAGIC_NUMBER)); [done|].
  injection H as <- <-. cbn [original_size].
  by eapply fread_uint_range.
Qed.

(** ** Claims on the error paths *)

(** C7: compressing a zero-length input fails with the empty-input message:
    [compressFile] returns -1 and the output file is never opened, so no
    header, frequency table or payload byte is written. *)
Theorem compressFile_empty_input :
  compressFile [] = Exit (-1) [EmptyInput] None.
Proof. reflexivity. Qed.

(** C9: when the first four bytes of the input differ from the magic
    constant, [decompressFile] returns -1 and never opens the output file;
    the magic-mismatch message is printed when the 17 bytes of the header
    could be read, and nothing is printed when the file is shorter. *)
Theorem decompressFile_bad_magic archive :
  Forall is_byte archive ->
  take 4 archive <> magic_bytes ->
  decompressFile archive =
  Exit (-1) (if decide (17 <= length archive)%nat then [MagicMismatch] else []) None.
Proof.
  intros Hb Hm. unfold decompressFile.
  by rewrite readFileHeader_bad_magic.
Qed.

Lemma decompressFile_bad_magic_witness :
  let archive := [71; 70; 85; 72; 9; 0; 0; 0; 2; 0; 0; 0; 3; 0; 0; 0; 0;
                  65; 2; 0; 0; 0; 66; 3; 0; 0; 0; 67; 4; 0; 0; 0; 175; 192] in
  Forall is_byte archive /\ take 4 archive <> magic_bytes /\
  decompressFile archive = Exit (-1) [MagicMismatch] None.
Proof.
  intros archive.
  assert (Hb : Forall is_byte archive) by (repeat constructor; unfold is_byte; lia).
  assert (Hm : take 4 archive <> magic_bytes) by (vm_compute; discriminate).
  split; [exact Hb|]. split; [exact Hm|].
  exact (decompressFile_bad_magic archive Hb Hm).
Defined.

(** C10: when the payload runs out before [original_size] bytes are decoded,
    [decodeAndWrite] leaves its loop without a message and [decompressFile]
    returns 0; the output file is shorter than the size in the header. *)
Theorem decompressFile_truncated_payload archive header inFile frequencies payload root err out :
  readFileHeader archive = Ok (header, inFile) ->
  readFrequencies inFile (to_int (frequency_count header)) = Ok (frequencies, payload) ->
  buildHuffmanTree frequencies = (root, err) ->
  decodeAndWrite payload [] root (original_size header) (padding_bits header)
    = (BitsExhausted, out) ->
  decompressFile archive = Exit 0 [] (Some out)
  /\ Z.of_nat (length out) < original_size header.
Proof.
  intros Hh Hf Ht Hd.
  assert (Hroot : is_null root = false).
  { unfold decodeAndWrite in Hd. by destruct (is_null root). }
  pose proof (buildHuffmanTree_stderr _ _ _ Ht Hroot) as ->.
  split.
  - unfold decompressFile. by rewrite Hh, Hf, Ht, Hroot, Hd.
  - unfold decodeAndWrite in Hd. rewrite Hroot in Hd.
    refine (decode_loop_exhausted _ _ _ _ _ _ 0 _ [] _ _ _ Hd).
    + by apply (readFileHeader_original_size archive _ inFile).
    + reflexivity.
Qed.

Lemma decompressFile_truncated_payload_witness :
  let table := [65; 2; 0; 0; 0; 66; 3; 0; 0; 0; 67; 4; 0; 0; 0] in
  let archive := [70; 70; 85; 72; 9; 0; 0; 0; 2; 0; 0; 0; 3; 0; 0; 0; 0] ++ table ++ [175] in
  let frequencies := <[67%nat := 4]> (<[66%nat := 3]> (<[65%nat := 2]> (replicate 256 0))) in
  let root := Node 0 9 (Node 67 4 NULL NULL)
                       (Node 0 5 (Node 65 2 NULL NULL) (Node 66 3 NULL NULL)) in
  decompressFile archive = Exit 0 [] (Some [65; 65; 66; 66])
  /\ Z.of_nat (length [65; 65; 66; 66]) < 9.
Proof.
  intros table archive frequencies root.
  exact (decompressFile_truncated_payload archive
           (mkFileHeader MAGIC_NUMBER 9 2 3 0) (table ++ [175]) frequencies [175] root []
           [65; 65; 66; 66] eq_refl eq_refl eq_refl eq_refl).
Defined.

(** C3 (the code departs from it): on a tree whose root has no right child,
    as built for an input with one distinct symbol, a 1 bit moves
    [currentNode] to the null pointer and the leaf test
    [!currentNode->left && !currentNode->right] reads its fields before the
    [!currentNode] test is reached; no desynchronisation message is
    printed. *)
Theorem decodeAndWrite_null_child :
  let frequencies := <[65%nat := 8]> (replicate 256 0) in
  let root := Node 0 8 (Node 65 8 NULL NULL) NULL in
  let archive := [70; 70; 85; 72; 8; 0; 0; 0; 1; 0; 0; 0; 1; 0; 0; 0; 0;
                  65; 8; 0; 0; 0; 128] in
  buildHuffmanTree frequencies = (root, [])
  /\ decodeAndWrite [128] [] root 8 0 = (NullDeref, [])
  /\ decompressFile archive = Crash [] (Some []).
Proof. repeat split; reflexivity. Qed.

(** ** The padding field *)

Lemma compressFile_header inputFile ret err archive :
  compressFile inputFile = Exit ret err (Some archive) ->
  exists h rest, archive = writeFileHeader [] h ++ rest
                 /\ magic h = MAGIC_NUMBER /\ padding_bits h = 0.
Proof.
  unfold compressFile.
  destruct (calculateFrequencies inputFile) as [[osz fr] e0].
  destruct (osz <? 0); [done|].
  destruct (buildHuffmanTree fr) as [root e1].
  destruct (is_null root); [done|].
  destruct (encodeAndWrite _ _ _) as [outFile e2].
  match goal with
  | |- context [rewrite_from_start (writeFileHeader [] ?h) ?o] =>
    generalize (eq_refl (magic h)), (eq_refl (padding_bits h));
    generalize h at 2 4 5; intros h' Hm Hp
  end.
  intros H. apply (f_equal (fun r => match r with Exit _ _ o | Crash _ o => o end)) in H.
  apply (inj Some) in H. subst archive. unfold rewrite_from_start.
  by eexists _, _.
Qed.

(** C4: the header that [compressFile] writes has [padding_bits] 0 whatever
    the input, and what the decoder writes does not depend on the padding
    value it is given: [decodeAndWrite] returns the same output for any two
    values of [paddingBits], and [decompressFile] behaves the same on two
    archives that differ only in the padding byte of the header. *)
Theorem padding_bits_constant_and_unused :
  (forall inputFile ret err archive,
     compressFile inputFile = Exit ret err (Some archive) ->
     exists h rest, readFileHeader archive = Ok (h, rest) /\ padding_bits h = 0)
  /\ (forall inputFile outputFile root originalSize b b',
        decodeAndWrite inputFile outputFile root originalSize b
        = decodeAndWrite inputFile outputFile root originalSize b')
  /\ (forall h rest b b',
        decompressFile (writeFileHeader [] (set_padding_bits h b) ++ rest)
        = decompressFile (writeFileHeader [] (set_padding_bits h b') ++ rest)).
Proof.
  split; [|split].
  - intros inputFile ret err archive H.
    destruct (compressFile_header _ _ _ _ H) as (h & rest & -> & Hm & Hp).
    rewrite readFileHeader_writeFileHeader, Hm, Hp.
    eexists _, _. split; reflexivity.
  - reflexivity.
  - intros h rest b b'. unfold decompressFile.
    rewrite !readFileHeader_writeFileHeader. cbn [set_padding_bits magic].
    destruct (negb _); [done|].
    cbn [frequency_count original_size padding_bits].
    destruct (readFrequencies _ _) as [[fr inFile]|]; [|done].
    destruct (buildHuffmanTree fr) as [root err].
    destruct (is_null root); done.
Qed.

Lemma padding_bits_constant_and_unused_witness :
  let archive := [70; 70; 85; 72; 1; 0; 0; 0; 1; 0; 0; 0; 1; 0; 0; 0; 0;
                  65; 1; 0; 0; 0; 0] in
  compressFile [65] = Exit 0 [] (Some archive)
  /\ exists h rest, readFileHeader archive = Ok (h, rest) /\ padding_bits h = 0.
Proof.
  intros archive. split; [reflexivity|].
  exact (proj1 padding_bits_constant_and_unused [65] 0 [] archive eq_refl).
Defined.

(** ** The frequency table and its symbols *)

Lemma present_in_cons f i indices :
  present_in f (i :: indices) =
  if 0 <? freq_at f i then i :: present_in f indices else present_in f indices.
Proof.
  unfold present_in. rewrite filter_cons.
  destruct (Z.ltb_spec 0 (freq_at f i)); case_decide; done || lia.
Qed.

Lemma present_in_length f indices :
  (length (present_in f indices) <= length indices)%nat.
Proof. apply length_filter. Qed.

Lemma elem_of_present f i :
  i ∈ present f <-> (i < ASCII_SIZE)%nat /\ 0 < freq_at f i.
Proof.
  unfold present, present_in. rewrite list_elem_of_filter, elem_of_seq. lia.
Qed.

Lemma present_length f : (length (present f) <= 256)%nat.
Proof. unfold present. by rewrite present_in_length, length_seq. Qed.

Lemma present_NoDup f : NoDup (present f).
Proof. apply NoDup_filter, NoDup_seq. Qed.

Lemma StronglySorted_seq j n : StronglySorted lt (seq j n).
Proof.
  revert j. induction n as [|n IH]; intros j; cbn [seq]; constructor; [apply IH|].
  apply Forall_seq. lia.
Qed.

Lemma StronglySorted_filter {A} (R : relation A) (P : A -> Prop) `{!forall x, Decision (P x)} l :
  StronglySorted R l -> StronglySorted R (filter P l).
Proof.
  induction 1 as [|x l Hl IH Hx]; [constructor|].
  rewrite filter_cons. case_decide; [|done].
  constructor; [done|].
  apply Forall_forall. intros y [_ Hy]%list_elem_of_filter.
  by eapply Forall_forall in Hx.
Qed.

Lemma present_sorted f : StronglySorted lt (present f).
Proof. apply StronglySorted_filter, StronglySorted_seq. Qed.

(** The counting loops of [buildHuffmanTree] and [compressFile]. *)
Lemma count_loop_int f indices n :
  0 <= n -> n + Z.of_nat (length indices) < 2 ^ 31 ->
  fold_left (fun n i => if 0 <? freq_at f i then to_int (n + 1) else n) indices n
  = n + Z.of_nat (length (present_in f indices)).
Proof.
  revert n. induction indices as [|i indices IH]; intros n Hn Hlen; cbn [fold_left length] in *.
  { unfold present_in. rewrite filter_nil. cbn [length]. lia. }
  rewrite present_in_cons. pose proof (present_in_length f indices).
  destruct (0 <? freq_at f i).
  - rewrite to_int_small by (ints; lia). rewrite IH by lia. cbn [length]. lia.
  - apply IH; lia.
Qed.

Lemma count_loop_uint f indices n :
  0 <= n -> n + Z.of_nat (length indices) < 2 ^ 32 ->
  fold_left (fun n i => if 0 <? freq_at f i then to_uint (n + 1) else n) indices n
  = n + Z.of_nat (length (present_in f indices)).
Proof.
  revert n. induction indices as [|i indices IH]; intros n Hn Hlen; cbn [fold_left length] in *.
  { unfold present_in. rewrite filter_nil. cbn [length]. lia. }
  rewrite present_in_cons. pose proof (present_in_length f indices).
  destruct (0 <? freq_at f i).
  - rewrite to_uint_small by (ints; lia). rewrite IH by lia. cbn [length]. lia.
  - apply IH; lia.
Qed.

Lemma count_unique_present f : count_unique f = Z.of_nat (length (present f)).
Proof.
  unfold count_unique. rewrite count_loop_int; [done|lia|].
  rewrite length_seq. unfold ASCII_SIZE. ints. lia.
Qed.

Lemma writeFrequencies_loop f indices file :
  fold_left (fun file i =>
               if 0 <? freq_at f i then
                 fwrite_uint (file ++ [to_uchar (Z.of_nat i)]) (freq_at f i)
               else file) indices file
  = file ++ flat_map (freq_record f) (present_in f indices).
Proof.
  revert file. induction indices as [|i indices IH]; intros file; cbn [fold_left].
  { unfold present_in. rewrite filter_nil. cbn. by rewrite app_nil_r. }
  rewrite present_in_cons, IH. destruct (0 <? freq_at f i); [|done].
  cbn [flat_map]. unfold freq_record. rewrite fwrite_uint_app.
  by rewrite <- !app_assoc.
Qed.

Lemma writeFrequencies_present file f :
  writeFrequencies file f = file ++ flat_map (freq_record f) (present f).
Proof. apply writeFrequencies_loop. Qed.

Lemma writeFrequencies_app file f :
  writeFrequencies file f = file ++ writeFrequencies [] f.
Proof. by rewrite !writeFrequencies_present. Qed.

Lemma freq_record_length f i : length (freq_record f i) = 5%nat.
Proof. reflexivity. Qed.

Lemma flat_map_freq_record_length f js :
  length (flat_map (freq_record f) js) = (5 * length js)%nat.
Proof.
  induction js as [|j js IH]; [done|].
  cbn [flat_map]. rewrite length_app, IH, freq_record_length. cbn [length]. lia.
Qed.

Lemma store_counts_cons f j js g :
  store_counts f (j :: js) g = store_counts f js (<[j := to_uint (freq_at f j)]> g).
Proof. reflexivity. Qed.

Lemma store_counts_length f js g : length (store_counts f js g) = length g.
Proof.
  revert g. induction js as [|j js IH]; intros g; [done|].
  by rewrite store_counts_cons, IH, length_insert.
Qed.

Lemma store_counts_lookup_notin f js g k :
  k ∉ js -> store_counts f js g !! k = g !! k.
Proof.
  revert g. induction js as [|j js IH]; intros g Hk; [done|].
  apply not_elem_of_cons in Hk as [Hkj Hk].
  rewrite store_counts_cons.
  rewrite IH by done. by apply list_lookup_insert_ne.
Qed.

Lemma store_counts_lookup_in f js g k :
  k ∈ js -> (k < length g)%nat ->
  store_counts f js g !! k = Some (to_uint (freq_at f k)).
Proof.
  revert g. induction js as [|j js IH]; intros g Hk Hlen.
  { by apply elem_of_nil in Hk. }
  rewrite store_counts_cons.
  destruct (decide (k ∈ js)) as [Hin|Hnotin].
  - apply IH; [done|]. by rewrite length_insert.
  - apply elem_of_cons in Hk as [->|?]; [|done].
    rewrite store_counts_lookup_notin by done.
    by apply list_lookup_insert_eq.
Qed.

Lemma store_counts_present f :
  valid_frequencies f ->
  store_counts f (present f) (replicate ASCII_SIZE 0) = f.
Proof.
  intros [Hlen Hrange]. apply list_eq. intros k.
  destruct (decide (k < ASCII_SIZE)%nat) as [Hk|Hk].
  - assert (Hfk : f !! k = Some (freq_at f k)).
    { apply list_lookup_lookup_total_lt. lia. }
    pose proof (Forall_lookup_1 _ _ _ _ Hrange Hfk) as Hr. cbn beta in Hr.
    rewrite Hfk.
    destruct (decide (0 < freq_at f k)) as [Hpos|Hzero].
    + rewrite store_counts_lookup_in.
      * by rewrite to_uint_small.
      * by apply elem_of_present.
      * by rewrite length_replicate.
    + rewrite store_counts_lookup_notin.
      * rewrite lookup_replicate_2 by done. f_equal. lia.
      * rewrite elem_of_present. tauto.
  - rewrite !(proj2 (lookup_ge_None _ _)); [done|lia|].
    rewrite store_counts_length, length_replicate. lia.
Qed.

Lemma readFrequencies_loop_records f js rest g i fuel :
  Forall (fun j => (j < 256)%nat) js ->
  0 <= i -> i + Z.of_nat (length js) < 2 ^ 31 ->
  (length js < fuel)%nat ->
  readFrequencies_loop fuel (flat_map (freq_record f) js ++ rest) g i
                       (i + Z.of_nat (length js))
  = Ok (store_counts f js g, rest).
Proof.
  revert g i fuel. induction js as [|j js IH]; intros g i fuel Hjs Hi Hlen Hfuel;
    (destruct fuel as [|fuel]; [cbn [length] in *; lia|]); cbn [readFrequencies_loop].
  { cbn [length flat_map app store_counts fold_left].
    by rewrite (proj2 (Z.ltb_ge _ _)) by lia. }
  apply Forall_cons in Hjs as [Hj Hjs]. cbn [length] in *.
  rewrite (proj2 (Z.ltb_lt _ _)) by lia.
  cbn [flat_map]. unfold freq_record at 1.
  rewrite <- !app_assoc. cbn [app].
  rewrite fread_fwrite_uint.
  rewrite to_int_small by (ints; lia).
  rewrite to_uchar_idemp, to_uchar_small, Nat2Z.id by (unfold is_byte; lia).
  replace (i + Z.of_nat (S (length js))) with (i + 1 + Z.of_nat (length js)) by lia.
  rewrite store_counts_cons. by rewrite IH by (done || lia).
Qed.

Lemma readFrequencies_writeFrequencies f rest :
  valid_frequencies f ->
  readFrequencies (writeFrequencies [] f ++ rest) (count_unique f) = Ok (f, rest).
Proof.
  intros Hf. unfold readFrequencies.
  rewrite writeFrequencies_present, count_unique_present. cbn [app].
  pose proof (present_length f) as Hlen.
  rewrite <- (Z.add_0_l (Z.of_nat _)).
  rewrite readFrequencies_loop_records.
  - by rewrite store_counts_present.
  - apply Forall_forall. intros j Hj%elem_of_present. unfold ASCII_SIZE in Hj. lia.
  - done.
  - ints. lia.
  - rewrite length_app, flat_map_freq_record_length. lia.
Qed.

Lemma flat_map_ext_elem_of {A B} (g h : A -> list B) l :
  (forall x, x ∈ l -> g x = h x) -> flat_map g l = flat_map h l.
Proof.
  induction l as [|x l IH]; intros Hgh; [done|].
  cbn [flat_map]. rewrite Hgh by left. rewrite IH; [done|].
  intros y Hy. apply Hgh. by right.
Qed.

Lemma present_nonzero f i :
  valid_frequencies f -> i ∈ present f <-> (i < 256)%nat /\ freq_at f i <> 0.
Proof.
  intros [Hlen Hrange]. rewrite elem_of_present. unfold ASCII_SIZE in *.
  split; intros [Hi Hv]; (split; [done|]); [lia|].
  assert (Hfi : f !! i = Some (freq_at f i)).
  { apply list_lookup_lookup_total_lt. lia. }
  pose proof (Forall_lookup_1 _ _ _ _ Hrange Hfi) as Hr. cbn beta in Hr. lia.
Qed.

(** C8: for every frequency array of 256 [unsigned int] cells,
    [writeFrequencies] emits one record (symbol byte, then count) per symbol
    with a nonzero count, in ascending symbol order, and [readFrequencies],
    given the number of nonzero cells, reads back exactly the same array and
    stops at the first byte after the table. *)
Theorem frequency_table_roundtrip f file rest :
  valid_frequencies f ->
  writeFrequencies file f
    = file ++ flat_map (fun i => Z.of_nat i :: fwrite_uint [] (freq_at f i)) (present f)
  /\ StronglySorted lt (present f)
  /\ (forall i, i ∈ present f <-> (i < 256)%nat /\ freq_at f i <> 0)
  /\ count_unique f = Z.of_nat (length (present f))
  /\ readFrequencies (writeFrequencies [] f ++ rest) (count_unique f) = Ok (f, rest).
Proof.
  intros Hf. split; [|split; [|split; [|split]]].
  - rewrite writeFrequencies_present. f_equal.
    apply flat_map_ext_elem_of. intros i Hi. unfold freq_record. f_equal.
    apply elem_of_present in Hi. unfold ASCII_SIZE in Hi.
    apply to_uchar_small. unfold is_byte. lia.
  - apply present_sorted.
  - intros i. by apply present_nonzero.
  - apply count_unique_present.
  - by apply readFrequencies_writeFrequencies.
Qed.

Lemma frequency_table_roundtrip_witness :
  let f := <[67%nat := 4]> (<[66%nat := 3]> (<[65%nat := 2]> (replicate 256 0))) in
  valid_frequencies f
  /\ writeFrequencies [] f = [65; 2; 0; 0; 0; 66; 3; 0; 0; 0; 67; 4; 0; 0; 0]
  /\ readFrequencies (writeFrequencies [] f ++ [175; 192]) (count_unique f) = Ok (f, [175; 192]).
Proof.
  intros f.
  assert (Hf : valid_frequencies f).
  { split; [reflexivity|]. apply (bool_decide_unpack _). vm_compute. exact I. }
  split; [exact Hf|]. split; [reflexivity|].
  exact (proj2 (proj2 (proj2 (proj2 (frequency_table_roundtrip f [] [175; 192] Hf))))).
Defined.

(** ** The heap as a bag of nodes *)

Lemma node_at_lookup l i :
  0 <= i -> (Z.to_nat i < length l)%nat -> l !! Z.to_nat i = Some (node_at l i).
Proof. intros. by apply list_lookup_lookup_total_lt. Qed.

Lemma take_swap_perm (l : list HuffmanNode) n i j :
  (i < n)%nat -> (j < n)%nat -> (n <= length l)%nat ->
  take n (<[i := l !!! j]> (<[j := l !!! i]> l)) ≡ₚ take n l.
Proof.
  intros Hi Hj Hn.
  rewrite !take_insert_lt by done.
  apply Permutation_insert_swap; rewrite lookup_take_lt by done;
    apply list_lookup_lookup_total_lt; lia.
Qed.

Lemma createMinHeap_wf capacity : 0 <= capacity -> heap_wf (createMinHeap capacity).
Proof.
  intros. unfold heap_wf, createMinHeap. cbn. rewrite length_replicate. lia.
Qed.

Lemma createMinHeap_live capacity : live (createMinHeap capacity) = [].
Proof. reflexivity. Qed.

(** *** [minHeapify] *)

Lemma minHeapify_rec_perm fuel heap index :
  heap_wf heap -> 0 <= index < size heap ->
  let heap' := minHeapify_rec fuel heap index in
  heap_wf heap' /\ size heap' = size heap /\ capacity heap' = capacity heap
  /\ live heap' ≡ₚ live heap.
Proof.
  revert heap index. induction fuel as [|fuel IH]; intros heap index Hwf Hindex; [done|].
  cbn [minHeapify_rec]. cbv zeta.
  set (s1 := if (2 * index + 1 <? size heap) && _ then 2 * index + 1 else index).
  assert (Hs1 : 0 <= s1 < size heap).
  { subst s1. destruct (Z.ltb_spec (2 * index + 1) (size heap)); cbn [andb];
      [destruct (frequency _ <? frequency _)|]; lia. }
  clearbody s1.
  set (s2 := if (2 * index + 2 <? size heap) && _ then 2 * index + 2 else s1).
  assert (Hs2 : 0 <= s2 < size heap).
  { subst s2. destruct (Z.ltb_spec (2 * index + 2) (size heap)); cbn [andb];
      [destruct (frequency _ <? frequency _)|]; lia. }
  clearbody s2.
  destruct (Z.eqb_spec s2 index) as [->|Hne]; cbn [negb]; [done|].
  destruct Hwf as [Hsize Hlen].
  match goal with |- context [minHeapify_rec fuel ?h s2] => set (heap1 := h) end.
  assert (Hwf1 : heap_wf heap1).
  { split; [done|]. subst heap1. cbn [nodes capacity]. unfold set_node.
    by rewrite !length_insert. }
  destruct (IH heap1 s2 Hwf1 Hs2) as (Hwf' & Hsz & Hcap & Hperm).
  split; [done|]. split; [done|]. split; [done|].
  rewrite Hperm. subst heap1. unfold live, set_node, node_at. cbn [size nodes].
  apply take_swap_perm; lia.
Qed.

Lemma minHeapify_perm heap index :
  heap_wf heap -> 0 <= index < size heap ->
  heap_wf (minHeapify heap index) /\ size (minHeapify heap index) = size heap
  /\ capacity (minHeapify heap index) = capacity heap
  /\ live (minHeapify heap index) ≡ₚ live heap.
Proof. apply minHeapify_rec_perm. Qed.

(** *** [extractMin] *)

Lemma extractMin_perm heap :
  heap_wf heap -> 0 < size heap ->
  heap_wf (extractMin heap).2 /\ size (extractMin heap).2 = size heap - 1
  /\ capacity (extractMin heap).2 = capacity heap
  /\ live heap ≡ₚ (extractMin heap).1 :: live (extractMin heap).2.
Proof.
  intros [Hsize Hlen] Hpos. unfold extractMin.
  rewrite (proj2 (Z.leb_gt _ _)) by done. cbn [fst snd].
  match goal with |- context [if 0 <? size ?h then _ else _] => set (heap1 := h) end.
  assert (Hwf1 : heap_wf heap1).
  { subst heap1. split; cbn [size capacity nodes]; [lia|].
    unfold set_node. by rewrite length_insert. }
  assert (Hlive1 : live heap ≡ₚ node_at (nodes heap) 0 :: live heap1).
  { subst heap1. unfold live, set_node, node_at. cbn [size nodes].
    replace (Z.to_nat (size heap)) with (S (Z.to_nat (size heap - 1))) by lia.
    change (Z.to_nat 0) with 0%nat.
    assert (Hn : (Z.to_nat (size heap - 1) < length (nodes heap))%nat) by lia.
    generalize dependent (Z.to_nat (size heap - 1)). intros n Hn.
    rewrite (take_S_r _ n (nodes heap !!! n)) by (apply list_lookup_lookup_total_lt; lia).
    destruct (nodes heap) as [|x l] eqn:Hl; [cbn [length] in Hn; lia|].
    destruct n as [|n]; [done|].
    cbn. by rewrite <- Permutation_cons_append. }
  destruct (Z.ltb_spec 0 (size heap1)) as [Hlt|Hge].
  - destruct (minHeapify_perm heap1 0 Hwf1 ltac:(lia)) as (Hwf' & Hsz & Hcap & Hperm).
    rewrite Hperm. by subst heap1.
  - by subst heap1.
Qed.

Lemma extractMin_empty heap : size heap <= 0 -> extractMin heap = (NULL, heap).
Proof. intros. unfold extractMin. by rewrite (proj2 (Z.leb_le _ _)). Qed.

(** *** [insertMinHeap] *)

Lemma parent_range i : 0 < i -> 0 <= Z.quot (i - 1) 2 < i.
Proof. intros. rewrite Z.quot_div_nonneg by lia. dlia. Qed.

Lemma sift_up_perm fuel node l i n :
  0 <= i -> (Z.to_nat i < n)%nat -> (n <= length l)%nat ->
  let '(l', i') := sift_up fuel node l i in
  length l' = length l /\ 0 <= i' <= i
  /\ take n (<[Z.to_nat i' := node]> l') ≡ₚ take n (<[Z.to_nat i := node]> l).
Proof.
  revert l i. induction fuel as [|fuel IH]; intros l i Hi Hin Hn; cbn [sift_up].
  { split; [done|]. split; [lia|done]. }
  destruct (Z.eqb_spec i 0) as [->|Hi0]; cbn [negb andb].
  { split; [done|]. split; [lia|done]. }
  destruct (frequency node <? _).
  2:{ split; [done|]. split; [lia|done]. }
  pose proof (parent_range i ltac:(lia)) as Hp.
  set (p := Z.quot (i - 1) 2) in *. clearbody p.
  specialize (IH (set_node l i (node_at l p)) p ltac:(lia) ltac:(lia)).
  unfold set_node in *. rewrite length_insert in IH. specialize (IH Hn).
  destruct (sift_up fuel node _ p) as [l' i'].
  destruct IH as (Hlen & Hi' & Hperm).
  split; [done|]. split; [lia|].
  rewrite Hperm. unfold node_at.
  set (k := <[Z.to_nat i := node]> l).
  assert (Hki : k !!! Z.to_nat i = node).
  { subst k. apply list_lookup_total_insert_eq. lia. }
  assert (Hkp : k !!! Z.to_nat p = l !!! Z.to_nat p).
  { subst k. apply list_lookup_total_insert_ne. lia. }
  replace (<[Z.to_nat i := l !!! Z.to_nat p]> l)
    with (<[Z.to_nat i := k !!! Z.to_nat p]> k)
    by (subst k; by rewrite list_insert_insert_eq, list_lookup_total_insert_ne by lia).
  rewrite <- Hki at 1.
  apply take_swap_perm; subst k; rewrite ?length_insert; lia.
Qed.

Lemma insertMinHeap_perm heap node :
  heap_wf heap -> size heap < capacity heap ->
  heap_wf (insertMinHeap heap node) /\ size (insertMinHeap heap node) = size heap + 1
  /\ capacity (insertMinHeap heap node) = capacity heap
  /\ live (insertMinHeap heap node) ≡ₚ node :: live heap.
Proof.
  intros [Hsize Hlen] Hcap. unfold insertMinHeap.
  rewrite (proj2 (Z.leb_gt _ _)) by done.
  replace (size heap + 1 - 1) with (size heap) by lia.
  pose proof (sift_up_perm (Z.to_nat (size heap)) node (nodes heap) (size heap)
                (Z.to_nat (size heap + 1)) ltac:(lia) ltac:(lia) ltac:(lia)) as H.
  destruct (sift_up _ node _ _) as [l' i'].
  destruct H as (Hlen' & Hi' & Hperm).
  unfold heap_wf, live, set_node. cbn [size capacity nodes].
  rewrite length_insert.
  split; [split; [lia|congruence]|]. split; [done|]. split; [done|].
  rewrite Hperm.
  replace (Z.to_nat (size heap + 1)) with (S (Z.to_nat (size heap))) by lia.
  rewrite (take_S_r _ _ node) by (apply list_lookup_insert_eq; lia).
  rewrite take_insert_ge by done.
  by rewrite <- Permutation_cons_append.
Qed.

Lemma insertMinHeap_full heap node :
  capacity heap <= size heap -> insertMinHeap heap node = heap.
Proof. intros. unfold insertMinHeap. by rewrite (proj2 (Z.leb_le _ _)). Qed.

(** ** The shape of the tree *)

Lemma symbols_node c f l r :
  is_null l && is_null r = false ->
  symbols (Node c f l r) = symbols l ++ symbols r.
Proof.
  intros H. unfold symbols. cbn [paths]. rewrite H.
  rewrite fmap_app, <- !list_fmap_compose.
  f_equal; apply list_fmap_ext; by intros ? [??].
Qed.

Lemma good_leaf c f : good (createNode c f).
Proof. split; [done|]. cbn. lia. Qed.

Lemma good_merged c f l r : good l -> good r -> good (Node c f l r).
Proof.
  intros [Hl Hhl] [Hr Hhr]. split; [done|].
  cbn [height paths]. rewrite Hl. cbn [andb].
  rewrite length_app, !length_fmap. lia.
Qed.

(** *** Filling the heap *)

Lemma populate_loop f indices heap :
  heap_wf heap ->
  size heap + Z.of_nat (length (present_in f indices)) <= capacity heap ->
  let heap' :=
    fold_left (fun heap i =>
                 if 0 <? freq_at f i then insertMinHeap heap (leaf_of f i) else heap)
              indices heap in
  heap_wf heap' /\ capacity heap' = capacity heap
  /\ size heap' = size heap + Z.of_nat (length (present_in f indices))
  /\ live heap' ≡ₚ (leaf_of f <$> present_in f indices) ++ live heap.
Proof.
  revert heap. induction indices as [|i indices IH]; intros heap Hwf Hcap; cbn [fold_left].
  { unfold present_in. rewrite filter_nil. cbn. split; [done|]. split; [done|].
    split; [lia|done]. }
  rewrite present_in_cons in *.
  destruct (0 <? freq_at f i); [|by apply IH].
  cbn [length] in Hcap.
  destruct (insertMinHeap_perm heap (leaf_of f i) Hwf ltac:(lia)) as (Hwf1 & Hsz1 & Hcap1 & Hp1).
  destruct (IH (insertMinHeap heap (leaf_of f i)) Hwf1 ltac:(lia)) as (Hwf2 & Hcap2 & Hsz2 & Hp2).
  split; [done|]. split; [congruence|]. split; [cbn [length]; lia|].
  rewrite Hp2, Hp1. cbn [fmap list_fmap app].
  by rewrite <- Permutation_middle.
Qed.

(** *** The merging loop *)

Lemma merge_loop_spec fuel heap :
  heap_wf heap -> Forall good (live heap) ->
  1 <= size heap -> (Z.to_nat (size heap) <= fuel)%nat ->
  exists heap',
    merge_loop fuel heap = Some heap' /\ heap_wf heap' /\ size heap' = 1
    /\ Forall good (live heap')
    /\ live heap' ≫= symbols ≡ₚ live heap ≫= symbols.
Proof.
  revert heap. induction fuel as [|fuel IH]; intros heap Hwf Hgood Hsize Hfuel; [lia|].
  cbn [merge_loop].
  destruct (Z.ltb_spec 1 (size heap)) as [Hlt|Hge].
  2:{ exists heap. split; [done|]. split; [done|]. split; [lia|]. by split. }
  destruct (extractMin_perm heap Hwf ltac:(lia)) as (Hwf1 & Hsz1 & Hcap1 & Hp1).
  destruct (extractMin heap) as [left heap1]. cbn [fst snd] in *.
  destruct (extractMin_perm heap1 Hwf1 ltac:(lia)) as (Hwf2 & Hsz2 & Hcap2 & Hp2).
  destruct (extractMin heap1) as [right heap2]. cbn [fst snd] in *.
  rewrite Hp1, Hp2 in Hgood.
  apply Forall_cons in Hgood as [Hl Hgood]. apply Forall_cons in Hgood as [Hr Hgood].
  rewrite (proj1 Hl), (proj1 Hr). cbn [orb].
  set (merged := Node 0 (to_uint (frequency left + frequency right)) left right).
  destruct Hwf as [Hrange Hlen].
  destruct (insertMinHeap_perm heap2 merged Hwf2 ltac:(lia)) as (Hwf3 & Hsz3 & Hcap3 & Hp3).
  destruct (IH (insertMinHeap heap2 merged)) as (heap' & Hloop & Hwf' & Hsz' & Hgood' & Hp').
  - done.
  - rewrite Hp3. apply Forall_cons. split; [|done]. by apply good_merged.
  - lia.
  - lia.
  - exists heap'. split; [done|]. split; [done|]. split; [done|]. split; [done|].
    rewrite Hp', Hp3, Hp1, Hp2. rewrite !bind_cons.
    subst merged. rewrite symbols_node by (by rewrite (proj1 Hl)).
    by rewrite <- app_assoc.
Qed.

(** *** [buildHuffmanTree] *)

Lemma single_char_tree_present f indices :
  single_char_tree f indices =
  match present_in f indices with
  | [] => None
  | i :: _ => Some (Node 0 (freq_at f i) (leaf_of f i) NULL)
  end.
Proof.
  induction indices as [|i indices IH]; cbn [single_char_tree]; [done|].
  rewrite present_in_cons. by destruct (0 <? freq_at f i).
Qed.

Lemma leaves_symbols f (l : list nat) :
  (leaf_of f <$> l) ≫= symbols = (fun i => to_uchar (Z.of_nat i)) <$> l.
Proof.
  induction l as [|i l IH]; [done|].
  cbn [fmap list_fmap]. rewrite bind_cons. fold (fmap (M:=list) (leaf_of f) l).
  rewrite IH. done.
Qed.

Lemma present_symbols f :
  (fun i => to_uchar (Z.of_nat i)) <$> present f = Z.of_nat <$> present f.
Proof.
  apply Forall_fmap_ext_1, Forall_forall. intros i Hi.
  apply elem_of_present in Hi as [Hi _]. unfold ASCII_SIZE in Hi.
  apply to_uchar_small. unfold is_byte. lia.
Qed.

(** For a table with at least one positive count the builder returns a tree
    and prints nothing.  The leaves of the tree are the symbols that
    occur, each once, no leaf is the root itself, and no leaf is deeper
    than 255. *)
Lemma buildHuffmanTree_spec f :
  present f <> [] ->
  exists t,
    buildHuffmanTree f = (t, [])
    /\ is_null t = false
    /\ is_leaf t = false
    /\ symbols t ≡ₚ Z.of_nat <$> present f
    /\ (height t <= 255)%nat.
Proof.
  intros Hne. unfold buildHuffmanTree.
  rewrite count_unique_present.
  pose proof (present_length f) as Hlen.
  destruct (Z.eqb_spec (Z.of_nat (length (present f))) 0) as [H0|H0].
  { destruct (present f); [done|cbn [length] in H0; lia]. }
  destruct (Z.eqb_spec (Z.of_nat (length (present f))) 1) as [H1|H1].
  - rewrite single_char_tree_present. fold (present f).
    pose proof (present_symbols f) as Hps.
    destruct (present f) as [|i [|j l]]; [done| |cbn [length] in H1; lia].
    eexists. split; [reflexivity|]. split; [done|]. split; [done|].
    split; [|cbn; lia].
    rewrite <- Hps. reflexivity.
  - assert (Hn : 2 <= Z.of_nat (length (present f))) by lia.
    destruct (populate_loop f (seq 0 ASCII_SIZE)
                (createMinHeap (Z.of_nat (length (present f)))))
      as (Hwf & Hcap & Hsz & Hlive).
    { apply createMinHeap_wf. lia. }
    { cbn [size capacity createMinHeap]. unfold present. lia. }
    fold (present f) in Hsz, Hlive. cbn [size createMinHeap] in Hsz.
    rewrite createMinHeap_live, app_nil_r in Hlive.
    change (populate_heap f ?h)
      with (fold_left (fun heap i =>
                         if 0 <? freq_at f i then insertMinHeap heap (leaf_of f i) else heap)
                      (seq 0 ASCII_SIZE) h).
    set (heap := fold_left _ _ _) in *. clearbody heap.
    destruct (merge_loop_spec (Z.to_nat (size heap)) heap)
      as (heap' & Hloop & Hwf' & Hsz' & Hgood' & Hp'); [done| |lia|lia|].
    { rewrite Hlive. apply Forall_fmap, Forall_forall. intros i _. apply good_leaf. }
    rewrite Hloop.
    destruct (extractMin_perm heap' Hwf' ltac:(lia)) as (_ & Hsz1 & _ & Hp1).
    destruct (extractMin heap') as [root heap1]. cbn [fst snd] in *.
    assert (Hlive1 : live heap1 = []).
    { unfold live. rewrite Hsz1, Hsz'. done. }
    rewrite Hlive1 in Hp1.
    rewrite Hp1 in Hgood'. apply Forall_singleton in Hgood' as [Hroot Hheight].
    assert (Hsym : symbols root ≡ₚ Z.of_nat <$> present f).
    { rewrite <- present_symbols, <- (leaves_symbols f), <- Hlive, <- Hp', Hp1.
      rewrite bind_cons. cbn. by rewrite app_nil_r. }
    assert (Hcount : length (paths root) = length (present f)).
    { rewrite <- (length_fmap fst). fold (symbols root).
      by rewrite Hsym, length_fmap. }
    exists root. split; [done|]. split; [done|]. split; [|split; [done|lia]].
    destruct root as [|c w l r]; [done|]. unfold is_leaf. cbn [left right].
    destruct (is_null l && is_null r) eqn:Hleaf; [|done].
    cbn [paths] in Hcount. rewrite Hleaf in Hcount. cbn [length] in Hcount. lia.
Qed.

(** ** The code table *)

Lemma assign_codes_cons pre c p ps codes :
  assign_codes pre ((c, p) :: ps) codes
  = assign_codes pre ps
      (<[Z.to_nat c := CodeEntry.mk (pre ++ code_string p)
                                    (Z.of_nat (length pre + length p))]> codes).
Proof. reflexivity. Qed.

Lemma assign_codes_app pre ps1 ps2 codes :
  assign_codes pre (ps1 ++ ps2) codes = assign_codes pre ps2 (assign_codes pre ps1 codes).
Proof. apply fold_left_app. Qed.

Lemma assign_codes_edge pre b ps codes :
  assign_codes (pre ++ [bit_char b]) ps codes
  = assign_codes pre (prod_map id (cons b) <$> ps) codes.
Proof.
  revert codes. induction ps as [|[c p] ps IH]; intros codes; [done|].
  rewrite fmap_cons. cbn [prod_map fst snd id].
  rewrite !assign_codes_cons, IH. do 3 f_equal.
  - by rewrite <- app_assoc.
  - rewrite length_app. cbn [length]. lia.
Qed.

Lemma assign_codes_length pre ps codes :
  length (assign_codes pre ps codes) = length codes.
Proof.
  revert codes. induction ps as [|[c p] ps IH]; intros codes; [done|].
  by rewrite assign_codes_cons, IH, length_insert.
Qed.

Lemma assign_codes_lookup_notin pre ps codes k :
  k ∉ (Z.to_nat <$> ps.*1) -> assign_codes pre ps codes !! k = codes !! k.
Proof.
  revert codes. induction ps as [|[c p] ps IH]; intros codes Hk; [done|].
  rewrite !fmap_cons in Hk. apply not_elem_of_cons in Hk as [Hne Hk].
  rewrite assign_codes_cons, IH by done.
  by apply list_lookup_insert_ne.
Qed.

Lemma assign_codes_lookup_in pre ps codes c p :
  NoDup (Z.to_nat <$> ps.*1) -> (c, p) ∈ ps -> (Z.to_nat c < length codes)%nat ->
  assign_codes pre ps codes !! Z.to_nat c
  = Some (CodeEntry.mk (pre ++ code_string p) (Z.of_nat (length pre + length p))).
Proof.
  revert codes. induction ps as [|[c' p'] ps IH]; intros codes Hnd Hin Hlen.
  { by apply elem_of_nil in Hin. }
  rewrite !fmap_cons in Hnd. apply NoDup_cons in Hnd as [Hcp Hnd].
  rewrite assign_codes_cons.
  apply elem_of_cons in Hin as [[= <- <-]|Hin].
  - rewrite assign_codes_lookup_notin by done.
    by apply list_lookup_insert_eq.
  - apply IH; [done|done|]. by rewrite length_insert.
Qed.

Lemma strcpy_take buf d :
  Forall (fun a => a <> NUL) (take d buf) -> buf !! d = Some NUL ->
  strcpy buf = take d buf.
Proof.
  revert buf. induction d as [|d IH]; intros [|a buf] Hpre Hd; try done.
  - cbn in Hd. injection Hd as ->. cbn. by rewrite decide_True.
  - cbn [take] in *. apply Forall_cons in Hpre as [Ha Hpre]. cbn [strcpy].
    rewrite decide_False by done. f_equal. by apply IH.
Qed.

Lemma bit_char_not_NUL b : bit_char b <> NUL.
Proof. by destruct b. Qed.

(** [generateCodes] stores, for every leaf below [root], the characters of
    the buffer before [depth] followed by the path to the leaf.  It writes
    the buffer only at [depth] and beyond, and within its 256 cells as long
    as no leaf is deeper than 255. *)
Lemma generateCodes_spec root codes buf d :
  length buf = Z.to_nat MAX_CODE_LENGTH ->
  (d + height root < 256)%nat ->
  Forall (fun a => a <> NUL) (take d buf) ->
  let '(codes', buf') := generateCodes root codes buf (Z.of_nat d) in
  length buf' = Z.to_nat MAX_CODE_LENGTH
  /\ take d buf' = take d buf
  /\ codes' = assign_codes (take d buf) (paths root) codes.
Proof.
  change (Z.to_nat MAX_CODE_LENGTH) with 256%nat.
  revert codes buf d. induction root as [|c f l IHl r IHr]; intros codes buf d Hlen Hh Hpre.
  { done. }
  cbn [generateCodes paths height] in *.
  rewrite !Nat2Z.id.
  destruct (is_null l && is_null r) eqn:Hleaf.
  { rewrite length_insert, take_insert_ge by lia. split; [done|]. split; [done|].
    rewrite assign_codes_cons. cbn [assign_codes fold_left code_string fmap list_fmap length].
    rewrite app_nil_r, Nat.add_0_r, length_take_le by lia. do 2 f_equal.
    rewrite <- (take_insert_ge buf d d NUL) by lia.
    apply strcpy_take.
    - by rewrite take_insert_ge by lia.
    - apply list_lookup_insert_eq. lia. }
  assert (Hstep : forall (b : bool) (buf0 : list ascii),
             length buf0 = 256%nat -> take d buf0 = take d buf ->
             take (S d) (<[d := bit_char b]> buf0) = take d buf ++ [bit_char b]).
  { intros b buf0 Hlen0 Htake0.
    rewrite (take_S_r _ _ (bit_char b)) by (apply list_lookup_insert_eq; lia).
    by rewrite take_insert_ge, Htake0 by lia. }
  assert (Hleft : exists codes1 buf1,
             (if negb (is_null l)
              then generateCodes l codes (<[d := "0"%char]> buf) (Z.of_nat d + 1)
              else (codes, buf)) = (codes1, buf1)
             /\ length buf1 = 256%nat /\ take d buf1 = take d buf
             /\ codes1 = assign_codes (take d buf ++ ["0"%char]) (paths l) codes).
  { destruct l as [|cl fl ll rl]; cbn [negb is_null].
    { by eexists _, _. }
    specialize (IHl codes (<[d := "0"%char]> buf) (S d)).
    replace (Z.of_nat d + 1) with (Z.of_nat (S d)) by lia.
    destruct (generateCodes _ codes _ (Z.of_nat (S d))) as [codes1 buf1].
    pose proof (Hstep false buf Hlen eq_refl) as Hs. cbn [bit_char] in Hs.
    rewrite Hs in IHl.
    destruct IHl as (Hlen1 & Htake1 & Hcodes1).
    - by rewrite length_insert.
    - lia.
    - apply Forall_app. split; [done|]. by apply Forall_singleton.
    - eexists _, _. split; [done|]. split; [done|]. split; [|done].
      apply (f_equal (take d)) in Htake1.
      rewrite take_take, Nat.min_l in Htake1 by lia. rewrite Htake1.
      rewrite take_app_le by (rewrite length_take_le; lia).
      by rewrite take_take, Nat.min_id. }
  destruct Hleft as (codes1 & buf1 & -> & Hlen1 & Htake1 & ->).
  rewrite assign_codes_app, <- !(assign_codes_edge _ _ _ _).
  destruct r as [|cr fr lr rr]; cbn [negb is_null].
  { split; [done|]. split; [done|]. done. }
  specialize (IHr (assign_codes (take d buf ++ ["0"%char]) (paths l) codes)
                  (<[d := "1"%char]> buf1) (S d)).
  replace (Z.of_nat d + 1) with (Z.of_nat (S d)) by lia.
  destruct (generateCodes _ _ _ (Z.of_nat (S d))) as [codes2 buf2].
  pose proof (Hstep true buf1 Hlen1 Htake1) as Hs. cbn [bit_char] in Hs.
  rewrite Hs in IHr.
  destruct IHr as (Hlen2 & Htake2 & Hcodes2).
  - by rewrite length_insert.
  - lia.
  - apply Forall_app. split; [done|]. by apply Forall_singleton.
  - split; [done|]. split; [|done].
    apply (f_equal (take d)) in Htake2.
    rewrite take_take, Nat.min_l in Htake2 by lia. rewrite Htake2.
    rewrite take_app_le by (rewrite length_take_le; lia).
    by rewrite take_take, Nat.min_id.
Qed.

Lemma buildCodeTable_spec t :
  is_null t = false -> is_leaf t = false -> (height t <= 255)%nat ->
  buildCodeTable t = assign_codes [] (paths t) (replicate ASCII_SIZE (CodeEntry.mk [] 0)).
Proof.
  intros Hnull Hleaf Hheight. destruct t as [|c f l r]; [done|].
  unfold buildCodeTable. unfold is_leaf in Hleaf. cbn [left right] in Hleaf. rewrite Hleaf.
  pose proof (generateCodes_spec (Node c f l r) (replicate ASCII_SIZE (CodeEntry.mk [] 0))
                (replicate (Z.to_nat MAX_CODE_LENGTH) NUL) 0) as H.
  specialize (H ltac:(by rewrite length_replicate) ltac:(lia) ltac:(by rewrite take_0)).
  change (Z.of_nat 0) with 0 in H. destruct (generateCodes _ _ _ 0) as [codes' buf'].
  destruct H as (_ & _ & ->). by rewrite take_0.
Qed.

Lemma paths_prefix_free t c p c' p' :
  (c, p) ∈ paths t -> (c', p') ∈ paths t -> p `prefix_of` p' -> c = c' /\ p = p'.
Proof.
  revert p p'. induction t as [|ct ft l IHl r IHr]; intros p p' Hp Hp' Hpre; cbn [paths] in *.
  { by apply elem_of_nil in Hp. }
  destruct (is_null l && is_null r).
  { apply list_elem_of_singleton in Hp, Hp'. by simplify_eq. }
  apply elem_of_app in Hp, Hp'.
  destruct Hp as [Hp|Hp]; apply list_elem_of_fmap in Hp as ([c0 p0] & [= -> ->] & Hp);
    destruct Hp' as [Hp'|Hp']; apply list_elem_of_fmap in Hp' as ([c1 p1] & [= -> ->] & Hp');
    cbn [prod_map fst snd id] in *.
  - apply prefix_cons_inv_2 in Hpre. destruct (IHl _ _ Hp Hp' Hpre) as [-> ->]. done.
  - by apply prefix_cons_inv_1 in Hpre.
  - by apply prefix_cons_inv_1 in Hpre.
  - apply prefix_cons_inv_2 in Hpre. destruct (IHr _ _ Hp Hp' Hpre) as [-> ->]. done.
Qed.

Lemma code_string_prefix p p' :
  code_string p `prefix_of` code_string p' -> p `prefix_of` p'.
Proof.
  revert p'. induction p as [|b p IH]; intros p' H; [apply prefix_nil|].
  destruct p' as [|b' p']; [by apply prefix_nil_not in H|].
  cbn in H. pose proof (prefix_cons_inv_1 _ _ _ _ H) as Hb.
  apply prefix_cons_inv_2, IH in H.
  assert (b = b') as -> by (by destruct b, b').
  by apply prefix_cons.
Qed.

(** A tree with the properties [buildHuffmanTree_spec] states, and its code
    table. *)
Section built.
Variables (f : list Z) (t : HuffmanNode).
Hypothesis Hnull : is_null t = false.
Hypothesis Hleaf : is_leaf t = false.
Hypothesis Hsym : symbols t ≡ₚ Z.of_nat <$> present f.
Hypothesis Hheight : (height t <= 255)%nat.

Lemma built_symbols : Z.to_nat <$> symbols t ≡ₚ present f.
Proof.
  rewrite Hsym, <- list_fmap_compose.
  rewrite (list_fmap_ext _ id) by (intros; apply Nat2Z.id).
  by rewrite list_fmap_id.
Qed.

Lemma built_symbols_NoDup : NoDup (Z.to_nat <$> symbols t).
Proof. rewrite built_symbols. apply present_NoDup. Qed.

Lemma built_path_nonempty c p : (c, p) ∈ paths t -> p <> [].
Proof.
  clear Hsym Hheight. intros Hin.
  destruct t as [|ct w l r]; [done|]. unfold is_leaf in Hleaf. cbn [left right paths] in *.
  rewrite Hleaf in Hin.
  apply elem_of_app in Hin as [Hin|Hin];
    apply list_elem_of_fmap in Hin as ([c0 p0] & Heq & _);
    cbn [prod_map fst snd id] in Heq; by injection Heq as -> ->.
Qed.

Lemma built_path s :
  s ∈ present f -> exists p, (Z.of_nat s, p) ∈ paths t /\ p <> [].
Proof.
  intros Hs.
  assert (Hin : Z.of_nat s ∈ symbols t) by (rewrite Hsym; by apply list_elem_of_fmap_2).
  apply list_elem_of_fmap in Hin as ([c p] & Hc & Hin). cbn in Hc. subst c.
  exists p. split; [done|]. by eapply built_path_nonempty.
Qed.

Lemma built_code s p :
  (Z.of_nat s, p) ∈ paths t -> (s < 256)%nat ->
  buildCodeTable t !!! s = CodeEntry.mk (code_string p) (Z.of_nat (length p)).
Proof.
  intros Hin Hs.
  rewrite buildCodeTable_spec by done.
  apply list_lookup_total_correct.
  rewrite <- (Nat2Z.id s) at 1.
  rewrite (assign_codes_lookup_in _ _ _ _ p); [done|apply built_symbols_NoDup|done|].
  rewrite length_replicate. unfold ASCII_SIZE. lia.
Qed.

Lemma built_code_absent s :
  s ∉ present f -> (s < 256)%nat ->
  buildCodeTable t !!! s = CodeEntry.mk [] 0.
Proof.
  intros Hs Hlt.
  rewrite buildCodeTable_spec by done.
  apply list_lookup_total_correct.
  rewrite assign_codes_lookup_notin.
  - apply lookup_replicate_2. unfold ASCII_SIZE. lia.
  - fold (symbols t). by rewrite built_symbols.
Qed.

End built.

(** C5: in the table that [buildCodeTable] fills from the tree of
    [buildHuffmanTree], the code of a symbol with a nonzero count is never a
    prefix of the code of another symbol with a nonzero count. *)
Theorem code_table_prefix_free f s s' :
  valid_frequencies f ->
  (s < 256)%nat -> (s' < 256)%nat ->
  freq_at f s <> 0 -> freq_at f s' <> 0 -> s <> s' ->
  let codes := buildCodeTable (buildHuffmanTree f).1 in
  ~ CodeEntry.code (codes !!! s) `prefix_of` CodeEntry.code (codes !!! s').
Proof.
  intros Hf Hs Hs' Hfs Hfs' Hne codes Hprefix.
  assert (Hp : s ∈ present f) by (by apply present_nonzero).
  assert (Hp' : s' ∈ present f) by (by apply present_nonzero).
  assert (Hpresent : present f <> []) by (intros E; rewrite E in Hp; by apply elem_of_nil in Hp).
  destruct (buildHuffmanTree_spec f Hpresent) as (t & Hb & Hnull & Hleaf & Hsym & Hheight).
  subst codes. rewrite Hb in Hprefix. cbn [fst] in Hprefix.
  destruct (built_path f t Hnull Hleaf Hsym s Hp) as (p & Hpath & _).
  destruct (built_path f t Hnull Hleaf Hsym s' Hp') as (p' & Hpath' & _).
  rewrite (built_code f t Hnull Hleaf Hsym Hheight s p),
    (built_code f t Hnull Hleaf Hsym Hheight s' p') in Hprefix by done.
  cbn [CodeEntry.code] in Hprefix. apply code_string_prefix in Hprefix.
  destruct (paths_prefix_free _ _ _ _ _ Hpath Hpath' Hprefix) as [Heq _]. lia.
Qed.

Lemma code_table_prefix_free_witness :
  let f := <[67%nat := 4]> (<[66%nat := 3]> (<[65%nat := 2]> (replicate 256 0))) in
  let codes := buildCodeTable (buildHuffmanTree f).1 in
  valid_frequencies f
  /\ CodeEntry.code (codes !!! 67%nat) = ["0"%char]
  /\ CodeEntry.code (codes !!! 65%nat) = ["1"%char; "0"%char]
  /\ CodeEntry.code (codes !!! 66%nat) = ["1"%char; "1"%char]
  /\ ~ CodeEntry.code (codes !!! 65%nat) `prefix_of` CodeEntry.code (codes !!! 66%nat).
Proof.
  intros f codes.
  assert (Hf : valid_frequencies f).
  { split; [reflexivity|]. apply (bool_decide_unpack _). vm_compute. exact I. }
  split; [exact Hf|]. do 3 (split; [reflexivity|]).
  apply (code_table_prefix_free f 65 66 Hf); vm_compute; (lia || discriminate).
Defined.

(** ** Bits in bytes *)

Lemma bits_of_bytes_length l : length (bits_of_bytes l) = (8 * length l)%nat.
Proof.
  unfold bits_of_bytes. induction l as [|b l IH]; [done|].
  rewrite bind_cons, length_app, IH. cbn [length]. unfold bits_of_byte. cbn [low_bits length]. lia.
Qed.

Lemma bits_of_bytes_app l k : bits_of_bytes (l ++ k) = bits_of_bytes l ++ bits_of_bytes k.
Proof. apply bind_app. Qed.

Lemma bits_of_bytes_singleton b : bits_of_bytes [b] = bits_of_byte b.
Proof. unfold bits_of_bytes. rewrite bind_cons. apply app_nil_r. Qed.

(** Splits a list of fewer than [n] elements into its elements. *)
Ltac explode_list l n :=
  match n with
  | O => idtac
  | S ?n' => destruct l as [|? l]; [|explode_list l n']
  end.

Lemma writeBit_value acc b :
  (length acc < 8)%nat ->
  to_uchar (Z.lor (Z.shiftl (bits_value acc) 1) (Z.land (Z.b2z b) 1)) = bits_value (acc ++ [b]).
Proof.
  intros Hlen. explode_list acc 8%nat; [..|cbn [length] in Hlen; lia];
    repeat match goal with x : bool |- _ => destruct x end; reflexivity.
Qed.

Lemma full_byte_bits acc :
  length acc = 8%nat -> bits_of_byte (bits_value acc) = acc.
Proof.
  intros Hlen. explode_list acc 8%nat; try discriminate.
  destruct acc; [|discriminate].
  repeat match goal with x : bool |- _ => destruct x end; reflexivity.
Qed.

Lemma flushed_byte_bits acc :
  (length acc < 8)%nat ->
  bits_of_byte (to_uchar (Z.shiftl (bits_value acc) (8 - Z.of_nat (length acc))))
  = acc ++ replicate (8 - length acc) false.
Proof.
  intros Hlen. explode_list acc 8%nat; [..|cbn [length] in Hlen; lia];
    repeat match goal with x : bool |- _ => destruct x end; reflexivity.
Qed.

Lemma land_shiftr_bit cb k :
  0 <= k -> Z.land (Z.shiftr cb k) 1 = Z.b2z (Z.testbit cb k).
Proof.
  intros Hk. change 1 with (Z.ones 1) at 1.
  rewrite Z.land_ones by lia. change (2 ^ 1) with 2.
  rewrite <- Z.bit0_mod, Z.shiftr_spec by lia. done.
Qed.

(** ** The bit writer *)

Lemma written_start file0 : written file0 [] (file0, {| buffer := 0; bitCount := 0 |}).
Proof. exists [], []. cbn. rewrite app_nil_r. repeat split; lia. Qed.

Lemma writeBit_written file0 bits st b :
  written file0 bits st ->
  written file0 (bits ++ [b]) (writeBit st.1 st.2 (Z.b2z b)).
Proof.
  intros (out & acc & Hfile & Hlen & Hbuf & Hcount & ->).
  unfold writeBit. rewrite Hbuf, Hcount, writeBit_value by done.
  destruct (Z.eqb_spec (Z.of_nat (length acc) + 1) 8) as [H8|H8].
  - exists (out ++ [bits_value (acc ++ [b])]), []. cbn [fst snd buffer bitCount length].
    rewrite Hfile, bits_of_bytes_app, bits_of_bytes_singleton.
    rewrite !app_nil_r, full_byte_bits, !app_assoc.
    + repeat split; lia || done.
    + rewrite length_app. cbn [length]. lia.
  - exists out, (acc ++ [b]). cbn [fst snd buffer bitCount].
    rewrite length_app, app_assoc. cbn [length].
    repeat split; lia || done.
Qed.

Lemma code_string_lookup p1 b p2 :
  code_string (p1 ++ b :: p2) !!! length p1 = bit_char b.
Proof.
  unfold code_string. rewrite fmap_app, fmap_cons.
  apply list_lookup_total_correct.
  rewrite lookup_app_r by (by rewrite length_fmap).
  by rewrite length_fmap, Nat.sub_diag.
Qed.

Lemma write_code_loop file0 bits code p1 p2 st :
  code = code_string (p1 ++ p2) ->
  written file0 (bits ++ p1) st ->
  written file0 (bits ++ p1 ++ p2)
    (fold_left (fun st i =>
                  let bit := if decide (code !!! i = "1"%char) then 1 else 0 in
                  writeBit st.1 st.2 bit)
               (seq (length p1) (length p2)) st).
Proof.
  intros ->. revert p1 st. induction p2 as [|b p2 IH]; intros p1 st Hst.
  { by rewrite app_nil_r. }
  cbn [length seq fold_left].
  rewrite code_string_lookup.
  replace (if decide (bit_char b = "1"%char) then 1 else 0) with (Z.b2z b) by (by destruct b).
  apply (writeBit_written _ _ _ b) in Hst.
  rewrite <- app_assoc in Hst.
  specialize (IH (p1 ++ [b])).
  rewrite length_app, <- !app_assoc in IH. cbn [length app] in IH.
  rewrite Nat.add_1_r in IH. by apply IH.
Qed.

Lemma write_code_written file0 bits p st :
  written file0 bits st ->
  written file0 (bits ++ p)
          (write_code (CodeEntry.mk (code_string p) (Z.of_nat (length p))) st).
Proof.
  intros Hst. unfold write_code. cbn [CodeEntry.code CodeEntry.length].
  rewrite Nat2Z.id.
  apply (write_code_loop file0 bits _ [] p); [done|by rewrite app_nil_r].
Qed.

Lemma encode_loop_written codes file0 bits input ps st err :
  Forall2 (has_code codes) input ps ->
  written file0 bits st ->
  exists st',
    fold_left (encode_step codes) input (st.1, st.2, err) = (st'.1, st'.2, err)
    /\ written file0 (bits ++ concat ps) st'.
Proof.
  intros Hcodes. revert bits st.
  induction Hcodes as [|c p input ps [Hc Hp] _ IH]; intros bits st Hst.
  { exists st. cbn. by rewrite app_nil_r. }
  cbn [fold_left encode_step concat].
  rewrite Hc. cbn [CodeEntry.length].
  rewrite (proj2 (Z.eqb_neq _ _)) by (destruct p; [done|cbn [length]; lia]).
  pose proof (write_code_written file0 bits p st Hst) as Hst1.
  destruct st as [out bb]. cbn [fst snd].
  destruct (write_code _ (out, bb)) as [out1 bb1] eqn:Hw.
  destruct (IH (bits ++ p) (out1, bb1) Hst1) as (st' & Hfold & Hst').
  exists st'. split; [done|]. by rewrite app_assoc.
Qed.

Lemma flushBits_written file0 bits st :
  written file0 bits st ->
  exists payload k,
    flushBits st.1 st.2 = file0 ++ payload /\ (k < 8)%nat
    /\ bits_of_bytes payload = bits ++ replicate k false.
Proof.
  intros (out & acc & Hfile & Hlen & Hbuf & Hcount & ->).
  unfold flushBits. rewrite Hfile, Hbuf, Hcount.
  destruct (Z.ltb_spec 0 (Z.of_nat (length acc))) as [Hpos|Hzero].
  - eexists (out ++ [_]), (8 - length acc)%nat. rewrite app_assoc.
    split; [done|]. split; [lia|].
    rewrite bits_of_bytes_app, bits_of_bytes_singleton, flushed_byte_bits by done.
    by rewrite app_assoc.
  - exists out, 0%nat. destruct acc; [|cbn [length] in Hzero; lia].
    split; [done|]. split; [lia|]. cbn. by rewrite !app_nil_r.
Qed.

(** When every byte of the input has a code, [encodeAndWrite] prints nothing
    and appends to the file the bits of the codes, in the order of the
    input, followed by fewer than eight zero bits. *)
Lemma encodeAndWrite_spec codes input ps file0 :
  Forall2 (has_code codes) input ps ->
  exists payload k,
    encodeAndWrite input file0 codes = (file0 ++ payload, [])
    /\ (k < 8)%nat
    /\ bits_of_bytes payload = concat ps ++ replicate k false.
Proof.
  intros Hcodes. unfold encodeAndWrite.
  destruct (encode_loop_written codes file0 [] input ps
              (file0, {| buffer := 0; bitCount := 0 |}) [] Hcodes (written_start file0))
    as ([out bb] & Hfold & Hst).
  cbn [fst snd] in Hfold. rewrite Hfold.
  destruct (flushBits_written _ _ _ Hst) as (payload & k & Hflush & Hk & Hbits).
  exists payload, k. cbn [fst snd] in Hflush. by rewrite Hflush.
Qed.

(** ** The bit reader and the decoder *)

Lemma readBit_empty cb : readBit [] cb 0 = (-1, [], cb, 0).
Proof. reflexivity. Qed.

Lemma low_bits_S cb n : low_bits cb (S n) = Z.testbit cb (Z.of_nat n) :: low_bits cb n.
Proof. reflexivity. Qed.

Lemma readBit_refill ch inp cb :
  readBit (ch :: inp) cb 0
  = (Z.land (Z.shiftr (to_uchar ch) 7) 1, inp, to_uchar ch, 7).
Proof. reflexivity. Qed.

Lemma readBit_next inp cb bp :
  0 < bp ->
  readBit inp cb bp = (Z.land (Z.shiftr cb (bp - 1)) 1, inp, cb, bp - 1).
Proof. intros. unfold readBit. by rewrite (proj2 (Z.eqb_neq _ _)) by lia. Qed.

Lemma readBit_pending inp cb bp b rest :
  pending_bits cb bp inp = b :: rest ->
  exists inp' cb' bp',
    readBit inp cb (Z.of_nat bp) = (Z.b2z b, inp', cb', Z.of_nat bp')
    /\ pending_bits cb' bp' inp' = rest.
Proof.
  unfold pending_bits. destruct bp as [|n].
  - destruct inp as [|ch inp]; [done|].
    unfold bits_of_bytes. rewrite bind_cons. unfold bits_of_byte at 1.
    rewrite low_bits_S, <- !app_comm_cons. cbn [low_bits app]. intros [= <- <-].
    exists inp, (to_uchar ch), 7%nat. split; [|done].
    change (Z.of_nat 0) with 0. rewrite readBit_refill.
    by rewrite land_shiftr_bit.
  - rewrite low_bits_S, <- app_comm_cons. intros [= <- <-].
    exists inp, cb, n. split; [|done].
    rewrite readBit_next by lia.
    replace (Z.of_nat (S n) - 1) with (Z.of_nat n) by lia.
    by rewrite land_shiftr_bit by lia.
Qed.

Lemma b2z_not_eof b : (Z.b2z b =? -1) = false.
Proof. by destruct b. Qed.

Lemma paths_not_null t cp : cp ∈ paths t -> is_null t = false.
Proof. destruct t; [intros H; by apply elem_of_nil in H|done]. Qed.

(** From an inner node [cur], the bits of the path of a leaf below it lead
    the loop to that leaf: its symbol is written, the counter advances and
    the walk is back at the root. *)
Lemma decode_walk root osz cur c p :
  is_null root = false ->
  (c, p) ∈ paths cur -> is_leaf cur = false ->
  forall fuel cb bp d inp out more,
    pending_bits cb bp inp = p ++ more ->
    to_uint d < osz ->
    exists cb' bp' inp',
      pending_bits cb' bp' inp' = more
      /\ decode_loop (length p + fuel) root osz cur cb (Z.of_nat bp) d inp out
         = decode_loop fuel root osz root cb' (Z.of_nat bp') (to_int (d + 1)) inp'
                       (out ++ [to_uchar c]).
Proof.
  intros Hroot. revert p.
  induction cur as [|cc fc l IHl r IHr]; intros p Hin Hleaf fuel cb bp d inp out more Hbits Hd.
  { by apply elem_of_nil in Hin. }
  unfold is_leaf in Hleaf. cbn [left right paths] in *. rewrite Hleaf in Hin.
  assert (Hstep : exists b p' next,
             p = b :: p' /\ (c, p') ∈ paths next /\ next = (if Z.b2z b =? 0 then l else r)
             /\ (is_leaf next = false ->
                 forall fuel cb bp d inp out more,
                   pending_bits cb bp inp = p' ++ more -> to_uint d < osz ->
                   exists cb' bp' inp',
                     pending_bits cb' bp' inp' = more
                     /\ decode_loop (length p' + fuel) root osz next cb (Z.of_nat bp) d inp out
                        = decode_loop fuel root osz root cb' (Z.of_nat bp') (to_int (d + 1))
                                      inp' (out ++ [to_uchar c]))).
  { apply elem_of_app in Hin as [Hin|Hin];
      apply list_elem_of_fmap in Hin as ([c0 p0] & Heq & Hin);
      cbn [prod_map fst snd id] in Heq; injection Heq as -> ->.
    - exists false, p0, l. split; [done|]. split; [done|]. split; [done|].
      intros Hl. by apply IHl.
    - exists true, p0, r. split; [done|]. split; [done|]. split; [done|].
      intros Hr. by apply IHr. }
  destruct Hstep as (b & p' & next & -> & Hin' & Hnext & IH).
  cbn [length Nat.add decode_loop].
  rewrite (proj2 (Z.ltb_lt _ _)) by done.
  rewrite <- app_comm_cons in Hbits.
  destruct (readBit_pending _ _ _ _ _ Hbits) as (inp1 & cb1 & bp1 & -> & Hbits1).
  rewrite b2z_not_eof, <- Hnext.
  pose proof (paths_not_null _ _ Hin') as Hnn.
  destruct next as [|cn fn ln rn]; [done|]. clear Hnn.
  destruct (is_null ln && is_null rn) eqn:Hnleaf.
  - cbn [paths] in Hin'. rewrite Hnleaf in Hin'.
    apply list_elem_of_singleton in Hin'. injection Hin' as -> ->.
    rewrite Hroot. cbn [length Nat.add]. by exists cb1, bp1, inp1.
  - cbn [is_null]. by apply IH.
Qed.

(** The loop decodes the codes of a whole input and stops when the counter
    reaches [originalSize]; the bits that follow are not read. *)
Lemma decode_all root x ps :
  is_null root = false -> is_leaf root = false ->
  Forall2 (fun c p => (c, p) ∈ paths root) x ps ->
  forall fuel cb bp d inp out more osz,
    pending_bits cb bp inp = concat ps ++ more ->
    0 <= d -> d + Z.of_nat (length x) = osz -> osz < 2 ^ 31 ->
    decode_loop (length (concat ps) + S fuel) root osz root cb (Z.of_nat bp) d inp out
    = (SizeReached, out ++ (to_uchar <$> x)).
Proof.
  intros Hroot Hleaf Hx.
  induction Hx as [|c p x ps Hc Hx IH]; intros fuel cb bp d inp out more osz Hbits Hd Hosz Hlt.
  { cbn [concat length Nat.add decode_loop]. cbn [length] in Hosz.
    rewrite to_uint_small by (ints; lia).
    rewrite (proj2 (Z.ltb_ge _ _)) by lia. by rewrite app_nil_r. }
  cbn [concat length] in *. rewrite length_app, <- Nat.add_assoc.
  rewrite <- app_assoc in Hbits.
  destruct (decode_walk root osz root c p Hroot Hc Hleaf
              (length (concat ps) + S fuel)%nat cb bp d inp out _ Hbits)
    as (cb' & bp' & inp' & Hbits' & ->).
  { rewrite to_uint_small by (ints; lia). lia. }
  rewrite to_int_small by (ints; lia).
  rewrite (IH fuel cb' bp' (d + 1) inp' _ more osz Hbits') by lia.
  by rewrite <- app_assoc.
Qed.

Lemma decodeAndWrite_spec root x ps payload k pad :
  is_null root = false -> is_leaf root = false ->
  Forall2 (fun c p => (c, p) ∈ paths root) x ps ->
  bits_of_bytes payload = concat ps ++ replicate k false ->
  Z.of_nat (length x) < 2 ^ 31 ->
  decodeAndWrite payload [] root (Z.of_nat (length x)) pad = (SizeReached, to_uchar <$> x).
Proof.
  intros Hroot Hleaf Hx Hbits Hlen. unfold decodeAndWrite. rewrite Hroot.
  assert (Hfuel : S (8 * length payload) = (length (concat ps) + S k)%nat).
  { rewrite <- bits_of_bytes_length, Hbits, length_app, length_replicate. lia. }
  rewrite Hfuel.
  apply (decode_all root x ps Hroot Hleaf Hx k 0 0%nat 0 payload [] (replicate k false));
    [done|lia|lia|done].
Qed.

(** ** Counting the input *)

Lemma occurrences_nil k : occurrences [] k = 0.
Proof. reflexivity. Qed.

Lemma occurrences_cons b x k :
  occurrences (b :: x) k = (if decide (b = Z.of_nat k) then 1 else 0) + occurrences x k.
Proof.
  unfold occurrences. rewrite filter_cons. case_decide; cbn [length]; lia.
Qed.

Lemma occurrences_range x k : 0 <= occurrences x k <= Z.of_nat (length x).
Proof. unfold occurrences. pose proof (length_filter (fun b => b = Z.of_nat k) x). lia. Qed.

Lemma occurrences_pos x k : Z.of_nat k ∈ x -> 0 < occurrences x k.
Proof.
  intros Hin. unfold occurrences.
  assert (Hf : Z.of_nat k ∈ filter (fun b => b = Z.of_nat k) x) by (by apply list_elem_of_filter).
  destruct (filter _ x); [by apply elem_of_nil in Hf|cbn [length]; lia].
Qed.

Lemma count_loop_spec x f n :
  Forall is_byte x ->
  length f = ASCII_SIZE ->
  0 <= n -> n + Z.of_nat (length x) < 2 ^ 31 ->
  (forall k, (k < 256)%nat -> 0 <= freq_at f k /\ freq_at f k + Z.of_nat (length x) < 2 ^ 32) ->
  exists f',
    fold_left count_step x (f, n) = (f', n + Z.of_nat (length x))
    /\ length f' = ASCII_SIZE
    /\ forall k, (k < 256)%nat -> freq_at f' k = freq_at f k + occurrences x k.
Proof.
  intros Hx. revert f n. induction Hx as [|b x Hb Hx IH]; intros f n Hlen Hn Hsize Hf.
  { exists f. cbn [fold_left length]. rewrite Z.add_0_r. split; [done|]. split; [done|].
    intros k _. rewrite occurrences_nil. lia. }
  cbn [fold_left count_step length] in *.
  rewrite to_uchar_small by done.
  rewrite to_int_small by (ints; lia).
  assert (Hbk : (Z.to_nat b < 256)%nat) by (unfold is_byte in Hb; lia).
  rewrite to_uint_small by (specialize (Hf _ Hbk); ints; lia).
  destruct (IH (<[Z.to_nat b := freq_at f (Z.to_nat b) + 1]> f) (n + 1))
    as (f' & Hfold & Hlen' & Hf').
  - by rewrite length_insert.
  - lia.
  - lia.
  - intros k Hk. unfold freq_at. destruct (decide (k = Z.to_nat b)) as [->|Hne].
    + rewrite list_lookup_total_insert_eq by (unfold ASCII_SIZE in Hlen; lia).
      specialize (Hf _ Hbk). unfold freq_at in Hf. lia.
    + rewrite list_lookup_total_insert_ne by done.
      specialize (Hf _ Hk). unfold freq_at in Hf. lia.
  - exists f'. split; [rewrite Hfold; f_equal; lia|]. split; [done|].
    intros k Hk. rewrite (Hf' k Hk), occurrences_cons. unfold freq_at.
    destruct (decide (k = Z.to_nat b)) as [->|Hne].
    + rewrite list_lookup_total_insert_eq by (unfold ASCII_SIZE in Hlen; lia).
      rewrite decide_True by (unfold is_byte in Hb; lia). lia.
    + rewrite list_lookup_total_insert_ne by done.
      rewrite decide_False by (unfold is_byte in Hb; lia). lia.
Qed.

(** For an input of fewer than 2^31 bytes the counting pass returns the
    length of the input and the number of occurrences of every byte. *)
Lemma calculateFrequencies_spec x :
  Forall is_byte x -> x <> [] -> Z.of_nat (length x) < 2 ^ 31 ->
  exists f,
    calculateFrequencies x = (Z.of_nat (length x), f, [])
    /\ valid_frequencies f
    /\ forall k, (k < 256)%nat -> freq_at f k = occurrences x k.
Proof.
  intros Hx Hne Hlen.
  destruct (count_loop_spec x (replicate ASCII_SIZE 0) 0 Hx) as (f & Hfold & Hlenf & Hf).
  - apply length_replicate.
  - done.
  - lia.
  - intros k Hk. unfold freq_at.
    rewrite (list_lookup_total_correct _ _ 0) by (by apply lookup_replicate_2).
    ints. lia.
  - exists f. unfold calculateFrequencies. rewrite Hfold, Z.add_0_l.
    rewrite (proj2 (Z.eqb_neq _ _)) by (destruct x; [done|cbn [length]; lia]).
    split; [done|].
    assert (Hocc : forall k, (k < 256)%nat -> freq_at f k = occurrences x k).
    { intros k Hk. rewrite (Hf k Hk). unfold freq_at.
      rewrite (list_lookup_total_correct _ _ 0) by (by apply lookup_replicate_2). lia. }
    split; [|done]. split; [done|].
    apply Forall_lookup. intros k v Hkv.
    assert (Hk : (k < 256)%nat).
    { apply lookup_lt_Some in Hkv. unfold ASCII_SIZE in Hlenf. lia. }
    specialize (Hocc k Hk). unfold freq_at in Hocc.
    rewrite (list_lookup_total_correct _ _ _ Hkv) in Hocc. subst v.
    pose proof (occurrences_range x k). ints. lia.
Qed.

(** Whatever the length of the input, the counter ends as that length
    converted to [int]. *)
Lemma count_loop_size x f n :
  - 2 ^ 31 <= n < 2 ^ 31 ->
  (fold_left count_step x (f, n)).2 = to_int (n + Z.of_nat (length x)).
Proof.
  revert f n. induction x as [|b x IH]; intros f n Hn; cbn [fold_left count_step length].
  { cbn [snd]. rewrite Z.add_0_r. by rewrite to_int_small. }
  rewrite IH by (clear; dlia).
  clear. dlia.
Qed.

(** ** The archive written by [compressFile] *)

Lemma Forall_exists_Forall2 {A B} (R : A -> B -> Prop) l :
  Forall (fun a => exists b, R a b) l -> exists k, Forall2 R l k.
Proof.
  induction 1 as [|a l [b Hab] _ [k IH]]; [by exists []|].
  exists (b :: k). by constructor.
Qed.

Lemma byte_present x f c :
  (forall k, (k < 256)%nat -> freq_at f k = occurrences x k) ->
  is_byte c -> c ∈ x -> Z.to_nat c ∈ present f.
Proof.
  intros Hf Hc Hin. unfold is_byte in Hc. apply elem_of_present.
  split; [unfold ASCII_SIZE; lia|].
  rewrite Hf by lia. apply occurrences_pos. by rewrite Z2Nat.id by lia.
Qed.

Lemma compressFile_spec x :
  Forall is_byte x -> x <> [] -> Z.of_nat (length x) < 2 ^ 31 ->
  exists f t ps payload,
    compressed x f t ps payload
    /\ compressFile x
       = Exit 0 [] (Some (writeFileHeader [] (archive_header x f payload)
                          ++ writeFrequencies [] f ++ payload)).
Proof.
  intros Hx Hne Hlen.
  destruct (calculateFrequencies_spec x Hx Hne Hlen) as (f & Hcalc & Hvalid & Hocc).
  assert (Hpresent : present f <> []).
  { destruct x as [|b x]; [done|]. apply Forall_cons in Hx as [Hb _].
    intros E. pose proof (byte_present (b :: x) f b Hocc Hb ltac:(left)) as Hin.
    rewrite E in Hin. by apply elem_of_nil in Hin. }
  destruct (buildHuffmanTree_spec f Hpresent) as (t & Htree & Hnull & Hleaf & Hsym & Hheight).
  assert (Hps : exists ps, Forall2 (fun c p => (c, p) ∈ paths t
                                            /\ has_code (buildCodeTable t) c p) x ps).
  { apply Forall_exists_Forall2, Forall_forall. intros c Hc.
    pose proof (proj1 (Forall_forall _ _) Hx c Hc) as Hbyte.
    pose proof (byte_present x f c Hocc Hbyte Hc) as Hin.
    destruct (built_path f t Hnull Hleaf Hsym _ Hin) as (p & Hp & Hpne).
    unfold is_byte in Hbyte. rewrite Z2Nat.id in Hp by lia.
    exists p. split; [done|]. split; [|done].
    rewrite to_uchar_small by done.
    apply (built_code f t Hnull Hleaf Hsym Hheight); [|lia].
    by rewrite Z2Nat.id by lia. }
  destruct Hps as (ps & Hps).
  assert (Hpaths : Forall2 (fun c p => (c, p) ∈ paths t) x ps).
  { eapply Forall2_impl; [exact Hps|]. by intros ?? [??]. }
  assert (Hcodes : Forall2 (has_code (buildCodeTable t)) x ps).
  { eapply Forall2_impl; [exact Hps|]. by intros ?? [??]. }
  set (h0 := {| magic := MAGIC_NUMBER; original_size := Z.of_nat (length x);
                compressed_size := 0;
                frequency_count := Z.of_nat (length (present f));
                padding_bits := 0 |}).
  destruct (encodeAndWrite_spec (buildCodeTable t) x ps
              (writeFileHeader [] h0 ++ writeFrequencies [] f) Hcodes)
    as (payload & k & Henc & Hk & Hbits).
  exists f, t, ps, payload. split.
  { split; try done. by exists k. }
  unfold compressFile. rewrite Hcalc. cbv beta iota.
  rewrite (proj2 (Z.ltb_ge _ _)) by lia.
  rewrite Htree. cbv beta iota. rewrite Hnull.
  rewrite count_loop_uint by (rewrite ?length_seq; unfold ASCII_SIZE; ints; lia).
  fold (present f). rewrite Z.add_0_l.
  rewrite to_uint_small by (ints; lia). fold h0.
  cbv zeta.
  rewrite (writeFrequencies_app (writeFileHeader [] h0)).
  rewrite Henc. cbv beta iota.
  unfold rewrite_from_start. rewrite writeFileHeader_length.
  rewrite <- !app_assoc.
  rewrite (drop_app_length' (writeFileHeader [] h0)) by apply (writeFileHeader_length h0).
  match goal with
  | |- context [to_uint (?a - ?b)] =>
    replace (a - b) with (Z.of_nat (length payload)) by (rewrite !length_app; lia)
  end.
  reflexivity.
Qed.

(** ** Round trip *)

Lemma decompressFile_archive x f t ps payload :
  Forall is_byte x -> Z.of_nat (length x) < 2 ^ 31 ->
  compressed x f t ps payload ->
  decompressFile (writeFileHeader [] (archive_header x f payload)
                  ++ writeFrequencies [] f ++ payload)
  = Exit 0 [] (Some x).
Proof.
  intros Hx Hlen [Hvalid _ Htree Hnull Hleaf _ _ Hpaths _ (k & Hk & Hbits)].
  pose proof (present_length f) as Hp.
  unfold decompressFile. rewrite readFileHeader_writeFileHeader.
  cbn [archive_header magic original_size compressed_size frequency_count padding_bits].
  change (negb (to_uint MAGIC_NUMBER =? MAGIC_NUMBER)) with false. cbv iota.
  cbn [frequency_count original_size padding_bits].
  rewrite (to_uint_small (Z.of_nat (length (present f)))) by (ints; lia).
  rewrite to_int_small by (ints; lia).
  rewrite <- count_unique_present, readFrequencies_writeFrequencies by done.
  rewrite Htree, Hnull.
  rewrite (to_uint_small (Z.of_nat (length x))) by (ints; lia).
  rewrite (decodeAndWrite_spec t x ps payload k) by done.
  do 2 f_equal.
  rewrite <- (list_fmap_id x) at 2. apply Forall_fmap_ext_1.
  eapply Forall_impl; [exact Hx|]. intros c Hc. by apply to_uchar_small.
Qed.

(** C1, within the sizes that the [int] byte counter of
    [calculateFrequencies] can hold: for every non-empty sequence [x] of
    fewer than 2^31 bytes, [compressFile] returns 0 and writes an archive
    from which [decompressFile] returns 0 and writes exactly [x]; neither
    prints a message. *)
Theorem compress_decompress_roundtrip x :
  Forall is_byte x -> x <> [] -> Z.of_nat (length x) < 2 ^ 31 ->
  exists archive,
    compressFile x = Exit 0 [] (Some archive)
    /\ decompressFile archive = Exit 0 [] (Some x).
Proof.
  intros Hx Hne Hlen.
  destruct (compressFile_spec x Hx Hne Hlen) as (f & t & ps & payload & Hc & Hcompress).
  eexists. split; [exact Hcompress|].
  by eapply decompressFile_archive.
Qed.

Lemma compress_decompress_roundtrip_witness :
  let x := bytes_of_string "AABBBCCCC" in
  Forall is_byte x /\ x <> [] /\ Z.of_nat (length x) < 2 ^ 31
  /\ exists archive,
       compressFile x = Exit 0 [] (Some archive)
       /\ decompressFile archive = Exit 0 [] (Some x).
Proof.
  intros x.
  assert (Hx : Forall is_byte x) by (apply (bool_decide_unpack _); vm_compute; exact I).
  assert (Hne : x <> []) by discriminate.
  assert (Hlen : Z.of_nat (length x) < 2 ^ 31) by (vm_compute; reflexivity).
  split; [exact Hx|]. split; [exact Hne|]. split; [exact Hlen|].
  exact (compress_decompress_roundtrip x Hx Hne Hlen).
Defined.

Lemma calculateFrequencies_overflow x :
  to_int (Z.of_nat (length x)) < 0 ->
  exists f, calculateFrequencies x = (to_int (Z.of_nat (length x)), f, []).
Proof.
  intros Hneg.
  pose proof (count_loop_size x (replicate ASCII_SIZE 0) 0 ltac:(ints; lia)) as Hsize.
  rewrite Z.add_0_l in Hsize.
  unfold calculateFrequencies.
  destruct (fold_left count_step x _) as [f n]. cbn [snd] in Hsize. subst n.
  rewrite (proj2 (Z.eqb_neq _ _)) by lia. by exists f.
Qed.

Lemma compressFile_overflow x :
  to_int (Z.of_nat (length x)) < 0 -> compressFile x = Exit (-1) [] None.
Proof.
  intros Hneg. destruct (calculateFrequencies_overflow x Hneg) as (f & Hcalc).
  unfold compressFile. rewrite Hcalc. cbv beta iota.
  by rewrite (proj2 (Z.ltb_lt _ _)) by done.
Qed.

(** C1 as stated, for every non-empty byte sequence, fails: on 2^31 bytes
    the [int] counter [fileSize] wraps to a negative number, which
    [compressFile] takes for the error return: it returns -1 and writes no
    archive. *)
Lemma roundtrip_fails_on_two_gib :
  Forall is_byte two_gib_of_zeros /\ two_gib_of_zeros <> []
  /\ compressFile two_gib_of_zeros = Exit (-1) [] None.
Proof.
  assert (Hlen : length two_gib_of_zeros = Z.to_nat (2 ^ 31)) by apply length_replicate.
  split; [|split].
  - apply Forall_replicate. unfold is_byte. lia.
  - intros E. rewrite E in Hlen. cbn [length] in Hlen. lia.
  - apply compressFile_overflow. rewrite Hlen, Z2Nat.id by lia. reflexivity.
Qed.

(** ** Inputs with one distinct symbol *)

Lemma buildHuffmanTree_single f i :
  present f = [i] ->
  buildHuffmanTree f = (Node 0 (freq_at f i) (leaf_of f i) NULL, []).
Proof.
  intros Hp. unfold buildHuffmanTree.
  rewrite count_unique_present, Hp. cbn [length Z.of_nat Z.eqb Pos.of_succ_nat Pos.eqb].
  rewrite single_char_tree_present. fold (present f). by rewrite Hp.
Qed.

Lemma occurrences_replicate n c k :
  occurrences (replicate n c) k = if decide (c = Z.of_nat k) then Z.of_nat n else 0.
Proof.
  induction n as [|n IH]; [by case_decide|].
  cbn [replicate]. rewrite occurrences_cons, IH. case_decide; lia.
Qed.

Lemma NoDup_singleton_eq {A} (l : list A) a :
  NoDup l -> (forall x, x ∈ l <-> x = a) -> l = [a].
Proof.
  intros Hnd Hin. apply Permutation_singleton_r.
  apply NoDup_Permutation; [done|apply NoDup_singleton|].
  intros x. rewrite Hin. by rewrite list_elem_of_singleton.
Qed.

(** C6, within the sizes that the [int] byte counter can hold: for
    1 <= N < 2^31 and every byte [c], compressing N copies of [c] writes a
    header with symbol count 1, one frequency record, and a payload of
    ceil(N/8) bytes; in the code table the code of [c] is the single
    character 0, of length 1. *)
Theorem single_symbol_archive (N : nat) (c : Z) :
  (1 <= N)%nat -> Z.of_nat N < 2 ^ 31 -> is_byte c ->
  let x := replicate N c in
  let codes := buildCodeTable (buildHuffmanTree (calculateFrequencies x).1.2).1 in
  exists payload,
    compressFile x
    = Exit 0 [] (Some (writeFileHeader []
                         {| magic := MAGIC_NUMBER;
                            original_size := Z.of_nat N;
                            compressed_size := Z.of_nat (length payload);
                            frequency_count := 1;
                            padding_bits := 0 |}
                       ++ (c :: fwrite_uint [] (Z.of_nat N)) ++ payload))
    /\ codes !!! Z.to_nat c = CodeEntry.mk ["0"%char] 1
    /\ Z.of_nat (length payload) = (Z.of_nat N + 7) / 8.
Proof.
  intros HN Hlen Hc x codes.
  assert (Hx : Forall is_byte x) by (by apply Forall_replicate).
  assert (Hne : x <> []) by (subst x; destruct N; [lia|done]).
  assert (Hxlen : length x = N) by apply length_replicate.
  destruct (compressFile_spec x Hx Hne ltac:(by rewrite Hxlen))
    as (f & t & ps & payload & [Hvalid Hocc Htree Hnull Hleaf Hsym Hheight Hpaths Hcodes Hpay]
        & Hcompress).
  destruct (calculateFrequencies_spec x Hx Hne ltac:(by rewrite Hxlen)) as (f' & Hcalc & _ & Hocc').
  assert (Hff : (calculateFrequencies x).1.2 = f).
  { destruct Hvalid as [Hl _]. unfold compressFile in Hcompress. rewrite Hcalc in *.
    cbn [fst snd].
    destruct (calculateFrequencies_spec x Hx Hne ltac:(by rewrite Hxlen)) as (f'' & Hcalc' & [Hl' _] & _).
    rewrite Hcalc in Hcalc'. injection Hcalc' as <-.
    apply list_eq_same_length with 256%nat; [done|done|].
    intros k v v' Hk Hv Hv'.
    pose proof (Hocc k Hk) as H1. pose proof (Hocc' k Hk) as H2. unfold freq_at in *.
    rewrite (list_lookup_total_correct _ _ _ Hv) in H2.
    rewrite (list_lookup_total_correct _ _ _ Hv') in H1. congruence. }
  assert (Hcnat : Z.of_nat (Z.to_nat c) = c) by (unfold is_byte in Hc; lia).
  assert (Hpresent : present f = [Z.to_nat c]).
  { apply NoDup_singleton_eq; [apply present_NoDup|].
    intros k. rewrite elem_of_present. unfold ASCII_SIZE. split.
    - intros [Hk Hpos]. rewrite Hocc in Hpos by done. subst x.
      rewrite occurrences_replicate in Hpos. case_decide; lia.
    - intros ->. unfold is_byte in Hc. split; [lia|].
      rewrite Hocc by lia. subst x. rewrite occurrences_replicate, decide_True by lia. lia. }
  assert (Hfc : freq_at f (Z.to_nat c) = Z.of_nat N).
  { unfold is_byte in Hc. rewrite Hocc by lia. subst x.
    rewrite occurrences_replicate, decide_True by lia. done. }
  pose proof (buildHuffmanTree_single f _ Hpresent) as Htree'.
  rewrite Htree in Htree'. injection Htree' as ->.
  assert (Hps : ps = replicate N [false]).
  { apply list_eq_same_length with N.
    - apply length_replicate.
    - apply Forall2_length in Hpaths. by rewrite <- Hpaths.
    - intros i p p' Hi Hp Hp'.
      apply lookup_replicate in Hp' as [-> _].
      destruct (Forall2_lookup_r _ _ _ _ _ Hpaths Hp) as (c' & _ & Hin).
      cbn in Hin. apply list_elem_of_singleton in Hin. by injection Hin. }
  exists payload. split; [|split].
  - rewrite Hcompress. do 3 f_equal.
    + unfold archive_header. rewrite Hxlen, Hpresent. cbn [length Z.of_nat Pos.of_succ_nat].
      do 2 f_equal. destruct Hpay as (k & Hk & Hbits).
      apply (f_equal length) in Hbits.
      rewrite bits_of_bytes_length, length_app, length_replicate in Hbits.
      rewrite to_uint_small; [done|].
      assert (length (concat ps) = N).
      { rewrite Hps. clear. induction N as [|N IH]; [done|]. cbn. by rewrite IH. }
      ints. lia.
    + rewrite writeFrequencies_present, Hpresent. cbn [flat_map app]. unfold freq_record.
      rewrite Hfc, Hcnat, to_uchar_small by done. by rewrite app_nil_r.
  - subst codes. rewrite Hff, Htree. cbn [fst].
    destruct N as [|N]; [lia|]. cbn [replicate] in Hps. subst x ps.
    apply Forall2_cons in Hcodes as [[Hcode _] _].
    rewrite to_uchar_small in Hcode by done. exact Hcode.
  - destruct Hpay as (k & Hk & Hbits).
    apply (f_equal length) in Hbits.
    rewrite bits_of_bytes_length, length_app, length_replicate in Hbits.
    assert (length (concat ps) = N).
    { rewrite Hps. clear. induction N as [|N IH]; [done|]. cbn. by rewrite IH. }
    clear -Hbits Hk H. dlia.
Qed.

Lemma single_symbol_archive_witness :
  (1 <= 8)%nat /\ Z.of_nat 8 < 2 ^ 31 /\ is_byte 65
  /\ exists payload,
    compressFile (replicate 8 65)
    = Exit 0 [] (Some (writeFileHeader []
                         {| magic := MAGIC_NUMBER;
                            original_size := Z.of_nat 8;
                            compressed_size := Z.of_nat (length payload);
                            frequency_count := 1;
                            padding_bits := 0 |}
                       ++ (65 :: fwrite_uint [] (Z.of_nat 8)) ++ payload))
    /\ buildCodeTable (buildHuffmanTree (calculateFrequencies (replicate 8 65)).1.2).1
         !!! Z.to_nat 65 = CodeEntry.mk ["0"%char] 1
    /\ Z.of_nat (length payload) = (Z.of_nat 8 + 7) / 8.
Proof.
  assert (H1 : (1 <= 8)%nat) by lia.
  assert (H2 : Z.of_nat 8 < 2 ^ 31) by reflexivity.
  assert (H3 : is_byte 65) by (unfold is_byte; lia).
  split; [exact H1|]. split; [exact H2|]. split; [exact H3|].
  exact (single_symbol_archive 8 65 H1 H2 H3).
Defined.

(** C6 as stated, for every N, fails: for N = 2^31 the byte counter wraps
    to a negative number and [compressFile] returns -1 without writing a
    header, a table or a payload. *)
Lemma single_symbol_fails_on_two_gib :
  let N := Z.to_nat (2 ^ 31) in
  (1 <= N)%nat /\ is_byte 65 /\ compressFile (replicate N 65) = Exit (-1) [] None.
Proof.
  intros N. split; [lia|]. split; [unfold is_byte; lia|].
  apply compressFile_overflow.
  rewrite length_replicate. unfold N. rewrite Z2Nat.id by lia. reflexivity.
Qed.

(** ** The order of the heap *)

Lemma parent_lt j : 0 < j -> 0 <= parent j < j.
Proof. apply parent_range. Qed.

Lemma node_at_set_eq l i v :
  0 <= i -> (Z.to_nat i < length l)%nat -> node_at (set_node l i v) i = v.
Proof. intros. unfold node_at, set_node. by apply list_lookup_total_insert_eq. Qed.

Lemma node_at_set_ne l i j v :
  0 <= i -> 0 <= j -> i <> j -> node_at (set_node l i v) j = node_at l j.
Proof. intros. unfold node_at, set_node. apply list_lookup_total_insert_ne. lia. Qed.

Lemma weight_at_set_eq l i v :
  0 <= i -> (Z.to_nat i < length l)%nat -> weight_at (set_node l i v) i = frequency v.
Proof. intros. unfold weight_at. by rewrite node_at_set_eq. Qed.

Lemma weight_at_set_ne l i j v :
  0 <= i -> 0 <= j -> i <> j -> weight_at (set_node l i v) j = weight_at l j.
Proof. intros. unfold weight_at. by rewrite node_at_set_ne. Qed.

Section sift_up_order.
Variable node : HuffmanNode.
Variable n : Z.

Lemma holed_root_le l i j :
  holed node n l i -> 0 <= j < i -> i < n -> weight_at l 0 <= weight_at l j.
Proof.
  intros (H1 & _ & _) Hj Hi.
  assert (H : forall m, (0 <= m)%nat -> forall j, 0 <= j < i -> Z.to_nat j = m ->
                        weight_at l 0 <= weight_at l j).
  { clear j Hj. intros m _. induction (lt_wf m) as [m _ IH]. intros j Hj Hm.
    destruct (decide (j = 0)) as [->|Hj0]; [done|].
    pose proof (parent_lt j ltac:(lia)) as Hp.
    etrans; [|apply (H1 j); lia].
    apply (IH (Z.to_nat (parent j))); lia. }
  by apply (H (Z.to_nat j)); [lia|..].
Qed.

Lemma holed_step l i :
  0 < i < n -> (Z.to_nat i < length l)%nat ->
  holed node n l i -> frequency node < weight_at l (parent i) ->
  holed node n (set_node l i (node_at l (parent i))) (parent i).
Proof.
  intros Hi Hlen (H1 & H2 & H3) Hlt.
  pose proof (parent_lt i ltac:(lia)) as Hp.
  set (p := parent i) in *.
  assert (Hw : forall j, 0 <= j ->
             weight_at (set_node l i (node_at l p)) j
             = if decide (j = i) then weight_at l p else weight_at l j).
  { intros j Hj. case_decide as Hji.
    - subst j. by rewrite weight_at_set_eq by lia.
    - by rewrite weight_at_set_ne by lia. }
  split; [|split].
  - intros j Hj Hjp. pose proof (parent_lt j ltac:(lia)) as Hpj.
    rewrite !Hw by lia.
    destruct (decide (j = i)) as [->|Hji].
    + fold p. rewrite decide_False by lia. lia.
    + destruct (decide (parent j = i)) as [Hpi|Hpi].
      * apply (H2 j); lia.
      * apply (H1 j); lia.
  - intros j Hj Hpj Hp0. pose proof (parent_lt p ltac:(lia)) as Hpp.
    rewrite !Hw by lia. rewrite (decide_False (P := parent p = i)) by lia.
    destruct (decide (j = i)) as [->|Hji].
    + apply (H1 p); lia.
    + etrans; [apply (H1 p); lia|]. rewrite <- Hpj. apply (H1 j); lia.
  - intros j Hj Hpj. rewrite Hw by lia.
    destruct (decide (j = i)) as [->|Hji]; [done|].
    eapply Z.lt_le_trans; [exact Hlt|]. rewrite <- Hpj. apply (H1 j); lia.
Qed.

End sift_up_order.

Lemma sift_up_order node n fuel l i :
  0 <= i < n -> (Z.to_nat n <= length l)%nat -> (Z.to_nat i <= fuel)%nat ->
  holed node n l i ->
  let '(l', i') := sift_up fuel node l i in
  heap_ordered n (set_node l' i' node)
  /\ node_at (set_node l' i' node) 0
     = (if decide (i = 0) then node else lighter (node_at l 0) node).
Proof.
  revert l i. induction fuel as [|fuel IH]; intros l i Hi Hlen Hfuel Hholed.
  - assert (i = 0) as -> by lia. cbn [sift_up].
    split; [|by rewrite node_at_set_eq by lia].
    destruct Hholed as (H1 & H2 & H3).
    intros j Hj. pose proof (parent_lt j ltac:(lia)) as Hp.
    destruct (decide (parent j = 0)) as [Hp0|Hp0].
    + rewrite Hp0, weight_at_set_eq, weight_at_set_ne by lia.
      specialize (H3 j Hj Hp0). lia.
    + rewrite !weight_at_set_ne by lia. apply (H1 j); lia.
  - cbn [sift_up]. fold (parent i).
    destruct (Z.eqb_spec i 0) as [->|Hi0]; cbn [negb andb].
    { split; [|by rewrite node_at_set_eq by lia].
      destruct Hholed as (H1 & H2 & H3).
      intros j Hj. pose proof (parent_lt j ltac:(lia)) as Hp.
      destruct (decide (parent j = 0)) as [Hp0|Hp0].
      + rewrite Hp0, weight_at_set_eq, weight_at_set_ne by lia.
        specialize (H3 j Hj Hp0). lia.
      + rewrite !weight_at_set_ne by lia. apply (H1 j); lia. }
    pose proof (parent_lt i ltac:(lia)) as Hp.
    rewrite decide_False by done.
    destruct (Z.ltb_spec (frequency node) (frequency (node_at l (parent i)))) as [Hlt|Hge].
    + pose proof (holed_step node n l i ltac:(lia) ltac:(lia) Hholed Hlt) as Hholed'.
      specialize (IH (set_node l i (node_at l (parent i))) (parent i)
                     ltac:(lia) ltac:(unfold set_node; rewrite length_insert; lia)
                     ltac:(lia) Hholed').
      destruct (sift_up fuel node _ (parent i)) as [l' i'].
      destruct IH as [Hord Hroot]. split; [done|].
      rewrite Hroot. rewrite node_at_set_ne by lia.
      case_decide as Hp0; [|done].
      unfold lighter. rewrite Hp0 in Hlt.
      by rewrite (proj2 (Z.ltb_lt _ _)) by done.
    + destruct Hholed as (H1 & H2 & H3). split.
      * intros j Hj. pose proof (parent_lt j ltac:(lia)) as Hpj.
        destruct (decide (j = i)) as [->|Hji].
        { rewrite weight_at_set_eq, weight_at_set_ne by lia. done. }
        destruct (decide (parent j = i)) as [Hpi|Hpi].
        { rewrite Hpi, weight_at_set_eq, weight_at_set_ne by lia.
          specialize (H3 j Hj Hpi). lia. }
        rewrite !weight_at_set_ne by lia. apply (H1 j); lia.
      * rewrite node_at_set_ne by lia. unfold lighter.
        rewrite (proj2 (Z.ltb_ge _ _)); [done|].
        etrans; [|exact Hge].
        apply (holed_root_le node n l i (parent i)); [done|lia|lia].
Qed.

Lemma heap_ordered_holed node n l :
  0 <= n -> heap_ordered n l -> holed node (n + 1) l n.
Proof.
  intros Hn Hord. split; [|split].
  - intros j Hj Hjn. apply Hord. lia.
  - intros j Hj Hpj. pose proof (parent_lt j ltac:(lia)). lia.
  - intros j Hj Hpj. pose proof (parent_lt j ltac:(lia)). lia.
Qed.

(** [insertMinHeap] keeps the order of the heap, and the root changes only
    for a strictly lighter node. *)
Lemma insertMinHeap_order heap node :
  heap_wf heap -> size heap < capacity heap ->
  heap_ordered (size heap) (nodes heap) ->
  heap_ordered (size heap + 1) (nodes (insertMinHeap heap node))
  /\ node_at (nodes (insertMinHeap heap node)) 0
     = (if decide (size heap = 0) then node else lighter (node_at (nodes heap) 0) node).
Proof.
  intros [Hsize Hlen] Hcap Hord. unfold insertMinHeap.
  rewrite (proj2 (Z.leb_gt _ _)) by done.
  replace (size heap + 1 - 1) with (size heap) by lia.
  pose proof (sift_up_order node (size heap + 1) (Z.to_nat (size heap)) (nodes heap) (size heap)
                ltac:(lia) ltac:(lia) ltac:(lia)
                (heap_ordered_holed node (size heap) (nodes heap) ltac:(lia) Hord)) as H.
  destruct (sift_up _ node _ _) as [l' i']. exact H.
Qed.

Lemma earliest_min_snoc ns x :
  ns <> [] -> earliest_min (ns ++ [x]) = lighter (earliest_min ns) x.
Proof.
  destruct ns as [|n rest]; [done|]. intros _. cbn [earliest_min app].
  by rewrite fold_left_app.
Qed.

Lemma earliest_min_spec ns :
  ns <> [] ->
  exists k,
    ns !! k = Some (earliest_min ns)
    /\ (forall j x, ns !! j = Some x -> frequency (earliest_min ns) <= frequency x)
    /\ (forall j x, (j < k)%nat -> ns !! j = Some x ->
          frequency (earliest_min ns) < frequency x).
Proof.
  induction ns as [|x ns IH] using rev_ind; [done|]. intros _.
  destruct (decide (ns = [])) as [->|Hne].
  { exists 0%nat. split; [done|]. split.
    - intros [|j] y Hy; [|done]. injection Hy as <-. cbn. lia.
    - intros j y Hj. lia. }
  destruct (IH Hne) as (k & Hk & Hmin & Hfirst).
  rewrite earliest_min_snoc by done. unfold lighter.
  destruct (Z.ltb_spec (frequency x) (frequency (earliest_min ns))) as [Hlt|Hge].
  - exists (length ns). split; [by rewrite list_lookup_middle|]. split.
    + intros j y Hy. apply lookup_app_Some in Hy as [Hy|[_ Hy]].
      * specialize (Hmin j y Hy). lia.
      * apply list_lookup_singleton_Some in Hy as [_ <-]. lia.
    + intros j y Hj Hy. rewrite lookup_app_l in Hy by done.
      specialize (Hmin j y Hy). lia.
  - exists k. split; [by apply lookup_app_l_Some|]. split.
    + intros j y Hy. apply lookup_app_Some in Hy as [Hy|[_ Hy]].
      * by apply (Hmin j).
      * apply list_lookup_singleton_Some in Hy as [_ <-]. lia.
    + intros j y Hj Hy. apply lookup_lt_Some in Hk.
      rewrite lookup_app_l in Hy by lia. by apply (Hfirst j).
Qed.

(** The heap after the nodes [ns] were inserted, in this order, into a
    fresh heap with room for all of them. *)
Lemma inserts_spec cap ns :
  Z.of_nat (length ns) <= cap ->
  let heap := fold_left insertMinHeap ns (createMinHeap cap) in
  heap_wf heap /\ size heap = Z.of_nat (length ns) /\ capacity heap = cap
  /\ live heap ≡ₚ ns
  /\ heap_ordered (size heap) (nodes heap)
  /\ (ns <> [] -> node_at (nodes heap) 0 = earliest_min ns).
Proof.
  induction ns as [|x ns IH] using rev_ind; intros Hlen.
  { cbn [fold_left length]. split; [apply createMinHeap_wf; cbn [length] in Hlen; lia|].
    split; [done|]. split; [done|]. split; [done|]. split; [|done].
    intros j Hj. cbn [size createMinHeap] in Hj. lia. }
  rewrite length_app in Hlen. cbn [length] in Hlen.
  destruct (IH ltac:(lia)) as (Hwf & Hsize & Hcap & Hlive & Hord & Hroot).
  rewrite fold_left_app. cbn [fold_left].
  set (heap := fold_left insertMinHeap ns (createMinHeap cap)) in *. clearbody heap.
  destruct (insertMinHeap_perm heap x Hwf ltac:(lia)) as (Hwf' & Hsize' & Hcap' & Hlive').
  destruct (insertMinHeap_order heap x Hwf ltac:(lia) Hord) as (Hord' & Hroot').
  split; [done|]. split; [rewrite length_app; cbn [length]; lia|]. split; [congruence|].
  split; [by rewrite Hlive', Hlive, <- Permutation_cons_append|].
  split; [by rewrite Hsize'|]. intros _.
  rewrite Hroot'. case_decide as Hs.
  - destruct ns; [done|cbn [length] in Hsize; lia].
  - assert (Hne : ns <> []) by (intros ->; cbn [length] in Hsize; lia).
    by rewrite earliest_min_snoc, Hroot.
Qed.

(** Once the heap is full, further insertions change nothing. *)
Lemma inserts_full heap ns :
  capacity heap <= size heap -> fold_left insertMinHeap ns heap = heap.
Proof.
  intros Hfull. induction ns as [|x ns IH]; [done|].
  cbn [fold_left]. by rewrite insertMinHeap_full.
Qed.

Lemma extractMin_root heap :
  0 < size heap -> (extractMin heap).1 = node_at (nodes heap) 0.
Proof. intros. unfold extractMin. by rewrite (proj2 (Z.leb_gt _ _)). Qed.

(** C2, for the first extraction: after any sequence [ns] of
    [insertMinHeap] calls on a fresh heap, the nodes stored are the first
    [capacity] of them, and [extractMin] returns the one of least weight
    that was inserted first: no stored node is lighter, and every node
    stored before it is strictly heavier. *)
Theorem first_extraction_earliest_min cap ns :
  0 < cap -> ns <> [] ->
  let stored := take (Z.to_nat cap) ns in
  let heap := fold_left insertMinHeap ns (createMinHeap cap) in
  let m := (extractMin heap).1 in
  live heap ≡ₚ stored
  /\ exists k,
       stored !! k = Some m
       /\ (forall j x, stored !! j = Some x -> frequency m <= frequency x)
       /\ (forall j x, (j < k)%nat -> stored !! j = Some x -> frequency m < frequency x).
Proof.
  intros Hcap Hne stored heap m.
  assert (Hstored : stored <> []).
  { subst stored. destruct ns; [done|]. destruct (Z.to_nat cap) eqn:E; [lia|done]. }
  assert (Hlen : Z.of_nat (length stored) <= cap).
  { subst stored. rewrite length_take. lia. }
  destruct (inserts_spec cap stored Hlen) as (Hwf & Hsize & Hcapacity & Hlive & Hord & Hroot).
  assert (Hheap : heap = fold_left insertMinHeap stored (createMinHeap cap)).
  { subst heap. rewrite <- (take_drop (Z.to_nat cap) ns) at 1.
    rewrite fold_left_app. fold stored.
    destruct (decide (length ns <= Z.to_nat cap)%nat) as [Hshort|Hlong].
    - by rewrite drop_ge by done.
    - apply inserts_full. rewrite Hsize, Hcapacity. subst stored.
      rewrite length_take. lia. }
  subst m. rewrite Hheap. split; [done|].
  rewrite extractMin_root by (destruct stored; [done|cbn [length] in Hsize; lia]).
  rewrite Hroot by done. by apply earliest_min_spec.
Qed.

Lemma first_extraction_earliest_min_witness :
  let a := createNode 65 2 in
  let b := createNode 66 1 in
  let c := createNode 67 1 in
  let heap := fold_left insertMinHeap [a; b; c] (createMinHeap 3) in
  0 < 3 /\ [a; b; c] <> []
  /\ (extractMin heap).1 = b
  /\ exists k,
       [a; b; c] !! k = Some (extractMin heap).1
       /\ (forall j x, [a; b; c] !! j = Some x -> frequency (extractMin heap).1 <= frequency x)
       /\ (forall j x, (j < k)%nat -> [a; b; c] !! j = Some x ->
             frequency (extractMin heap).1 < frequency x).
Proof.
  intros a b c heap.
  assert (H1 : 0 < 3) by lia.
  assert (H2 : [a; b; c] <> []) by discriminate.
  split; [exact H1|]. split; [exact H2|]. split; [reflexivity|].
  exact (proj2 (first_extraction_earliest_min 3 [a; b; c] H1 H2)).
Defined.

(** C2 as stated, for every extraction, fails: after three nodes of equal
    weight are inserted and the first is extracted, the two nodes left
    share the least weight, and the next [extractMin] returns the one that
    was inserted last. *)
Lemma extraction_not_in_insertion_order :
  let a := createNode 65 1 in
  let b := createNode 66 1 in
  let c := createNode 67 1 in
  let heap := fold_left insertMinHeap [a; b; c] (createMinHeap 3) in
  let '(first, heap1) := extractMin heap in
  let '(second, heap2) := extractMin heap1 in
  first = a /\ live heap1 ≡ₚ [b; c]
  /\ frequency b = frequency c /\ second = c /\ second <> b.
Proof. vm_compute. repeat split; try done. apply Permutation_swap. Qed.

(** ** The fuel of the heap loops *)

(** [minHeapify_rec] does not depend on its fuel once there is one unit per
    cell between [index] and the end of the heap: the fuel of [minHeapify]
    never runs out. *)
Lemma minHeapify_rec_fuel fuel1 fuel2 heap index :
  0 <= index ->
  (Z.to_nat (size heap - index) <= fuel1)%nat ->
  (Z.to_nat (size heap - index) <= fuel2)%nat ->
  minHeapify_rec fuel1 heap index = minHeapify_rec fuel2 heap index.
Proof.
  assert (Hstop : forall fuel heap index,
             0 <= index -> size heap <= index -> minHeapify_rec fuel heap index = heap).
  { intros [|fuel] h i Hi0 Hi; [done|]. cbn [minHeapify_rec]. cbv zeta.
    rewrite (proj2 (Z.ltb_ge (2 * i + 1) _)) by lia. cbn [andb].
    rewrite (proj2 (Z.ltb_ge (2 * i + 2) _)) by lia. cbn [andb].
    by rewrite Z.eqb_refl. }
  revert fuel2 heap index.
  induction fuel1 as [|fuel1 IH]; intros fuel2 heap index Hi H1 H2.
  { rewrite !Hstop by lia. done. }
  destruct fuel2 as [|fuel2].
  { rewrite !Hstop by lia. done. }
  cbn [minHeapify_rec]. cbv zeta.
  set (s1 := if (2 * index + 1 <? size heap) && _ then 2 * index + 1 else index).
  assert (Hs1 : index <= s1 /\ (s1 = index \/ s1 < size heap)).
  { subst s1. destruct (Z.ltb_spec (2 * index + 1) (size heap)); cbn [andb];
      [destruct (frequency _ <? frequency _)|]; lia. }
  clearbody s1.
  set (s2 := if (2 * index + 2 <? size heap) && _ then 2 * index + 2 else s1).
  assert (Hs2 : index <= s2 /\ (s2 = index \/ s2 < size heap)).
  { subst s2. destruct (Z.ltb_spec (2 * index + 2) (size heap)); cbn [andb];
      [destruct (frequency _ <? frequency _)|]; lia. }
  clearbody s2.
  destruct (Z.eqb_spec s2 index) as [->|Hne]; cbn [negb]; [done|].
  apply IH; cbn [size]; lia.
Qed.

(** [sift_up] does not depend on its fuel once there is one unit per cell
    below [i]: the fuel of [insertMinHeap] never runs out. *)
Lemma sift_up_fuel fuel1 fuel2 node l i :
  0 <= i -> (Z.to_nat i <= fuel1)%nat -> (Z.to_nat i <= fuel2)%nat ->
  sift_up fuel1 node l i = sift_up fuel2 node l i.
Proof.
  assert (Hstop : forall fuel l, sift_up fuel node l 0 = (l, 0)).
  { by intros [|fuel] l'. }
  revert fuel2 l i. induction fuel1 as [|fuel1 IH]; intros fuel2 l i Hi H1 H2.
  { assert (i = 0) as -> by lia. by rewrite !Hstop. }
  destruct fuel2 as [|fuel2].
  { assert (i = 0) as -> by lia. by rewrite !Hstop. }
  cbn [sift_up].
  destruct (Z.eqb_spec i 0) as [->|Hi0]; cbn [negb andb]; [done|].
  destruct (frequency node <? _); [|done].
  pose proof (parent_range i ltac:(lia)).
  apply IH; lia.
Qed.

(** ** The scenarios of the specification *)

Example compress_AAAAAAAA :
  compressFile (bytes_of_string "AAAAAAAA")
  = Exit 0 [] (Some [70; 70; 85; 72; 8; 0; 0; 0; 1; 0; 0; 0; 1; 0; 0; 0; 0;
                     65; 8; 0; 0; 0; 0]).
Proof. reflexivity. Qed.

Example compress_AABBBCCCC :
  compressFile (bytes_of_string "AABBBCCCC")
  = Exit 0 [] (Some [70; 70; 85; 72; 9; 0; 0; 0; 2; 0; 0; 0; 3; 0; 0; 0; 0;
                     65; 2; 0; 0; 0; 66; 3; 0; 0; 0; 67; 4; 0; 0; 0; 175; 192]).
Proof. reflexivity. Qed.

Example decompress_AABBBCCCC :
  decompressFile [70; 70; 85; 72; 9; 0; 0; 0; 2; 0; 0; 0; 3; 0; 0; 0; 0;
                  65; 2; 0; 0; 0; 66; 3; 0; 0; 0; 67; 4; 0; 0; 0; 175; 192]
  = Exit 0 [] (Some (bytes_of_string "AABBBCCCC")).
Proof. reflexivity. Qed.

(** With three symbols of equal weight the builder merges the first and the
    last, not the first two: the second extraction is not in insertion
    order. *)
Example tree_of_equal_weights :
  (buildHuffmanTree (<[2%nat := 1]> (<[1%nat := 1]> (<[0%nat := 1]> (replicate 256 0))))).1
  = Node 0 3 (Node 1 1 NULL NULL) (Node 0 2 (Node 0 1 NULL NULL) (Node 2 1 NULL NULL)).
Proof. reflexivity. Qed.

(** * Further properties of the code *)

(** ** The heap keeps its order *)

Lemma parent_children i j :
  0 <= i -> 0 < j -> parent j = i <-> j = 2 * i + 1 \/ j = 2 * i + 2.
Proof.
  intros Hi Hj. unfold parent. rewrite Z.quot_div_nonneg by lia.
  split; intros H; Z.to_euclidean_division_equations; lia.
Qed.

Lemma heap_ordered_root_le n l j :
  heap_ordered n l -> 0 <= j < n -> weight_at l 0 <= weight_at l j.
Proof.
  intros Hord Hj.
  assert (H : forall m j, 0 <= j < n -> Z.to_nat j = m -> weight_at l 0 <= weight_at l j).
  { clear j Hj. intros m. induction (lt_wf m) as [m _ IH]. intros j Hj Hm.
    destruct (decide (j = 0)) as [->|Hj0]; [done|].
    pose proof (parent_lt j ltac:(lia)) as Hp.
    etrans; [|apply (Hord j); lia].
    apply (IH (Z.to_nat (parent j))); lia. }
  by apply (H (Z.to_nat j)).
Qed.

(** The cell that [minHeapify] picks as [smallest]. *)
Lemma smallest_spec n l i s1 s2 :
  0 <= i < n ->
  s1 = (if (2 * i + 1 <? n) && (weight_at l (2 * i + 1) <? weight_at l i)
        then 2 * i + 1 else i) ->
  s2 = (if (2 * i + 2 <? n) && (weight_at l (2 * i + 2) <? weight_at l s1)
        then 2 * i + 2 else s1) ->
  (s2 = i \/ s2 = 2 * i + 1 \/ s2 = 2 * i + 2) /\ 0 <= s2 < n
  /\ weight_at l s2 <= weight_at l i
  /\ (2 * i + 1 < n -> weight_at l s2 <= weight_at l (2 * i + 1))
  /\ (2 * i + 2 < n -> weight_at l s2 <= weight_at l (2 * i + 2)).
Proof.
  intros Hi -> ->.
  destruct (Z.ltb_spec (2 * i + 1) n); cbn [andb];
    [destruct (Z.ltb_spec (weight_at l (2 * i + 1)) (weight_at l i))|];
    (destruct (Z.ltb_spec (2 * i + 2) n); cbn [andb];
     [match goal with
      | |- context [weight_at l (2 * i + 2) <? ?w] =>
        destruct (Z.ltb_spec (weight_at l (2 * i + 2)) w)
      end|]); lia.
Qed.

Lemma sinking_swap n l i s :
  0 <= i < n -> (Z.to_nat n <= length l)%nat ->
  sinking n l i ->
  (s = 2 * i + 1 \/ s = 2 * i + 2) -> s < n ->
  weight_at l s <= weight_at l i ->
  (2 * i + 1 < n -> weight_at l s <= weight_at l (2 * i + 1)) ->
  (2 * i + 2 < n -> weight_at l s <= weight_at l (2 * i + 2)) ->
  sinking n (set_node (set_node l s (node_at l i)) i (node_at l s)) s.
Proof.
  intros Hi Hlen [H1 H2] Hs Hsn Hsi Hleft Hright.
  assert (Hpar : parent s = i) by (apply parent_children; lia).
  assert (Hw : forall j, 0 <= j ->
             weight_at (set_node (set_node l s (node_at l i)) i (node_at l s)) j
             = if decide (j = i) then weight_at l s
               else if decide (j = s) then weight_at l i else weight_at l j).
  { intros j Hj. case_decide as Hji.
    - subst j. rewrite weight_at_set_eq; [done|lia|].
      unfold set_node. rewrite length_insert. lia.
    - rewrite weight_at_set_ne by lia. case_decide as Hjs.
      + subst j. by rewrite weight_at_set_eq by lia.
      + by rewrite weight_at_set_ne by lia. }
  split.
  - intros j Hj Hpj. pose proof (parent_lt j ltac:(lia)) as Hp.
    rewrite !Hw by lia.
    destruct (decide (j = i)) as [->|Hji].
    + rewrite (decide_False (P := parent i = i)) by lia.
      rewrite (decide_False (P := parent i = s)) by lia.
      apply (H2 s); lia.
    + destruct (decide (parent j = i)) as [Hpi|Hpi].
      * apply parent_children in Hpi; [|lia|lia].
        case_decide; [lia|]. destruct Hpi; subst j; [apply Hleft|apply Hright]; lia.
      * rewrite (decide_False (P := parent j = s)) by done.
        case_decide as Hjs; [subst j; lia|]. apply (H1 j); lia.
  - intros j Hj Hpj Hs0. rewrite !Hw by lia. rewrite Hpar.
    rewrite decide_True by done.
    pose proof (parent_lt j ltac:(lia)).
    rewrite (decide_False (P := j = i)) by lia.
    rewrite (decide_False (P := j = s)) by lia.
    rewrite <- Hpj. apply (H1 j); lia.
Qed.

Lemma minHeapify_rec_order fuel heap index :
  heap_wf heap -> 0 <= index < size heap ->
  (Z.to_nat (size heap - index) <= fuel)%nat ->
  sinking (size heap) (nodes heap) index ->
  heap_ordered (size heap) (nodes (minHeapify_rec fuel heap index)).
Proof.
  revert heap index. induction fuel as [|fuel IH]; intros heap index Hwf Hindex Hfuel Hsink; [lia|].
  cbn [minHeapify_rec]. cbv zeta.
  destruct (smallest_spec (size heap) (nodes heap) index _ _ Hindex eq_refl eq_refl)
    as (Hcases & Hs & Hsi & Hleft & Hright).
  unfold weight_at in Hcases, Hs, Hsi, Hleft, Hright.
  match goal with |- context [negb (?s =? index)] => set (s2 := s) in * end.
  clearbody s2.
  destruct (Z.eqb_spec s2 index) as [->|Hne]; cbn [negb].
  - destruct Hsink as [H1 H2]. intros j Hj.
    destruct (decide (parent j = index)) as [Hp|Hp]; [|by apply H1].
    rewrite Hp. apply parent_children in Hp; [|lia|lia].
    destruct Hp; subst j; [apply Hleft|apply Hright]; lia.
  - destruct Hwf as [Hsize Hlen].
    match goal with |- context [minHeapify_rec fuel ?h s2] => set (heap1 := h) end.
    assert (Hwf1 : heap_wf heap1).
    { split; [done|]. subst heap1. cbn [nodes capacity]. unfold set_node.
      by rewrite !length_insert. }
    apply (IH heap1 s2 Hwf1); [done|cbn [size heap1]; lia|].
    subst heap1. cbn [size nodes].
    apply sinking_swap; (done || lia).
Qed.

Lemma live_lookup heap x :
  heap_wf heap -> x ∈ live heap ->
  exists j, 0 <= j < size heap /\ node_at (nodes heap) j = x.
Proof.
  intros [Hsize Hlen] Hx. unfold live in Hx.
  apply list_elem_of_lookup in Hx as [k Hk].
  apply lookup_take_Some in Hk as [Hk Hlt].
  exists (Z.of_nat k). split; [lia|]. unfold node_at. rewrite Nat2Z.id.
  by apply list_lookup_total_correct.
Qed.

(** What one call of [extractMin] does to an ordered heap. *)
Lemma extractMin_order heap :
  heap_wf heap -> heap_ordered (size heap) (nodes heap) -> 0 < size heap ->
  heap_ordered (size (extractMin heap).2) (nodes (extractMin heap).2)
  /\ forall x, x ∈ live heap -> frequency (extractMin heap).1 <= frequency x.
Proof.
  intros Hwf Hord Hpos. split.
  - pose proof Hwf as [Hsize Hlen]. unfold extractMin.
    rewrite (proj2 (Z.leb_gt _ _)) by done. cbn [fst snd].
    match goal with |- context [if 0 <? size ?h then _ else _] => set (heap1 := h) end.
    assert (Hwf1 : heap_wf heap1).
    { subst heap1. split; cbn [size capacity nodes]; [lia|].
      unfold set_node. by rewrite length_insert. }
    destruct (Z.ltb_spec 0 (size heap1)) as [Hlt|Hge].
    + destruct (minHeapify_perm heap1 0 Hwf1 ltac:(lia)) as (_ & Hsz & _ & _).
      rewrite Hsz. unfold minHeapify.
      apply minHeapify_rec_order; [done|lia|lia|].
      subst heap1. cbn [size nodes] in *. split.
      * intros j Hj Hp. pose proof (parent_lt j ltac:(lia)).
        rewrite !weight_at_set_ne by lia. apply Hord. lia.
      * intros; lia.
    + intros j Hj. lia.
  - intros x Hx. destruct (live_lookup heap x Hwf Hx) as (j & Hj & <-).
    rewrite extractMin_root by done.
    by apply (heap_ordered_root_le (size heap)).
Qed.

Lemma drain_spec fuel heap :
  heap_wf heap -> heap_ordered (size heap) (nodes heap) ->
  (Z.to_nat (size heap) <= fuel)%nat ->
  drain fuel heap ≡ₚ live heap /\ StronglySorted by_weight (drain fuel heap).
Proof.
  revert heap. induction fuel as [|fuel IH]; intros heap Hwf Hord Hfuel.
  { cbn [drain]. unfold live. replace (Z.to_nat (size heap)) with 0%nat by lia.
    split; [done|constructor]. }
  cbn [drain]. unfold isHeapEmpty.
  destruct (Z.eqb_spec (size heap) 0) as [H0|H0].
  { cbn. unfold live. rewrite H0. split; [done|constructor]. }
  cbn [Z.eqb].
  assert (Hpos : 0 < size heap) by (destruct Hwf; lia).
  destruct (extractMin_perm heap Hwf Hpos) as (Hwf' & Hsz & _ & Hperm).
  destruct (extractMin_order heap Hwf Hord Hpos) as (Hord' & Hmin).
  destruct (extractMin heap) as [m heap']. cbn [fst snd] in *.
  destruct (IH heap' Hwf' Hord' ltac:(lia)) as (Hperm' & Hsorted).
  split; [by rewrite Hperm, Hperm'|].
  constructor; [done|].
  rewrite Hperm'. apply Forall_forall. intros x Hx.
  apply Hmin. rewrite Hperm. by right.
Qed.

(** X1: [insertMinHeap] keeps the heap within its array and in heap order.
    With room left the new node joins the stored nodes and the size grows by
    one; on a full heap the call changes nothing. *)
Theorem insertMinHeap_keeps_heap heap node :
  heap_wf heap -> heap_ordered (size heap) (nodes heap) ->
  let heap' := insertMinHeap heap node in
  heap_wf heap' /\ heap_ordered (size heap') (nodes heap')
  /\ (size heap < capacity heap ->
      size heap' = size heap + 1 /\ live heap' ≡ₚ node :: live heap)
  /\ (capacity heap <= size heap -> heap' = heap).
Proof.
  intros Hwf Hord heap'. subst heap'.
  destruct (Z.lt_ge_cases (size heap) (capacity heap)) as [Hroom|Hfull].
  - destruct (insertMinHeap_perm heap node Hwf Hroom) as (Hwf' & Hsz & _ & Hperm).
    destruct (insertMinHeap_order heap node Hwf Hroom Hord) as (Hord' & _).
    split; [done|]. split; [by rewrite Hsz|]. split; [done|lia].
  - rewrite insertMinHeap_full by done.
    split; [done|]. split; [done|]. split; [lia|done].
Qed.

Lemma insertMinHeap_keeps_heap_witness :
  let heap := insertMinHeap (createMinHeap 2) (createNode 66 3) in
  let heap' := insertMinHeap heap (createNode 65 1) in
  heap_wf heap /\ heap_ordered (size heap) (nodes heap)
  /\ nodes heap' = [createNode 65 1; createNode 66 3]
  /\ heap_wf heap' /\ heap_ordered (size heap') (nodes heap').
Proof.
  intros heap heap'.
  assert (Hwf : heap_wf heap) by (split; [vm_compute; split; discriminate|reflexivity]).
  assert (Hord : heap_ordered (size heap) (nodes heap)).
  { intros j Hj. change (size heap) with 1 in Hj. lia. }
  split; [exact Hwf|]. split; [exact Hord|]. split; [reflexivity|].
  pose proof (insertMinHeap_keeps_heap heap (createNode 65 1) Hwf Hord) as H.
  exact (conj (proj1 H) (proj1 (proj2 H))).
Defined.

(** X2: on an ordered, non-empty heap [extractMin] returns a stored node of
    least weight, removes exactly that node, and leaves the heap within its
    array and in heap order. *)
Theorem extractMin_least heap :
  heap_wf heap -> heap_ordered (size heap) (nodes heap) -> 0 < size heap ->
  let m := (extractMin heap).1 in
  let heap' := (extractMin heap).2 in
  live heap ≡ₚ m :: live heap'
  /\ (forall x, x ∈ live heap -> frequency m <= frequency x)
  /\ size heap' = size heap - 1 /\ capacity heap' = capacity heap
  /\ heap_wf heap' /\ heap_ordered (size heap') (nodes heap').
Proof.
  intros Hwf Hord Hpos m heap'. subst m heap'.
  destruct (extractMin_perm heap Hwf Hpos) as (Hwf' & Hsz & Hcap & Hperm).
  destruct (extractMin_order heap Hwf Hord Hpos) as (Hord' & Hmin).
  done.
Qed.

Lemma extractMin_least_witness :
  let heap := fold_left insertMinHeap [createNode 65 2; createNode 66 1; createNode 67 4]
                        (createMinHeap 3) in
  heap_wf heap /\ heap_ordered (size heap) (nodes heap) /\ 0 < size heap
  /\ (extractMin heap).1 = createNode 66 1
  /\ live heap ≡ₚ (extractMin heap).1 :: live (extractMin heap).2
  /\ forall x, x ∈ live heap -> frequency (extractMin heap).1 <= frequency x.
Proof.
  intros heap.
  destruct (inserts_spec 3 [createNode 65 2; createNode 66 1; createNode 67 4] ltac:(cbn; lia))
    as (Hwf & _ & _ & _ & Hord & _).
  fold heap in Hwf, Hord.
  assert (Hpos : 0 < size heap) by reflexivity.
  split; [exact Hwf|]. split; [exact Hord|]. split; [exact Hpos|]. split; [reflexivity|].
  pose proof (extractMin_least heap Hwf Hord Hpos) as H.
  exact (conj (proj1 H) (proj1 (proj2 H))).
Defined.



(** X4: the nodes inserted into a fresh heap with room for them come out of
    repeated [extractMin] calls, until [isHeapEmpty], in non-decreasing
    weight order, each exactly once. *)
Theorem heap_drains_by_weight cap ns :
  Z.of_nat (length ns) <= cap ->
  let heap := fold_left insertMinHeap ns (createMinHeap cap) in
  drain (length ns) heap ≡ₚ ns /\ StronglySorted by_weight (drain (length ns) heap).
Proof.
  intros Hlen heap.
  destruct (inserts_spec cap ns Hlen) as (Hwf & Hsize & _ & Hlive & Hord & _).
  fold heap in Hwf, Hsize, Hlive, Hord.
  destruct (drain_spec (length ns) heap Hwf Hord ltac:(lia)) as (Hperm & Hsorted).
  split; [by rewrite Hperm|done].
Qed.

Lemma heap_drains_by_weight_witness :
  let ns := [createNode 65 2; createNode 66 1; createNode 67 4; createNode 68 1] in
  let heap := fold_left insertMinHeap ns (createMinHeap 4) in
  Z.of_nat (length ns) <= 4
  /\ drain (length ns) heap
     = [createNode 66 1; createNode 68 1; createNode 65 2; createNode 67 4]
  /\ drain (length ns) heap ≡ₚ ns /\ StronglySorted by_weight (drain (length ns) heap).
Proof.
  intros ns heap.
  assert (Hlen : Z.of_nat (length ns) <= 4) by (vm_compute; discriminate).
  split; [exact Hlen|]. split; [reflexivity|].
  exact (heap_drains_by_weight 4 ns Hlen).
Defined.

(** ** The tree that [buildHuffmanTree] returns *)

(** The merging loop ends with one tree.  It keeps every property of the
    trees of the heap that a merge keeps, and the leaves of the forest. *)
Lemma merge_loop_gen {A} (P : HuffmanNode -> Prop) (g : HuffmanNode -> list A) fuel heap :
  (forall t, P t -> is_null t = false) ->
  (forall l r, P l -> P r -> P (merged l r) /\ g (merged l r) = g l ++ g r) ->
  heap_wf heap -> Forall P (live heap) ->
  1 <= size heap -> (Z.to_nat (size heap) <= fuel)%nat ->
  exists heap',
    merge_loop fuel heap = Some heap' /\ heap_wf heap' /\ size heap' = 1
    /\ Forall P (live heap')
    /\ live heap' ≫= g ≡ₚ live heap ≫= g.
Proof.
  intros Hnull Hmerge.
  revert heap. induction fuel as [|fuel IH]; intros heap Hwf HP Hsize Hfuel; [lia|].
  cbn [merge_loop].
  destruct (Z.ltb_spec 1 (size heap)) as [Hlt|Hge].
  2:{ exists heap. split; [done|]. split; [done|]. split; [lia|]. by split. }
  destruct (extractMin_perm heap Hwf ltac:(lia)) as (Hwf1 & Hsz1 & Hcap1 & Hp1).
  destruct (extractMin heap) as [left heap1]. cbn [fst snd] in *.
  destruct (extractMin_perm heap1 Hwf1 ltac:(lia)) as (Hwf2 & Hsz2 & Hcap2 & Hp2).
  destruct (extractMin heap1) as [right heap2]. cbn [fst snd] in *.
  rewrite Hp1, Hp2 in HP.
  apply Forall_cons in HP as [Hl HP]. apply Forall_cons in HP as [Hr HP].
  rewrite (Hnull _ Hl), (Hnull _ Hr). cbn [orb].
  fold (merged left right).
  destruct (Hmerge left right Hl Hr) as [Hm Hg].
  destruct Hwf as [Hrange Hlen].
  destruct (insertMinHeap_perm heap2 (merged left right) Hwf2 ltac:(lia))
    as (Hwf3 & Hsz3 & Hcap3 & Hp3).
  destruct (IH (insertMinHeap heap2 (merged left right)))
    as (heap' & Hloop & Hwf' & Hsz' & HP' & Hp').
  - done.
  - rewrite Hp3. by apply Forall_cons.
  - lia.
  - lia.
  - exists heap'. split; [done|]. split; [done|]. split; [done|]. split; [done|].
    rewrite Hp', Hp3, Hp1, Hp2. rewrite !bind_cons, Hg. by rewrite <- app_assoc.
Qed.

(** With two symbols or more, the tree is the one tree left by the merging
    loop on the heap of the leaves. *)
Lemma buildHuffmanTree_gen {A} (P : HuffmanNode -> Prop) (g : HuffmanNode -> list A) f :
  (forall t, P t -> is_null t = false) ->
  (forall l r, P l -> P r -> P (merged l r) /\ g (merged l r) = g l ++ g r) ->
  (forall i, i ∈ present f -> P (leaf_of f i)) ->
  (2 <= length (present f))%nat ->
  exists t,
    buildHuffmanTree f = (t, []) /\ P t
    /\ g t ≡ₚ (leaf_of f <$> present f) ≫= g.
Proof.
  intros Hnull Hmerge Hleaf Hn. unfold buildHuffmanTree.
  rewrite count_unique_present.
  pose proof (present_length f) as Hlen.
  rewrite (proj2 (Z.eqb_neq _ 0)) by lia.
  rewrite (proj2 (Z.eqb_neq _ 1)) by lia.
  destruct (populate_loop f (seq 0 ASCII_SIZE)
              (createMinHeap (Z.of_nat (length (present f)))))
    as (Hwf & Hcap & Hsz & Hlive).
  { apply createMinHeap_wf. lia. }
  { cbn [size capacity createMinHeap]. unfold present. lia. }
  fold (present f) in Hsz, Hlive. cbn [size createMinHeap] in Hsz.
  rewrite createMinHeap_live, app_nil_r in Hlive.
  change (populate_heap f ?h)
    with (fold_left (fun heap i =>
                       if 0 <? freq_at f i then insertMinHeap heap (leaf_of f i) else heap)
                    (seq 0 ASCII_SIZE) h).
  set (heap := fold_left _ _ _) in *. clearbody heap.
  destruct (merge_loop_gen P g (Z.to_nat (size heap)) heap Hnull Hmerge)
    as (heap' & Hloop & Hwf' & Hsz' & HP' & Hp'); [done| |lia|lia|].
  { rewrite Hlive. apply Forall_fmap, Forall_forall. intros i Hi. by apply Hleaf. }
  rewrite Hloop.
  destruct (extractMin_perm heap' Hwf' ltac:(lia)) as (_ & Hsz1 & _ & Hp1).
  destruct (extractMin heap') as [root heap1]. cbn [fst snd] in *.
  assert (Hlive1 : live heap1 = []).
  { unfold live. rewrite Hsz1, Hsz'. done. }
  rewrite Hlive1 in Hp1. rewrite Hp1 in HP', Hp'.
  rewrite Forall_singleton in HP'.
  exists root. split; [done|]. split; [done|].
  rewrite <- Hlive, <- Hp', bind_cons. cbn. by rewrite app_nil_r.
Qed.

Lemma leaf_weights_leaves f (l : list nat) :
  (leaf_of f <$> l) ≫= leaf_weights
  = (fun i => (to_uchar (Z.of_nat i), freq_at f i)) <$> l.
Proof.
  induction l as [|i l IH]; [done|].
  rewrite !fmap_cons, bind_cons, IH. done.
Qed.

Lemma present_leaf_weights f :
  (fun i => (to_uchar (Z.of_nat i), freq_at f i)) <$> present f
  = (fun i => (Z.of_nat i, freq_at f i)) <$> present f.
Proof.
  apply Forall_fmap_ext_1, Forall_forall. intros i Hi.
  apply elem_of_present in Hi as [Hi _]. unfold ASCII_SIZE in Hi.
  f_equal. apply to_uchar_small. unfold is_byte. lia.
Qed.

Lemma sound_tree_leaf c w : sound_tree (createNode c w).
Proof. done. Qed.

Lemma sound_tree_merged l r :
  sound_tree l -> sound_tree r ->
  sound_tree (merged l r) /\ leaf_weights (merged l r) = leaf_weights l ++ leaf_weights r.
Proof.
  intros (Hl & Hfl & Hwl) (Hr & Hfr & Hwr).
  unfold sound_tree, merged. cbn [is_null full weighted leaf_weights]. rewrite Hl. cbn [andb].
  done.
Qed.

Lemma buildHuffmanTree_sound f :
  (2 <= length (present f))%nat ->
  exists t,
    buildHuffmanTree f = (t, []) /\ sound_tree t /\ is_leaf t = false
    /\ leaf_weights t ≡ₚ (fun i => (Z.of_nat i, freq_at f i)) <$> present f.
Proof.
  intros Hn.
  destruct (buildHuffmanTree_gen sound_tree leaf_weights f) as (t & Hb & Ht & Hleaves).
  - by intros t (? & _).
  - apply sound_tree_merged.
  - intros i _. apply sound_tree_leaf.
  - done.
  - rewrite leaf_weights_leaves, present_leaf_weights in Hleaves.
    exists t. split; [done|]. split; [done|]. split; [|done].
    apply Permutation_length in Hleaves. rewrite length_fmap in Hleaves.
    destruct t as [|c w l r]; [by destruct Ht|]. unfold is_leaf. cbn [left right].
    destruct (is_null l && is_null r) eqn:E; [|done].
    cbn [leaf_weights] in Hleaves. rewrite E in Hleaves. cbn [length] in Hleaves. lia.
Qed.

Lemma present_cases f :
  present f = [] \/ (exists i, present f = [i]) \/ (2 <= length (present f))%nat.
Proof.
  destruct (present f) as [|i [|j l]]; [by left|right; left; by exists i|].
  right. right. cbn [length]. lia.
Qed.

Lemma present_singleton_byte f i : present f = [i] -> to_uchar (Z.of_nat i) = Z.of_nat i.
Proof.
  intros Hp. assert (Hi : i ∈ present f) by (rewrite Hp; left).
  apply elem_of_present in Hi as [Hi _]. unfold ASCII_SIZE in Hi.
  apply to_uchar_small. unfold is_byte. lia.
Qed.

Lemma buildHuffmanTree_none f :
  present f = [] -> buildHuffmanTree f = (NULL, [NoCharacters]).
Proof.
  intros Hp. unfold buildHuffmanTree. by rewrite count_unique_present, Hp.
Qed.

(** X5: [buildHuffmanTree] returns no tree and prints the no-characters
    message when no count is positive.  Otherwise it returns a tree and
    prints nothing; the leaves of the tree are the symbols with a positive
    count, each once and each with its count as weight, and the root is not
    itself a leaf. *)
Theorem buildHuffmanTree_leaves f :
  (present f = [] -> buildHuffmanTree f = (NULL, [NoCharacters]))
  /\ (present f <> [] ->
      exists t,
        buildHuffmanTree f = (t, []) /\ is_null t = false /\ is_leaf t = false
        /\ leaf_weights t ≡ₚ (fun i => (Z.of_nat i, freq_at f i)) <$> present f).
Proof.
  split; [apply buildHuffmanTree_none|]. intros Hne.
  destruct (present_cases f) as [Hp|[[i Hp]|Hn]]; [done| |].
  - rewrite (buildHuffmanTree_single f i Hp). eexists. split; [reflexivity|].
    split; [done|]. split; [done|].
    rewrite Hp. cbn. by rewrite (present_singleton_byte f i Hp).
  - destruct (buildHuffmanTree_sound f Hn) as (t & Hb & (Hnull & _) & Hleaf & Hleaves).
    by exists t.
Qed.

Lemma buildHuffmanTree_leaves_witness :
  let f := <[67%nat := 4]> (<[66%nat := 3]> (<[65%nat := 2]> (replicate 256 0))) in
  present f <> []
  /\ exists t,
       buildHuffmanTree f = (t, []) /\ is_null t = false /\ is_leaf t = false
       /\ leaf_weights t ≡ₚ (fun i => (Z.of_nat i, freq_at f i)) <$> present f.
Proof.
  intros f.
  assert (Hne : present f <> []) by (vm_compute; discriminate).
  split; [exact Hne|].
  exact (proj2 (buildHuffmanTree_leaves f) Hne).
Defined.

Lemma full_single_leaf t : full t -> is_null t = false.
Proof. by destruct t. Qed.

(** X7: when two symbols or more have a positive count, every node of the
    tree is a leaf or has both children; when exactly one has, the tree is
    a root of that weight with the leaf as its left child and no right
    child. *)
Theorem buildHuffmanTree_shape f :
  ((2 <= length (present f))%nat -> full (buildHuffmanTree f).1)
  /\ (forall i, present f = [i] ->
        (buildHuffmanTree f).1
        = Node 0 (freq_at f i) (Node (Z.of_nat i) (freq_at f i) NULL NULL) NULL).
Proof.
  split.
  - intros Hn. destruct (buildHuffmanTree_sound f Hn) as (t & -> & (_ & Hfull & _) & _).
    done.
  - intros i Hp. rewrite (buildHuffmanTree_single f i Hp). cbn [fst].
    unfold leaf_of, createNode. by rewrite (present_singleton_byte f i Hp).
Qed.

Lemma buildHuffmanTree_shape_witness :
  let f := <[67%nat := 4]> (<[66%nat := 3]> (<[65%nat := 2]> (replicate 256 0))) in
  let g := <[65%nat := 8]> (replicate 256 0) in
  (2 <= length (present f))%nat /\ full (buildHuffmanTree f).1
  /\ present g = [65%nat]
  /\ (buildHuffmanTree g).1 = Node 0 8 (Node 65 8 NULL NULL) NULL.
Proof.
  intros f g.
  assert (Hn : (2 <= length (present f))%nat) by (vm_compute; lia).
  assert (Hp : present g = [65%nat]) by reflexivity.
  split; [exact Hn|]. split; [exact (proj1 (buildHuffmanTree_shape f) Hn)|].
  split; [exact Hp|].
  exact (proj2 (buildHuffmanTree_shape g) 65%nat Hp).
Defined.

Lemma total_app a b : total (a ++ b) = total a + total b.
Proof. unfold total. induction a as [|x a IH]; cbn [app foldr]; lia. Qed.

Lemma total_perm a b : a ≡ₚ b -> total a = total b.
Proof. unfold total. induction 1; cbn [foldr]; lia. Qed.

(** The weight of a node is the sum of the weights of the leaves below it,
    as [unsigned int]. *)
Lemma weighted_frequency t :
  weighted t ->
  to_uint (frequency t) = to_uint (total (leaf_weights t).*2).
Proof.
  induction t as [|c w l IHl r IHr]; intros Hw; [done|].
  cbn [weighted leaf_weights frequency] in *.
  destruct (is_null l && is_null r).
  { cbn. f_equal. lia. }
  destruct Hw as (_ & -> & Hwl & Hwr).
  rewrite fmap_app, total_app.
  specialize (IHl Hwl). specialize (IHr Hwr).
  clear -IHl IHr. dlia.
Qed.

Lemma total_present_in f l :
  Forall (fun i => 0 <= freq_at f i) l ->
  total (freq_at f <$> present_in f l) = total (freq_at f <$> l).
Proof.
  induction 1 as [|i l Hi _ IH]; [done|].
  rewrite present_in_cons, (fmap_cons _ i l). unfold total in *. cbn [foldr].
  destruct (Z.ltb_spec 0 (freq_at f i)).
  - rewrite fmap_cons. cbn [foldr]. lia.
  - rewrite IH. lia.
Qed.

Lemma total_present f :
  valid_frequencies f -> total (freq_at f <$> present f) = total f.
Proof.
  intros [Hlen Hrange].
  assert (Hf : freq_at f <$> seq 0 ASCII_SIZE = f).
  { apply list_eq_same_length with ASCII_SIZE; [done|by rewrite length_fmap, length_seq|].
    intros i x y Hi Hx Hy. rewrite list_lookup_fmap, lookup_seq_lt in Hx by done.
    cbn in Hx. injection Hx as <-. unfold freq_at.
    by rewrite (list_lookup_total_correct _ _ _ Hy). }
  unfold present. rewrite total_present_in; [by rewrite Hf|].
  apply Forall_forall. intros i Hi. apply elem_of_seq in Hi.
  assert (Hfi : f !! i = Some (freq_at f i)) by (apply list_lookup_lookup_total_lt; lia).
  pose proof (Forall_lookup_1 _ _ _ _ Hrange Hfi) as Hr. cbn beta in Hr. lia.
Qed.

Lemma buildHuffmanTree_weighted f :
  valid_frequencies f -> present f <> [] ->
  exists t,
    buildHuffmanTree f = (t, []) /\ weighted t /\ is_leaf t = false /\ is_null t = false
    /\ leaf_weights t ≡ₚ (fun i => (Z.of_nat i, freq_at f i)) <$> present f.
Proof.
  intros Hvalid Hne.
  destruct (present_cases f) as [Hp|[[i Hp]|Hn]]; [done| |].
  - rewrite (buildHuffmanTree_single f i Hp). eexists. split; [reflexivity|].
    assert (Hi : i ∈ present f) by (rewrite Hp; left).
    apply (present_nonzero f i Hvalid) in Hi as [Hi _].
    destruct Hvalid as [Hlen Hrange].
    assert (Hfi : f !! i = Some (freq_at f i)).
    { apply list_lookup_lookup_total_lt. unfold ASCII_SIZE in Hlen. lia. }
    pose proof (Forall_lookup_1 _ _ _ _ Hrange Hfi) as Hr. cbn beta in Hr.
    split; [|split; [done|split; [done|]]].
    + cbn. split; [done|]. split; [|done]. rewrite Z.add_0_r. by rewrite to_uint_small.
    + rewrite Hp. cbn. by rewrite (present_singleton_byte f i Hp).
  - destruct (buildHuffmanTree_sound f Hn) as (t & Hb & (Hnull & _ & Hw) & Hleaf & Hleaves).
    by exists t.
Qed.

(** X6: in the tree built for an array of [unsigned int] counts, the weight
    of every inner node is the [unsigned int] sum of the weights of its
    children, and the weight of the root is the sum of all counts, as
    [unsigned int]. *)
Theorem buildHuffmanTree_weights f :
  valid_frequencies f -> present f <> [] ->
  weighted (buildHuffmanTree f).1
  /\ frequency (buildHuffmanTree f).1 = to_uint (total f).
Proof.
  intros Hvalid Hne.
  destruct (buildHuffmanTree_weighted f Hvalid Hne) as (t & -> & Hw & Hleaf & Hnull & Hleaves).
  cbn [fst]. split; [done|].
  pose proof (weighted_frequency t Hw) as Hfreq.
  assert (Htotal : total (leaf_weights t).*2 = total f).
  { rewrite <- (total_present f Hvalid). apply total_perm.
    rewrite Hleaves, <- list_fmap_compose. done. }
  rewrite Htotal in Hfreq. rewrite <- Hfreq.
  destruct t as [|c w l r]; [done|]. unfold is_leaf in Hleaf. cbn [left right] in Hleaf.
  cbn [weighted frequency] in *. rewrite Hleaf in Hw. destruct Hw as (_ & -> & _).
  clear. dlia.
Qed.

Lemma buildHuffmanTree_weights_witness :
  let f := <[67%nat := 4]> (<[66%nat := 3]> (<[65%nat := 2]> (replicate 256 0))) in
  valid_frequencies f /\ present f <> []
  /\ weighted (buildHuffmanTree f).1 /\ frequency (buildHuffmanTree f).1 = 9.
Proof.
  intros f.
  assert (Hf : valid_frequencies f).
  { split; [reflexivity|]. apply (bool_decide_unpack _). vm_compute. exact I. }
  assert (Hne : present f <> []) by (vm_compute; discriminate).
  split; [exact Hf|]. split; [exact Hne|].
  exact (buildHuffmanTree_weights f Hf Hne).
Defined.

(** ** The code table *)

Lemma paths_length_height t c p :
  (c, p) ∈ paths t -> (length p <= height t)%nat.
Proof.
  revert p. induction t as [|ct w l IHl r IHr]; intros p Hin; cbn [paths height] in *.
  { by apply elem_of_nil in Hin. }
  destruct (is_null l && is_null r).
  { apply list_elem_of_singleton in Hin. injection Hin as _ ->. done. }
  apply elem_of_app in Hin as [Hin|Hin];
    apply list_elem_of_fmap in Hin as ([c0 p0] & Heq & Hin);
    cbn [prod_map fst snd id] in Heq; injection Heq as -> ->; cbn [length].
  - specialize (IHl _ Hin). lia.
  - specialize (IHr _ Hin). lia.
Qed.

Lemma code_string_bits p :
  Forall (fun a => a = "0"%char \/ a = "1"%char) (code_string p).
Proof.
  unfold code_string. apply Forall_fmap, Forall_forall. intros [] _; cbn; auto.
Qed.

(** X8: the table that [buildCodeTable] fills from the tree of
    [buildHuffmanTree] has 256 entries; the entry of a symbol that does not
    occur is empty with length 0, and the entry of a symbol that occurs
    holds a string of 1 to 255 characters '0' and '1' whose number is in
    the length field. *)
Theorem buildCodeTable_entries f s :
  valid_frequencies f -> present f <> [] -> (s < 256)%nat ->
  let codes := buildCodeTable (buildHuffmanTree f).1 in
  length codes = 256%nat
  /\ (freq_at f s = 0 -> codes !!! s = CodeEntry.mk [] 0)
  /\ (freq_at f s <> 0 ->
      Forall (fun a => a = "0"%char \/ a = "1"%char) (CodeEntry.code (codes !!! s))
      /\ CodeEntry.length (codes !!! s) = Z.of_nat (length (CodeEntry.code (codes !!! s)))
      /\ 1 <= CodeEntry.length (codes !!! s) <= 255).
Proof.
  intros Hvalid Hne Hs codes.
  destruct (buildHuffmanTree_spec f Hne) as (t & Hb & Hnull & Hleaf & Hsym & Hheight).
  subst codes. rewrite Hb. cbn [fst].
  split; [|split].
  - rewrite buildCodeTable_spec by done. by rewrite assign_codes_length, length_replicate.
  - intros H0. apply (built_code_absent f t Hnull Hleaf Hsym Hheight); [|done].
    rewrite (present_nonzero f s Hvalid). tauto.
  - intros H0.
    assert (Hin : s ∈ present f) by (by apply present_nonzero).
    destruct (built_path f t Hnull Hleaf Hsym s Hin) as (p & Hp & Hpne).
    rewrite (built_code f t Hnull Hleaf Hsym Hheight s p Hp Hs).
    cbn [CodeEntry.code CodeEntry.length].
    split; [apply code_string_bits|]. split.
    + unfold code_string. by rewrite length_fmap.
    + pose proof (paths_length_height t _ p Hp). destruct p; [done|]. cbn [length] in *. lia.
Qed.

Lemma buildCodeTable_entries_witness :
  let f := <[67%nat := 4]> (<[66%nat := 3]> (<[65%nat := 2]> (replicate 256 0))) in
  let codes := buildCodeTable (buildHuffmanTree f).1 in
  length codes = 256%nat
  /\ (freq_at f 65 = 0 -> codes !!! 65%nat = CodeEntry.mk [] 0)
  /\ (freq_at f 65 <> 0 ->
      Forall (fun a => a = "0"%char \/ a = "1"%char) (CodeEntry.code (codes !!! 65%nat))
      /\ CodeEntry.length (codes !!! 65%nat)
         = Z.of_nat (length (CodeEntry.code (codes !!! 65%nat)))
      /\ 1 <= CodeEntry.length (codes !!! 65%nat) <= 255).
Proof.
  intros f.
  assert (Hf : valid_frequencies f).
  { split; [reflexivity|]. apply (bool_decide_unpack _). vm_compute. exact I. }
  assert (Hne : present f <> []) by (vm_compute; discriminate).
  exact (buildCodeTable_entries f 65 Hf Hne ltac:(lia)).
Defined.

(** ** Writing bits and reading them back *)

Lemma write_bits_written file0 bits0 bits st :
  written file0 bits0 st -> written file0 (bits0 ++ bits) (write_bits bits st).
Proof.
  unfold write_bits. revert bits0 st.
  induction bits as [|b bits IH]; intros bits0 st Hst; cbn [fold_left].
  { by rewrite app_nil_r. }
  rewrite (cons_middle b), app_assoc. apply IH. by apply writeBit_written.
Qed.

Lemma pending_bits_nil cb bp inp :
  pending_bits cb bp inp = [] -> bp = 0%nat /\ inp = [].
Proof.
  unfold pending_bits. intros H. apply app_eq_nil in H as [H1 H2].
  split.
  - destruct bp; [done|]. discriminate H1.
  - destruct inp as [|b inp]; [done|].
    apply (f_equal length) in H2. rewrite bits_of_bytes_length in H2. cbn in H2. lia.
Qed.

Lemma read_bits_pending bs :
  forall cb bp inp,
    pending_bits cb bp inp = bs ->
    read_bits (S (length bs)) inp cb (Z.of_nat bp) = (Z.b2z <$> bs) ++ [-1].
Proof.
  induction bs as [|b bs IH]; intros cb bp inp Hbits.
  - apply pending_bits_nil in Hbits as [-> ->]. reflexivity.
  - destruct (readBit_pending inp cb bp b bs Hbits) as (inp' & cb' & bp' & Hread & Hrest).
    cbn [length]. change (read_bits (S (S (length bs))) inp cb (Z.of_nat bp))
      with (let '(bit, file, currentByte, bitPosition) := readBit inp cb (Z.of_nat bp) in
            bit :: read_bits (S (length bs)) file currentByte bitPosition).
    rewrite Hread. rewrite (IH cb' bp' inp' Hrest). reflexivity.
Qed.

(** X9: bits written with [writeBit] and completed with [flushBits] fill
    the smallest number of bytes that holds them; [readBit] then returns
    them in the order in which they were written, then a 0 for each of the
    fewer than eight bits that complete the last byte, then -1. *)
Theorem readBit_writeBit_roundtrip bits :
  let file := flushBits (write_bits bits ([], mkBitBuffer 0 0)).1
                        (write_bits bits ([], mkBitBuffer 0 0)).2 in
  exists k,
    (k < 8)%nat
    /\ (8 * length file = length bits + k)%nat
    /\ read_bits (S (8 * length file)) file 0 0
       = (Z.b2z <$> bits) ++ replicate k 0 ++ [-1].
Proof.
  intros file.
  pose proof (write_bits_written [] [] bits _ (written_start [])) as Hw.
  cbn [app] in Hw.
  destruct (flushBits_written _ _ _ Hw) as (payload & k & Hflush & Hk & Hbits).
  cbn [app] in Hflush. subst file. rewrite Hflush.
  assert (Hlen : (8 * length payload = length bits + k)%nat).
  { rewrite <- bits_of_bytes_length, Hbits, length_app, length_replicate. done. }
  exists k. split; [done|]. split; [done|].
  pose proof (read_bits_pending (bits ++ replicate k false) 0 0%nat payload) as Hread.
  rewrite length_app, length_replicate, <- Hlen in Hread.
  change (Z.of_nat 0) with 0 in Hread.
  rewrite Hread by (unfold pending_bits; cbn [low_bits app]; done).
  rewrite fmap_app, fmap_replicate, <- app_assoc. reflexivity.
Qed.

(** ** The container: header and frequency table *)

Lemma fwrite_fread_uint file v rest :
  Forall is_byte file ->
  fread_uint file = Some (v, rest) -> file = fwrite_uint [] v ++ rest.
Proof.
  unfold fread_uint, fwrite_uint. intros Hb H.
  do 4 (destruct file as [|? file]; try discriminate).
  apply Forall_cons in Hb as [H0 Hb]. apply Forall_cons in Hb as [H1 Hb].
  apply Forall_cons in Hb as [H2 Hb]. apply Forall_cons in Hb as [H3 Hb].
  rewrite !to_uchar_small in H by done.
  injection H as <- <-. cbn [app]. unfold is_byte in *.
  repeat f_equal; clear Hb; Z.to_euclidean_division_equations; lia.
Qed.

Lemma fread_uint_bytes file v rest :
  Forall is_byte file -> fread_uint file = Some (v, rest) -> Forall is_byte rest.
Proof.
  unfold fread_uint. intros Hb H.
  do 4 (destruct file as [|? file]; try discriminate).
  injection H as _ <-. by do 4 apply Forall_cons in Hb as [_ Hb].
Qed.

(** X10: [readFileHeader] is the inverse of [writeFileHeader]: it returns
    the header [h] and leaves the stream at [rest] exactly when the file is
    the 17 bytes that [writeFileHeader] emits for [h], followed by [rest],
    and [h] holds the magic constant and field values of the width of
    their fields. *)
Theorem readFileHeader_inverse file h rest :
  Forall is_byte file ->
  readFileHeader file = Ok (h, rest)
  <-> file = writeFileHeader [] h ++ rest
      /\ length (writeFileHeader [] h) = 17%nat
      /\ magic h = MAGIC_NUMBER
      /\ 0 <= original_size h < 2 ^ 32
      /\ 0 <= compressed_size h < 2 ^ 32
      /\ 0 <= frequency_count h < 2 ^ 32
      /\ 0 <= padding_bits h < 256.
Proof.
  intros Hb. split.
  - unfold readFileHeader. intros H.
    destruct (fread_uint file) as [[m f1]|] eqn:E1; [|discriminate].
    destruct (fread_uint f1) as [[o f2]|] eqn:E2; [|discriminate].
    destruct (fread_uint f2) as [[c f3]|] eqn:E3; [|discriminate].
    destruct (fread_uint f3) as [[n f4]|] eqn:E4; [|discriminate].
    destruct (fread_uchar f4) as [[p f5]|] eqn:E5; [|discriminate].
    destruct (Z.eqb_spec m MAGIC_NUMBER) as [Hm|Hm]; [|discriminate].
    cbn [negb] in H. injection H as <- <-.
    cbn [magic original_size compressed_size frequency_count padding_bits].
    pose proof (fread_uint_bytes _ _ _ Hb E1) as Hb1.
    pose proof (fread_uint_bytes _ _ _ Hb1 E2) as Hb2.
    pose proof (fread_uint_bytes _ _ _ Hb2 E3) as Hb3.
    pose proof (fread_uint_bytes _ _ _ Hb3 E4) as Hb4.
    pose proof (fread_uint_range _ _ _ E2). pose proof (fread_uint_range _ _ _ E3).
    pose proof (fread_uint_range _ _ _ E4).
    apply (fwrite_fread_uint _ _ _ Hb) in E1. apply (fwrite_fread_uint _ _ _ Hb1) in E2.
    apply (fwrite_fread_uint _ _ _ Hb2) in E3. apply (fwrite_fread_uint _ _ _ Hb3) in E4.
    destruct f4 as [|b f4]; [discriminate|]. cbn [fread_uchar] in E5.
    apply Forall_cons in Hb4 as [Hbp _].
    rewrite to_uchar_small in E5 by done. injection E5 as <- <-.
    split; [|unfold is_byte in Hbp; repeat split; try lia; done].
    unfold writeFileHeader. cbn [magic original_size compressed_size frequency_count
                                   padding_bits].
    rewrite (fwrite_uint_app _ n), (fwrite_uint_app _ c), (fwrite_uint_app _ o).
    rewrite to_uchar_small by done.
    rewrite <- !app_assoc. cbn [app]. rewrite E1, E2, E3, E4. reflexivity.
  - intros (-> & _ & Hm & Ho & Hc & Hn & Hp).
    rewrite readFileHeader_writeFileHeader.
    rewrite !to_uint_small, to_uchar_small by (done || (rewrite Hm; done)).
    rewrite Hm. change (negb (MAGIC_NUMBER =? MAGIC_NUMBER)) with false. cbv iota.
    destruct h; cbn in *. by rewrite Hm.
Qed.

Lemma readFileHeader_inverse_witness :
  let file := [70; 70; 85; 72; 9; 0; 0; 0; 2; 0; 0; 0; 3; 0; 0; 0; 0; 65; 2] in
  Forall is_byte file
  /\ readFileHeader file = Ok (mkFileHeader MAGIC_NUMBER 9 2 3 0, [65; 2]).
Proof.
  intros file.
  assert (Hb : Forall is_byte file).
  { unfold file. repeat apply Forall_cons_2; try apply Forall_nil_2; unfold is_byte; lia. }
  split; [exact Hb|].
  apply (readFileHeader_inverse file (mkFileHeader MAGIC_NUMBER 9 2 3 0) [65; 2] Hb).
  cbn [magic original_size compressed_size frequency_count padding_bits].
  repeat split; lia.
Defined.

(** X11: on a file of fewer than 17 bytes, whatever they are,
    [readFileHeader] fails without a message, and [decompressFile] returns
    -1 with nothing printed and leaves the output file unopened. *)
Theorem decompressFile_short_file file :
  (length file < 17)%nat ->
  readFileHeader file = Err [] /\ decompressFile file = Exit (-1) [] None.
Proof.
  intros Hlen.
  assert (H : readFileHeader file = Err []).
  { do 17 (destruct file as [|? file]; [reflexivity|]). cbn [length] in Hlen. lia. }
  split; [done|]. unfold decompressFile. by rewrite H.
Qed.

Lemma decompressFile_short_file_witness :
  let file := [70; 70; 85; 72; 9; 0; 0; 0; 2; 0; 0; 0; 3; 0; 0; 0] in
  (length file < 17)%nat
  /\ readFileHeader file = Err [] /\ decompressFile file = Exit (-1) [] None.
Proof.
  intros file. split; [cbn; lia|].
  apply (decompressFile_short_file file). cbn. lia.
Defined.

Lemma readFrequencies_loop_truncated fuel :
  forall file g i count,
    0 <= i -> count < 2 ^ 31 ->
    Z.of_nat (length file) < 5 * (count - i) ->
    (length file < fuel)%nat ->
    readFrequencies_loop fuel file g i count
    = Err [if decide (length file `mod` 5 = 0)%nat then FreqEOF else FreqReadFailed].
Proof.
  induction fuel as [|fuel IH]; intros file g i count Hi Hcount Hlen Hfuel; [lia|].
  cbn [readFrequencies_loop].
  rewrite (proj2 (Z.ltb_lt i count)) by lia.
  destruct file as [|ch file]; [reflexivity|].
  destruct file as [|b0 [|b1 [|b2 [|b3 file]]]]; try reflexivity.
  cbn [fread_uint].
  rewrite IH; cbn [length] in *.
  - f_equal. f_equal.
    change (S (S (S (S (S (length file)))))) with (5 + length file)%nat.
    replace (5 + length file)%nat with (length file + 1 * 5)%nat by lia.
    by rewrite Nat.Div0.mod_add.
  - rewrite to_int_small by (ints; lia). lia.
  - done.
  - rewrite to_int_small by (ints; lia). lia.
  - lia.
Qed.

(** X12: when the header announces [n] frequency records and fewer than
    [5 n] bytes follow it, [decompressFile] returns -1 and never opens the
    output file; it reports an unexpected end of file when the bytes end
    between two records, and a failed read when they end inside one. *)
Theorem decompressFile_truncated_table h body :
  magic h = MAGIC_NUMBER ->
  0 <= frequency_count h < 2 ^ 31 ->
  Z.of_nat (length body) < 5 * frequency_count h ->
  decompressFile (writeFileHeader [] h ++ body)
  = Exit (-1) [if decide (length body `mod` 5 = 0)%nat then FreqEOF else FreqReadFailed] None.
Proof.
  intros Hm Hn Hlen. unfold decompressFile.
  rewrite readFileHeader_writeFileHeader, Hm.
  change (negb (to_uint MAGIC_NUMBER =? MAGIC_NUMBER)) with false. cbv iota.
  cbn [frequency_count].
  rewrite (to_uint_small (frequency_count h)) by (ints; lia).
  rewrite to_int_small by (ints; lia).
  unfold readFrequencies.
  rewrite readFrequencies_loop_truncated; [done|lia|lia|lia|lia].
Qed.

Lemma decompressFile_truncated_table_witness :
  let h := mkFileHeader MAGIC_NUMBER 9 2 3 0 in
  magic h = MAGIC_NUMBER /\ 0 <= frequency_count h < 2 ^ 31
  /\ decompressFile (writeFileHeader [] h ++ [65; 2; 0; 0; 0; 66; 3; 0; 0; 0])
     = Exit (-1) [FreqEOF] None
  /\ decompressFile (writeFileHeader [] h ++ [65; 2; 0; 0; 0; 66; 3; 0])
     = Exit (-1) [FreqReadFailed] None.
Proof.
  intros h.
  assert (Hm : magic h = MAGIC_NUMBER) by reflexivity.
  assert (Hn : 0 <= frequency_count h < 2 ^ 31) by (cbn; lia).
  split; [exact Hm|]. split; [exact Hn|]. split.
  - apply (decompressFile_truncated_table h [65; 2; 0; 0; 0; 66; 3; 0; 0; 0] Hm Hn).
    cbn. lia.
  - apply (decompressFile_truncated_table h [65; 2; 0; 0; 0; 66; 3; 0] Hm Hn).
    cbn. lia.
Defined.

Lemma readFrequencies_none file count :
  count <= 0 -> readFrequencies file count = Ok (replicate ASCII_SIZE 0, file).
Proof.
  intros Hc. unfold readFrequencies. cbn [readFrequencies_loop].
  by rewrite (proj2 (Z.ltb_ge 0 count)) by lia.
Qed.

(** X13: an archive whose header announces no frequency record, or a
    number of them that is negative once converted to [int], is rejected
    whatever follows the header: the table is left empty, no tree can be
    built, and [decompressFile] returns -1 without opening the output
    file. *)
Theorem decompressFile_no_symbols h body :
  magic h = MAGIC_NUMBER ->
  frequency_count h = 0 \/ 2 ^ 31 <= frequency_count h < 2 ^ 32 ->
  decompressFile (writeFileHeader [] h ++ body)
  = Exit (-1) [NoCharacters; RebuildFailed] None.
Proof.
  intros Hm Hn. unfold decompressFile.
  rewrite readFileHeader_writeFileHeader, Hm.
  change (negb (to_uint MAGIC_NUMBER =? MAGIC_NUMBER)) with false. cbv iota.
  cbn [frequency_count].
  rewrite readFrequencies_none.
  - assert (Hb : buildHuffmanTree (replicate ASCII_SIZE 0) = (NULL, [NoCharacters]))
      by (vm_compute; reflexivity).
    rewrite Hb. reflexivity.
  - destruct Hn as [->|Hn]; [done|].
    rewrite (to_uint_small (frequency_count h)) by (ints; lia). clear -Hn. dlia.
Qed.

Lemma decompressFile_no_symbols_witness :
  let h := mkFileHeader MAGIC_NUMBER 9 2 (2 ^ 32 - 1) 0 in
  magic h = MAGIC_NUMBER
  /\ (frequency_count h = 0 \/ 2 ^ 31 <= frequency_count h < 2 ^ 32)
  /\ decompressFile (writeFileHeader [] h ++ [65; 2; 0; 0; 0; 175])
     = Exit (-1) [NoCharacters; RebuildFailed] None.
Proof.
  intros h.
  assert (Hm : magic h = MAGIC_NUMBER) by reflexivity.
  assert (Hn : frequency_count h = 0 \/ 2 ^ 31 <= frequency_count h < 2 ^ 32)
    by (right; cbn; lia).
  split; [exact Hm|]. split; [exact Hn|].
  exact (decompressFile_no_symbols h [65; 2; 0; 0; 0; 175] Hm Hn).
Defined.

(** ** What the decoder writes *)

Lemma decode_loop_size fuel root osz :
  is_null root = false ->
  osz < 2 ^ 32 ->
  forall cur cb bp d inp out,
    Z.of_nat (length out) = to_uint d -> to_uint d <= osz ->
    let r := decode_loop fuel root osz cur cb bp d inp out in
    Z.of_nat (length r.2) <= osz
    /\ (r.1 = SizeReached -> Z.of_nat (length r.2) = osz)
    /\ (r.1 <> SizeReached -> r.1 <> OutOfFuel -> Z.of_nat (length r.2) < osz).
Proof.
  intros Hroot Hosz.
  induction fuel as [|fuel IH]; intros cur cb bp d inp out Hd Hle; cbn [decode_loop].
  { cbn. split; [lia|]. split; [done|]. done. }
  destruct (Z.ltb_spec (to_uint d) osz) as [Hlt|Hge].
  2:{ cbn. split; [lia|]. split; [lia|done]. }
  destruct (readBit inp cb bp) as [[[bit inp'] cb'] bp'].
  destruct (bit =? -1).
  { cbn. split; [lia|]. split; [done|]. lia. }
  destruct cur as [|c f l r].
  { cbn. split; [lia|]. split; [done|]. lia. }
  destruct (if bit =? 0 then l else r) as [|c' f' l' r'].
  { cbn. split; [lia|]. split; [done|]. lia. }
  destruct (is_null l' && is_null r').
  - rewrite Hroot. apply IH.
    + rewrite length_app, to_uint_to_int. cbn [length].
      rewrite Nat2Z.inj_add, Hd. change (Z.of_nat 1) with 1. clear IH. dlia.
    + rewrite to_uint_to_int. clear IH Hd. dlia.
  - cbn [is_null]. by apply IH.
Qed.

(** X14: for every tree, input and size that fits the 32-bit header field,
    [decodeAndWrite] never writes more than [originalSize] bytes, and it
    writes exactly that many when, and only when, it leaves its loop on the
    loop condition rather than on the end of the input or on a missing
    child. *)
Theorem decodeAndWrite_output_size inputFile root originalSize paddingBits :
  is_null root = false ->
  0 <= originalSize < 2 ^ 32 ->
  let r := decodeAndWrite inputFile [] root originalSize paddingBits in
  Z.of_nat (length r.2) <= originalSize
  /\ (r.1 = SizeReached <-> Z.of_nat (length r.2) = originalSize).
Proof.
  intros Hroot Hosz r.
  pose proof (decodeAndWrite_not_OutOfFuel inputFile [] root originalSize paddingBits) as Hfuel.
  fold r in Hfuel. subst r. unfold decodeAndWrite in *. rewrite Hroot in *.
  destruct (decode_loop_size (S (8 * length inputFile)) root originalSize Hroot (proj2 Hosz)
              root 0 0 0 inputFile [] eq_refl ltac:(rewrite to_uint_small; ints; lia))
    as (Hle & Heq & Hlt).
  split; [exact Hle|]. split; [exact Heq|].
  intros Hlen.
  destruct (decode_loop _ _ _ _ _ _ _ _ _) as [e out]. cbn [fst snd] in *.
  destruct e; try done; specialize (Hlt ltac:(done) Hfuel); lia.
Qed.

Lemma decodeAndWrite_output_size_witness :
  let root := Node 0 9 (Node 67 4 NULL NULL)
                   (Node 0 5 (Node 65 2 NULL NULL) (Node 66 3 NULL NULL)) in
  is_null root = false /\ 0 <= 9 < 2 ^ 32
  /\ decodeAndWrite [175; 192] [] root 9 0 = (SizeReached, [65; 65; 66; 66; 66; 67; 67; 67; 67])
  /\ Z.of_nat (length (decodeAndWrite [175; 192] [] root 9 0).2) <= 9.
Proof.
  intros root.
  assert (Hroot : is_null root = false) by reflexivity.
  assert (Hosz : 0 <= 9 < 2 ^ 32) by lia.
  split; [exact Hroot|]. split; [exact Hosz|]. split; [reflexivity|].
  exact (proj1 (decodeAndWrite_output_size [175; 192] root 9 0 Hroot Hosz)).
Defined.

Lemma readFileHeader_err file err :
  readFileHeader file = Err err -> err = [] \/ err = [MagicMismatch].
Proof.
  unfold readFileHeader.
  destruct (fread_uint file) as [[m f1]|]; [|intros [= <-]; by left].
  destruct (fread_uint f1) as [[o f2]|]; [|intros [= <-]; by left].
  destruct (fread_uint f2) as [[c f3]|]; [|intros [= <-]; by left].
  destruct (fread_uint f3) as [[n f4]|]; [|intros [= <-]; by left].
  destruct (fread_uchar f4) as [[p f5]|]; [|intros [= <-]; by left].
  destruct (negb (m =? MAGIC_NUMBER)); [intros [= <-]; by right|done].
Qed.

Lemma readFrequencies_loop_err fuel file g i count err :
  readFrequencies_loop fuel file g i count = Err err ->
  err = [FreqEOF] \/ err = [FreqReadFailed].
Proof.
  revert file g i.
  induction fuel as [|fuel IH]; intros file g i; cbn [readFrequencies_loop].
  { intros [= <-]. by left. }
  destruct (i <? count); [|done].
  destruct file as [|ch file]; [intros [= <-]; by left|].
  destruct (fread_uint file) as [[v file']|]; [|intros [= <-]; by right].
  apply IH.
Qed.

Lemma buildHuffmanTree_outcomes f :
  buildHuffmanTree f = (NULL, [NoCharacters])
  \/ exists t, buildHuffmanTree f = (t, []) /\ is_null t = false /\ is_leaf t = false
               /\ symbols t ≡ₚ Z.of_nat <$> present f
               /\ (full t \/ exists i, present f = [i]).
Proof.
  destruct (present_cases f) as [Hp|[[i Hp]|Hn]].
  - left. by apply buildHuffmanTree_none.
  - right. destruct (buildHuffmanTree_spec f) as (t & Hb & Hnull & Hleaf & Hsym & _).
    { by rewrite Hp. }
    exists t. repeat split; try done. right. by exists i.
  - right. destruct (buildHuffmanTree_spec f) as (t & Hb & Hnull & Hleaf & Hsym & _).
    { destruct (present f); [cbn in Hn; lia|done]. }
    destruct (buildHuffmanTree_sound f Hn) as (t' & Hb' & (_ & Hfull & _) & _).
    rewrite Hb in Hb'. injection Hb' as <-.
    exists t. repeat split; try done. by left.
Qed.

Lemma full_not_null t : full t -> is_null t = false.
Proof. by destruct t. Qed.

(** On a tree in which every inner node has two children the decoder never
    follows a missing child. *)
Lemma decode_loop_full fuel root osz :
  full root -> is_leaf root = false ->
  forall cur cb bp d inp out,
    full cur -> is_leaf cur = false ->
    (decode_loop fuel root osz cur cb bp d inp out).1 <> NullDeref.
Proof.
  intros Hroot Hrleaf.
  induction fuel as [|fuel IH]; intros cur cb bp d inp out Hcur Hleaf; cbn [decode_loop];
    [done|].
  destruct (to_uint d <? osz); [|done].
  destruct (readBit inp cb bp) as [[[bit inp'] cb'] bp'].
  destruct (bit =? -1); [done|].
  destruct cur as [|c f l r]; [done|].
  unfold is_leaf in Hleaf. cbn [left right full] in Hleaf, Hcur.
  rewrite Hleaf in Hcur. destruct Hcur as [Hl Hr].
  assert (Hnext : full (if bit =? 0 then l else r)) by (by destruct (bit =? 0)).
  destruct (if bit =? 0 then l else r) as [|c' f' l' r']; [done|].
  destruct (is_null l' && is_null r') eqn:Hleaf'.
  - rewrite (full_not_null root Hroot). by apply IH.
  - cbn [is_null]. by apply IH.
Qed.

(** X15: whatever the input file, [decompressFile] ends in one of seven
    ways: it returns -1 without opening the output file, after printing
    nothing (header too short), the magic-mismatch message, one of the two
    messages of the frequency table, or the two messages of an empty table;
    or it opens the output file, prints nothing and either returns 0 or
    reads a field of a null pointer.  The messages for a failed extraction
    and for an invalid bit sequence are never printed. *)
Theorem decompressFile_outcomes file :
  (exists err,
     decompressFile file = Exit (-1) err None
     /\ err ∈ [[]; [MagicMismatch]; [FreqEOF]; [FreqReadFailed];
               [NoCharacters; RebuildFailed]])
  \/ (exists out, decompressFile file = Exit 0 [] (Some out))
  \/ (exists out, decompressFile file = Crash [] (Some out)).
Proof.
  unfold decompressFile.
  destruct (readFileHeader file) as [[h rest]|err] eqn:Hh.
  2:{ left. exists err. split; [done|].
      destruct (readFileHeader_err _ _ Hh) as [-> | ->]; repeat constructor. }
  destruct (readFrequencies rest (to_int (frequency_count h))) as [[f payload]|err] eqn:Hf.
  2:{ left. exists err. split; [done|].
      destruct (readFrequencies_loop_err _ _ _ _ _ _ Hf) as [-> | ->]; repeat constructor. }
  destruct (buildHuffmanTree_outcomes f) as [Hb|(t & Hb & Hnull & _)]; rewrite Hb.
  { left. eexists. split; [reflexivity|]. repeat constructor. }
  rewrite Hnull.
  pose proof (decodeAndWrite_not_Desync payload [] t (original_size h) (padding_bits h)) as Hd.
  destruct (decodeAndWrite payload [] t (original_size h) (padding_bits h)) as [e out].
  right. destruct e; try (left; by exists out); right; by exists out.
Qed.

(** X16: [decompressFile] reads a field of a null pointer only on an
    archive that it could parse and whose frequency table has exactly one
    symbol with a nonzero count. *)
Theorem decompressFile_crash_single_symbol file err out :
  decompressFile file = Crash err out ->
  exists h rest f payload i,
    readFileHeader file = Ok (h, rest)
    /\ readFrequencies rest (to_int (frequency_count h)) = Ok (f, payload)
    /\ present f = [i].
Proof.
  unfold decompressFile.
  destruct (readFileHeader file) as [[h rest]|e0] eqn:Hh; [|done].
  destruct (readFrequencies rest (to_int (frequency_count h))) as [[f payload]|e1] eqn:Hf;
    [|done].
  destruct (buildHuffmanTree_outcomes f) as [Hb|(t & Hb & Hnull & Hleaf & _ & Hshape)];
    rewrite Hb; [done|].
  rewrite Hnull.
  destruct Hshape as [Hfull|[i Hi]].
  - pose proof (decode_loop_full (S (8 * length payload)) t (original_size h) Hfull Hleaf
                  t 0 0 0 payload [] Hfull Hleaf) as Hd.
    unfold decodeAndWrite. rewrite Hnull.
    destruct (decode_loop _ _ _ _ _ _ _ _ _) as [e o]. by destruct e.
  - intros _. by exists h, rest, f, payload, i.
Qed.

Lemma decompressFile_crash_single_symbol_witness :
  let file := [70; 70; 85; 72; 8; 0; 0; 0; 1; 0; 0; 0; 1; 0; 0; 0; 0;
               65; 8; 0; 0; 0; 128] in
  decompressFile file = Crash [] (Some [])
  /\ exists h rest f payload i,
       readFileHeader file = Ok (h, rest)
       /\ readFrequencies rest (to_int (frequency_count h)) = Ok (f, payload)
       /\ present f = [i].
Proof.
  intros file.
  assert (H : decompressFile file = Crash [] (Some [])) by reflexivity.
  split; [exact H|].
  exact (decompressFile_crash_single_symbol file [] (Some []) H).
Defined.

(** Every byte that the loop writes is the character of a leaf of the
    tree. *)
Lemma decode_loop_symbols fuel root osz (P : Z -> Prop) :
  (forall c, c ∈ symbols root -> P (to_uchar c)) ->
  forall cur cb bp d inp out,
    (forall c, c ∈ symbols cur -> c ∈ symbols root) ->
    Forall P out ->
    Forall P (decode_loop fuel root osz cur cb bp d inp out).2.
Proof.
  intros HP.
  induction fuel as [|fuel IH]; intros cur cb bp d inp out Hcur Hout; cbn [decode_loop];
    [done|].
  destruct (to_uint d <? osz); [|done].
  destruct (readBit inp cb bp) as [[[bit inp'] cb'] bp'].
  destruct (bit =? -1); [done|].
  destruct cur as [|c f l r]; [done|].
  assert (Hnext : forall c0, c0 ∈ symbols (if bit =? 0 then l else r) -> c0 ∈ symbols root).
  { intros c0 Hc0. apply Hcur.
    destruct (is_null l && is_null r) eqn:Hleaf.
    - apply andb_true_iff in Hleaf as [Hl Hr].
      destruct l; [|done]. destruct r; [|done]. destruct (bit =? 0); by apply elem_of_nil in Hc0.
    - rewrite symbols_node by done. apply elem_of_app. destruct (bit =? 0); [by left|by right]. }
  destruct (if bit =? 0 then l else r) as [|c' f' l' r']; [done|].
  destruct (is_null l' && is_null r') eqn:Hleaf'.
  - assert (Hc' : P (to_uchar c')).
    { apply HP, Hnext. unfold symbols. cbn [paths]. rewrite Hleaf'. cbn. left. }
    destruct (is_null root).
    + cbn. apply Forall_app. split; [done|]. by apply Forall_singleton.
    + apply IH; [done|]. apply Forall_app. split; [done|]. by apply Forall_singleton.
  - cbn [is_null]. by apply IH.
Qed.

(** X17: whatever the payload, every byte that [decompressFile] writes to
    its output file is a symbol that the frequency table of the archive
    lists with a nonzero count. *)
Theorem decompressFile_output_listed file h rest f payload :
  readFileHeader file = Ok (h, rest) ->
  readFrequencies rest (to_int (frequency_count h)) = Ok (f, payload) ->
  Forall (fun b => is_byte b /\ 0 < freq_at f (Z.to_nat b)) (written_bytes (decompressFile file)).
Proof.
  intros Hh Hf. unfold decompressFile. rewrite Hh, Hf.
  destruct (buildHuffmanTree_outcomes f) as [Hb|(t & Hb & Hnull & _ & Hsym & _)]; rewrite Hb.
  { cbn. done. }
  rewrite Hnull.
  pose proof (decode_loop_symbols (S (8 * length payload)) t (original_size h)
                (fun b => is_byte b /\ 0 < freq_at f (Z.to_nat b))) as Hd.
  unfold decodeAndWrite. rewrite Hnull.
  specialize (Hd ltac:(
    intros c Hc; rewrite Hsym in Hc;
    apply list_elem_of_fmap in Hc as (i & -> & Hi);
    apply elem_of_present in Hi as [Hi Hpos]; unfold ASCII_SIZE in Hi;
    rewrite to_uchar_small by (unfold is_byte; lia);
    rewrite Nat2Z.id; unfold is_byte; split; [lia|done])
    t 0 0 0 payload [] ltac:(done) ltac:(done)).
  destruct (decode_loop _ _ _ _ _ _ _ _ _) as [e out]. cbn [snd] in Hd.
  by destruct e.
Qed.

Lemma decompressFile_output_listed_witness :
  let file := [70; 70; 85; 72; 9; 0; 0; 0; 2; 0; 0; 0; 3; 0; 0; 0; 0;
               65; 2; 0; 0; 0; 66; 3; 0; 0; 0; 67; 4; 0; 0; 0; 255; 0] in
  let f := <[67%nat := 4]> (<[66%nat := 3]> (<[65%nat := 2]> (replicate 256 0))) in
  readFileHeader file = Ok (mkFileHeader MAGIC_NUMBER 9 2 3 0, drop 17 file)
  /\ readFrequencies (drop 17 file) 3 = Ok (f, [255; 0])
  /\ Forall (fun b => is_byte b /\ 0 < freq_at f (Z.to_nat b))
            (written_bytes (decompressFile file)).
Proof.
  intros file f.
  assert (Hh : readFileHeader file = Ok (mkFileHeader MAGIC_NUMBER 9 2 3 0, drop 17 file))
    by reflexivity.
  assert (Hf : readFrequencies (drop 17 file)
                 (to_int (frequency_count (mkFileHeader MAGIC_NUMBER 9 2 3 0)))
               = Ok (f, [255; 0])) by reflexivity.
  split; [exact Hh|]. split; [exact Hf|].
  exact (decompressFile_output_listed file _ _ f [255; 0] Hh Hf).
Defined.

(** ** The counting pass and the archive *)

Lemma count_loop_wrap x :
  Forall is_byte x ->
  forall f n,
    valid_frequencies f ->
    exists f',
      (fold_left count_step x (f, n)).1 = f'
      /\ valid_frequencies f'
      /\ forall k, (k < 256)%nat -> freq_at f' k = to_uint (freq_at f k + occurrences x k).
Proof.
  induction 1 as [|b x Hb Hx IH]; intros f n Hf.
  { exists f. split; [done|]. split; [done|]. intros k Hk.
    rewrite occurrences_nil, Z.add_0_r. destruct Hf as [Hlen Hrange].
    assert (Hfk : f !! k = Some (freq_at f k)).
    { apply list_lookup_lookup_total_lt. unfold ASCII_SIZE in Hlen. lia. }
    pose proof (Forall_lookup_1 _ _ _ _ Hrange Hfk) as Hr. cbn beta in Hr.
    by rewrite to_uint_small. }
  cbn [fold_left count_step].
  rewrite to_uchar_small by done.
  assert (Hbk : (Z.to_nat b < 256)%nat) by (unfold is_byte in Hb; lia).
  destruct Hf as [Hlen Hrange].
  destruct (IH (<[Z.to_nat b := to_uint (freq_at f (Z.to_nat b) + 1)]> f) (to_int (n + 1)))
    as (f' & Hfold & Hvalid' & Hf').
  { split; [by rewrite length_insert|].
    apply Forall_insert; [done|]. apply to_uint_range. }
  exists f'. split; [done|]. split; [done|].
  intros k Hk. rewrite (Hf' k Hk), occurrences_cons. unfold freq_at.
  destruct (decide (k = Z.to_nat b)) as [->|Hne].
  - rewrite list_lookup_total_insert_eq by (unfold ASCII_SIZE in Hlen; lia).
    rewrite decide_True by (unfold is_byte in Hb; lia).
    generalize (f !!! Z.to_nat b) (occurrences x (Z.to_nat b)). clear. intros. dlia.
  - rewrite list_lookup_total_insert_ne by done.
    rewrite decide_False by (unfold is_byte in Hb; lia). done.
Qed.

(** X18: the counting pass of [calculateFrequencies] leaves in every cell
    the number of occurrences of its byte, as [unsigned int], so the exact
    number below 2^32; it returns the length of the input as [int], so the
    exact length below 2^31, except that a length that converts to 0
    gives -1 and the empty-input message. *)
Theorem calculateFrequencies_counts x :
  Forall is_byte x ->
  exists f,
    calculateFrequencies x
    = (if decide (to_int (Z.of_nat (length x)) = 0) then -1
       else to_int (Z.of_nat (length x)),
       f,
       if decide (to_int (Z.of_nat (length x)) = 0) then [EmptyInput] else [])
    /\ valid_frequencies f
    /\ (forall k, (k < 256)%nat -> freq_at f k = to_uint (occurrences x k))
    /\ (Z.of_nat (length x) < 2 ^ 31 ->
        to_int (Z.of_nat (length x)) = Z.of_nat (length x)
        /\ forall k, (k < 256)%nat -> freq_at f k = occurrences x k).
Proof.
  intros Hx.
  assert (H0 : valid_frequencies (replicate ASCII_SIZE 0)).
  { split; [apply length_replicate|]. apply Forall_replicate. ints. lia. }
  destruct (count_loop_wrap x Hx (replicate ASCII_SIZE 0) 0 H0) as (f & Hfold & Hvalid & Hf).
  pose proof (count_loop_size x (replicate ASCII_SIZE 0) 0 ltac:(ints; lia)) as Hsize.
  rewrite Z.add_0_l in Hsize.
  assert (Hocc : forall k, (k < 256)%nat -> freq_at f k = to_uint (occurrences x k)).
  { intros k Hk. rewrite (Hf k Hk). unfold freq_at at 1.
    rewrite (list_lookup_total_correct _ _ 0) by (by apply lookup_replicate_2).
    by rewrite Z.add_0_l. }
  exists f. unfold calculateFrequencies.
  destruct (fold_left count_step x (replicate ASCII_SIZE 0, 0)) as [f0 n].
  cbn [fst snd] in *. subst f0 n.
  split; [|split; [done|split; [done|]]].
  - case_decide as E.
    + by rewrite E.
    + by rewrite (proj2 (Z.eqb_neq _ _) E).
  - intros Hlen. split; [apply to_int_small; ints; lia|].
    intros k Hk. rewrite (Hocc k Hk). apply to_uint_small.
    pose proof (occurrences_range x k). ints. lia.
Qed.

Lemma calculateFrequencies_counts_witness :
  let x := bytes_of_string "AABBBCCCC" in
  Forall is_byte x
  /\ exists f,
       calculateFrequencies x
       = (if decide (to_int (Z.of_nat (length x)) = 0) then -1
          else to_int (Z.of_nat (length x)),
          f,
          if decide (to_int (Z.of_nat (length x)) = 0) then [EmptyInput] else [])
       /\ valid_frequencies f
       /\ (forall k, (k < 256)%nat -> freq_at f k = to_uint (occurrences x k))
       /\ (Z.of_nat (length x) < 2 ^ 31 ->
           to_int (Z.of_nat (length x)) = Z.of_nat (length x)
           /\ forall k, (k < 256)%nat -> freq_at f k = occurrences x k).
Proof.
  intros x.
  assert (Hx : Forall is_byte x) by (apply (bool_decide_unpack _); vm_compute; exact I).
  split; [exact Hx|].
  exact (calculateFrequencies_counts x Hx).
Defined.

Lemma freq_records_length f js :
  length (flat_map (freq_record f) js) = (5 * length js)%nat.
Proof.
  induction js as [|j js IH]; [done|].
  cbn [flat_map]. rewrite length_app, IH. cbn [length freq_record fwrite_uint app]. lia.
Qed.

Lemma code_bits_paths codes x ps :
  Forall2 (has_code codes) x ps -> code_bits codes x = Z.of_nat (length (concat ps)).
Proof.
  unfold code_bits, total.
  induction 1 as [|b p x ps [Hb _] _ IH]; [done|].
  cbn [fmap list_fmap foldr concat]. rewrite length_app, Nat2Z.inj_add.
  fold (fmap (M:=list) (fun b => CodeEntry.length (codes !!! Z.to_nat (to_uchar b))) x).
  rewrite IH, Hb. done.
Qed.

(** X19: for an input of 1 to 2^31 - 1 bytes, the archive that
    [compressFile] writes is the 17 bytes of the header, five bytes for each
    distinct byte of the input, and the payload.  The header holds the
    length of the input, the length of the payload (as a 32-bit value) and
    the number of distinct bytes; the table holds the number of occurrences
    of every byte; the payload has as many bytes as the codes of the bytes
    of the input need, rounded up. *)
Theorem compressFile_layout x :
  Forall is_byte x -> x <> [] -> Z.of_nat (length x) < 2 ^ 31 ->
  exists f payload,
    let codes := buildCodeTable (buildHuffmanTree f).1 in
    compressFile x
    = Exit 0 [] (Some (writeFileHeader []
                         {| magic := MAGIC_NUMBER;
                            original_size := Z.of_nat (length x);
                            compressed_size := to_uint (Z.of_nat (length payload));
                            frequency_count := Z.of_nat (length (present f));
                            padding_bits := 0 |}
                       ++ writeFrequencies [] f ++ payload))
    /\ (forall k, (k < 256)%nat -> freq_at f k = occurrences x k)
    /\ length (writeFrequencies [] f) = (5 * length (present f))%nat
    /\ Z.of_nat (length payload) = (code_bits codes x + 7) / 8.
Proof.
  intros Hx Hne Hlen.
  destruct (compressFile_spec x Hx Hne Hlen) as (f & t & ps & payload & Hc & Hcompress).
  destruct Hc as [_ Hocc Htree _ _ _ _ _ Hcodes (k & Hk & Hbits)].
  exists f, payload. cbn zeta. rewrite Htree. cbn [fst].
  split; [exact Hcompress|]. split; [exact Hocc|]. split.
  - rewrite writeFrequencies_present. cbn [app]. apply freq_records_length.
  - rewrite (code_bits_paths _ _ _ Hcodes).
    apply (f_equal length) in Hbits.
    rewrite bits_of_bytes_length, length_app, length_replicate in Hbits.
    Z.to_euclidean_division_equations. lia.
Qed.

Lemma compressFile_layout_witness :
  let x := bytes_of_string "AABBBCCCC" in
  Forall is_byte x /\ x <> [] /\ Z.of_nat (length x) < 2 ^ 31
  /\ exists f payload,
       let codes := buildCodeTable (buildHuffmanTree f).1 in
       compressFile x
       = Exit 0 [] (Some (writeFileHeader []
                            {| magic := MAGIC_NUMBER;
                               original_size := Z.of_nat (length x);
                               compressed_size := to_uint (Z.of_nat (length payload));
                               frequency_count := Z.of_nat (length (present f));
                               padding_bits := 0 |}
                          ++ writeFrequencies [] f ++ payload))
       /\ (forall k, (k < 256)%nat -> freq_at f k = occurrences x k)
       /\ length (writeFrequencies [] f) = (5 * length (present f))%nat
       /\ Z.of_nat (length payload) = (code_bits codes x + 7) / 8.
Proof.
  intros x.
  assert (Hx : Forall is_byte x) by (apply (bool_decide_unpack _); vm_compute; exact I).
  assert (Hne : x <> []) by discriminate.
  assert (Hlen : Z.of_nat (length x) < 2 ^ 31) by (vm_compute; reflexivity).
  split; [exact Hx|]. split; [exact Hne|]. split; [exact Hlen|].
  exact (compressFile_layout x Hx Hne Hlen).
Defined.

(** ** Files and the command line *)



Lemma validateFiles_ok writable fs inputFile outputFile content :
  fs !! inputFile = Some content -> writable outputFile = true ->
  validateFiles writable fs inputFile outputFile = (0, <[outputFile := []]> fs, []).
Proof. intros Hin Hw. unfold validateFiles. by rewrite Hin, Hw. Qed.



(** X21: giving the same path as input and output destroys the file:
    [validateFiles] truncates it before it is read, so [-c] then finds an
    empty input and [-d] a file without header; both return -1 and leave
    the file empty, [-d] without any message. *)
Theorem main_same_path writable fs path content :
  fs !! path = Some content -> writable path = true ->
  main writable fs ["-c"%string; path; path]
  = Returns (-1) (<[path := []]> fs) [Core EmptyInput]
  /\ main writable fs ["-d"%string; path; path] = Returns (-1) (<[path := []]> fs) [].
Proof.
  intros Hin Hw. split.
  - unfold main. rewrite decide_False by done. rewrite decide_True by done.
    rewrite (validateFiles_ok _ _ _ _ content Hin Hw). cbn [Z.eqb negb].
    unfold compressFile_files. rewrite lookup_insert_eq. reflexivity.
  - unfold main. rewrite decide_False by done. rewrite decide_False by done.
    rewrite decide_True by done.
    rewrite (validateFiles_ok _ _ _ _ content Hin Hw). cbn [Z.eqb negb].
    unfold decompressFile_files. rewrite lookup_insert_eq. reflexivity.
Qed.

Lemma main_same_path_witness :
  let fs : file_system := {[ "a.txt"%string := bytes_of_string "AABBBCCCC" ]} in
  fs !! "a.txt"%string = Some (bytes_of_string "AABBBCCCC")
  /\ main (fun _ => true) fs ["-c"; "a.txt"; "a.txt"]%string
     = Returns (-1) (<["a.txt"%string := []]> fs) [Core EmptyInput]
  /\ main (fun _ => true) fs ["-d"; "a.txt"; "a.txt"]%string
     = Returns (-1) (<["a.txt"%string := []]> fs) [].
Proof.
  intros fs.
  assert (Hin : fs !! "a.txt"%string = Some (bytes_of_string "AABBBCCCC")) by reflexivity.
  split; [exact Hin|].
  exact (main_same_path (fun _ => true) fs "a.txt" _ Hin eq_refl).
Defined.



(** X23: [main] changes a file only when it is given [-c] or [-d] with
    exactly two paths, the first of a file that exists and the second
    writable.  With any other arguments it returns 0 or 1 and leaves every
    file as it was. *)
Theorem main_leaves_files writable fs args :
  args <> [] ->
  (forall input output,
     args = ["-c"%string; input; output] \/ args = ["-d"%string; input; output] ->
     fs !! input = None \/ writable output = false) ->
  exists ret err, main writable fs args = Returns ret fs err /\ (ret = 0 \/ ret = 1).
Proof.
  intros Hne Hargs. destruct args as [|option paths]; [done|]. unfold main.
  assert (Hinvalid : forall input output,
            fs !! input = None \/ writable output = false ->
            exists err, validateFiles writable fs input output = (-1, fs, err)).
  { intros input output H. unfold validateFiles.
    destruct (fs !! input); [|by eexists].
    destruct H as [H|H]; [done|]. rewrite H. by eexists. }
  destruct (decide (option = "-h"%string)); [by eexists _, _; split; [|left]|].
  destruct (decide (option = "-c"%string)) as [->|].
  { destruct paths as [|input [|output [|more paths]]];
      try (by eexists _, _; split; [|right]).
    destruct (Hinvalid input output (Hargs _ _ (or_introl eq_refl))) as [err ->].
    by eexists _, _; split; [|right]. }
  destruct (decide (option = "-d"%string)) as [->|].
  { destruct paths as [|input [|output [|more paths]]];
      try (by eexists _, _; split; [|right]).
    destruct (Hinvalid input output (Hargs _ _ (or_intror eq_refl))) as [err ->].
    by eexists _, _; split; [|right]. }
  destruct (decide (option = "-s"%string)).
  { destruct paths as [|input [|output [|more paths]]];
      try (by eexists _, _; split; [|right]).
    by eexists _, _; split; [|left]. }
  by eexists _, _; split; [|right].
Qed.

Lemma main_leaves_files_witness :
  let fs : file_system := {[ "a.txt"%string := [65; 66] ]} in
  main (fun _ => true) fs ["-c"; "missing.txt"; "a.txt"]%string
  = Returns 1 fs [CannotAccessInput "missing.txt"]
  /\ exists ret err,
       main (fun _ => true) fs ["-c"; "missing.txt"; "a.txt"]%string = Returns ret fs err
       /\ (ret = 0 \/ ret = 1).
Proof.
  intros fs. split; [reflexivity|].
  apply (main_leaves_files (fun _ => true) fs ["-c"; "missing.txt"; "a.txt"]%string).
  - discriminate.
  - intros input output [H|H]; [|discriminate].
    injection H as <- <-. left. reflexivity.
Defined.

(** ** The tree of [buildHuffmanTree] is optimal

    The argument is the classical one: in any tree the two lightest leaves
    can be exchanged with two sibling leaves of greatest depth without
    making the text longer, and merging them gives a tree for one leaf less
    that codes the text with as many bits less as the two weigh. *)

Lemma weighted_depth_cons w d ld :
  weighted_depth ((w, d) :: ld) = w * Z.of_nat d + weighted_depth ld.
Proof. reflexivity. Qed.

Lemma weighted_depth_app a b : weighted_depth (a ++ b) = weighted_depth a + weighted_depth b.
Proof. unfold weighted_depth. by rewrite fmap_app, total_app. Qed.

Lemma weighted_depth_perm a b : a ≡ₚ b -> weighted_depth a = weighted_depth b.
Proof. intros H. unfold weighted_depth. apply total_perm. by rewrite H. Qed.

Global Instance weighted_depth_proper : Proper ((≡ₚ) ==> (=)) weighted_depth.
Proof. intros a b. apply weighted_depth_perm. Qed.

Lemma weighted_depth_S ld :
  weighted_depth (prod_map id S <$> ld) = weighted_depth ld + total ld.*1.
Proof.
  induction ld as [|[w d] ld IH]; [done|].
  rewrite !fmap_cons. cbn [prod_map fst snd id]. rewrite !weighted_depth_cons, IH.
  unfold total at 2. cbn [foldr]. fold (total ld.*1). lia.
Qed.

Lemma leaf_depths_nonempty t : leaf_depths t <> [].
Proof.
  induction t as [w|l IHl r IHr]; [done|]. cbn [leaf_depths].
  destruct (leaf_depths l); [done|]. done.
Qed.

Lemma zip_fmap_S (ws : list Z) (ds : list nat) :
  zip ws (S <$> ds) = prod_map id S <$> zip ws ds.
Proof.
  revert ds. induction ws as [|w ws IH]; intros [|d ds]; try done.
  cbn. f_equal. apply IH.
Qed.

Lemma snd_fmap_S (ld : list (Z * nat)) : (prod_map id S <$> ld).*2 = S <$> ld.*2.
Proof. rewrite <- !list_fmap_compose. by apply list_fmap_ext; intros ? [??]. Qed.

Lemma relabel_leaf_depths t ws :
  length ws = length (leaf_depths t) ->
  leaf_depths (relabel t ws) = zip ws (leaf_depths t).*2.
Proof.
  revert ws. induction t as [w|l IHl r IHr]; intros ws Hlen; cbn [relabel leaf_depths] in *.
  { destruct ws as [|w' [|? ?]]; try done. }
  rewrite length_fmap, length_app in Hlen.
  rewrite IHl, IHr by (rewrite ?length_take, ?length_drop; lia).
  rewrite snd_fmap_S, zip_fmap_S. f_equal.
  rewrite <- (take_drop (length (leaf_depths l)) ws) at 3.
  rewrite fmap_app.
  rewrite zip_with_app by (rewrite length_take, length_fmap; lia).
  done.
Qed.

Lemma depth_le_height t w d : (w, d) ∈ leaf_depths t -> (d <= wheight t)%nat.
Proof.
  revert d. induction t as [w'|l IHl r IHr]; intros d Hin; cbn [leaf_depths wheight] in *.
  { apply list_elem_of_singleton in Hin. injection Hin as _ ->. done. }
  apply list_elem_of_fmap in Hin as ([w0 d0] & Heq & Hin).
  cbn in Heq. injection Heq as -> ->.
  apply elem_of_app in Hin as [Hin|Hin].
  - specialize (IHl _ Hin). lia.
  - specialize (IHr _ Hin). lia.
Qed.

(** A tree with two leaves or more has two sibling leaves at the greatest
    depth; merging them into one leaf gives a tree whose leaves are one
    level higher at that place. *)
Lemma deepest_pair l r :
  exists t0 x y P0,
    leaf_depths (Fork l r) ≡ₚ (x, wheight (Fork l r)) :: (y, wheight (Fork l r)) :: P0
    /\ (leaf_depths t0).*2 ≡ₚ (wheight (Fork l r) - 1)%nat :: P0.*2.
Proof.
  remember (Fork l r) as t eqn:Ht. revert l r Ht.
  induction t as [w|l IHl r IHr]; intros l' r' Ht; [done|]. clear Ht l' r'.
  destruct l as [x|ll lr].
  - destruct r as [y|rl rr].
    + exists (Leaf (x + y)), x, y, []. cbn. done.
    + destruct (IHr rl rr eq_refl) as (t0 & x' & y' & P0 & Hp & Ht0).
      exists (Fork (Leaf x) t0), x', y', ((x, 1%nat) :: (prod_map id S <$> P0)).
      set (h := wheight (Fork rl rr)) in *.
      assert (Hh : wheight (Fork (Leaf x) (Fork rl rr)) = S h) by (cbn; lia).
      rewrite Hh. split.
      * cbn [leaf_depths app]. fold (leaf_depths (Fork rl rr)). rewrite fmap_cons, Hp.
        rewrite !fmap_cons. cbn [prod_map fst snd id].
        exact (Permutation_middle [_; _] _ _).
      * cbn [leaf_depths app]. rewrite !fmap_cons, snd_fmap_S. cbn [prod_map fst snd id].
        rewrite snd_fmap_S, Ht0. rewrite fmap_cons.
        replace (S h - 1)%nat with (S (h - 1)) by (subst h; cbn; lia).
        apply Permutation_swap.
  - set (hl := wheight (Fork ll lr)) in *.
    destruct (decide (wheight r <= hl)%nat) as [Hle|Hgt].
    + destruct (IHl ll lr eq_refl) as (t0 & x' & y' & P0 & Hp & Ht0).
      exists (Fork t0 r), x', y', ((prod_map id S <$> P0) ++ (prod_map id S <$> leaf_depths r)).
      assert (Hh : wheight (Fork (Fork ll lr) r) = S hl) by (subst hl; cbn [wheight] in *; lia).
      rewrite Hh. split.
      * cbn [leaf_depths]. fold (leaf_depths (Fork ll lr)).
        rewrite fmap_app, Hp, !fmap_cons. done.
      * cbn [leaf_depths]. rewrite !snd_fmap_S, !fmap_app, !snd_fmap_S, Ht0, fmap_cons.
        replace (S hl - 1)%nat with (S (hl - 1)) by (subst hl; cbn; lia).
        done.
    + destruct r as [y|rl rr]; [cbn in Hgt; lia|].
      destruct (IHr rl rr eq_refl) as (t0 & x' & y' & P0 & Hp & Ht0).
      set (hr := wheight (Fork rl rr)) in *.
      exists (Fork (Fork ll lr) t0), x', y',
        ((prod_map id S <$> leaf_depths (Fork ll lr)) ++ (prod_map id S <$> P0)).
      assert (Hh : wheight (Fork (Fork ll lr) (Fork rl rr)) = S hr)
        by (subst hl hr; cbn [wheight] in *; lia).
      rewrite Hh. split.
      * cbn [leaf_depths]. fold (leaf_depths (Fork ll lr)) (leaf_depths (Fork rl rr)).
        rewrite fmap_app, Hp, !fmap_cons. cbn [prod_map fst snd id].
        rewrite <- !Permutation_middle. done.
      * cbn [leaf_depths]. fold (leaf_depths (Fork ll lr)).
        rewrite !snd_fmap_S, !fmap_app, !snd_fmap_S, Ht0, fmap_cons.
        replace (S hr - 1)%nat with (S (hr - 1)) by (subst hr; cbn; lia).
        rewrite <- Permutation_middle. done.
Qed.

(** Any pairing of weights with the depths [ds] is the pairing of [ds], in
    their order, with some list of weights. *)
Lemma realise (ds : list nat) :
  forall Q : list (Z * nat),
    Q.*2 ≡ₚ ds -> exists ws, length ws = length ds /\ zip ws ds ≡ₚ Q.
Proof.
  induction ds as [|d ds IH]; intros Q HQ.
  { apply Permutation_nil_r in HQ. destruct Q; [|done]. by exists []. }
  assert (Hd : d ∈ Q.*2) by (rewrite HQ; left).
  apply list_elem_of_fmap in Hd as ([w d'] & Heq & Hin). cbn in Heq. subst d'.
  apply elem_of_Permutation in Hin as [Q' HQ'].
  rewrite HQ' in HQ. rewrite fmap_cons in HQ. cbn in HQ.
  apply Permutation_cons_inv in HQ.
  destruct (IH Q' HQ) as (ws & Hlen & Hzip).
  exists (w :: ws). split; [cbn; lia|]. cbn. by rewrite Hzip, HQ'.
Qed.

Lemma elem_of_fst_Permutation (P : list (Z * nat)) w :
  w ∈ P.*1 -> exists d P', P ≡ₚ (w, d) :: P'.
Proof.
  intros Hin. apply list_elem_of_fmap in Hin as ([w' d] & Heq & Hin). cbn in Heq. subst w'.
  apply elem_of_Permutation in Hin as [P' HP]. by exists d, P'.
Qed.

(** The leaf [a] is one of the two deepest siblings. *)
Lemma exchange_sibling P0 y D a b R :
  (1 <= D)%nat ->
  (forall w d, (w, d) ∈ P0 -> (d <= D)%nat) ->
  y :: P0.*1 ≡ₚ b :: R ->
  (forall r, r ∈ R -> b <= r) ->
  exists Q,
    Q.*2 ≡ₚ (D - 1)%nat :: P0.*2 /\ Q.*1 ≡ₚ (a + b) :: R
    /\ weighted_depth Q + a + b <= weighted_depth ((a, D) :: (y, D) :: P0).
Proof.
  intros HD Hdepth Hperm Hmin.
  assert (Hb : b ∈ y :: P0.*1) by (rewrite Hperm; left).
  apply elem_of_cons in Hb as [->|Hb].
  - apply Permutation_cons_inv in Hperm.
    exists ((a + y, (D - 1)%nat) :: P0). split; [done|]. split; [by rewrite fmap_cons, Hperm|].
    rewrite !weighted_depth_cons. rewrite Nat2Z.inj_sub by done. nia.
  - destruct (elem_of_fst_Permutation _ _ Hb) as (d & P1 & HP).
    assert (Hd : (d <= D)%nat) by (apply (Hdepth b); rewrite HP; left).
    rewrite HP, fmap_cons in Hperm. cbn [fst] in Hperm.
    rewrite Permutation_swap in Hperm. apply Permutation_cons_inv in Hperm.
    assert (Hy : b <= y) by (apply Hmin; rewrite <- Hperm; left).
    exists ((a + b, (D - 1)%nat) :: (y, d) :: P1). split; [|split].
    + rewrite HP, !fmap_cons. done.
    + rewrite !fmap_cons. cbn [fst]. by rewrite Hperm.
    + rewrite HP, !weighted_depth_cons. rewrite Nat2Z.inj_sub by done. nia.
Qed.

(** Neither [a] nor [b] is one of the two deepest siblings. *)
Lemma exchange_elsewhere P0 x y D a b R :
  (1 <= D)%nat ->
  (forall w d, (w, d) ∈ P0 -> (d <= D)%nat) ->
  a ∈ P0.*1 ->
  x :: y :: P0.*1 ≡ₚ a :: b :: R ->
  (forall r, r ∈ R -> a <= r /\ b <= r) ->
  exists Q,
    Q.*2 ≡ₚ (D - 1)%nat :: P0.*2 /\ Q.*1 ≡ₚ (a + b) :: R
    /\ weighted_depth Q + a + b <= weighted_depth ((x, D) :: (y, D) :: P0).
Proof.
  intros HD Hdepth Ha Hperm Hmin.
  destruct (elem_of_fst_Permutation _ _ Ha) as (da & P1 & HP).
  assert (Hda : (da <= D)%nat) by (apply (Hdepth a); rewrite HP; left).
  rewrite HP, fmap_cons in Hperm. cbn [fst] in Hperm.
  assert (Hperm' : x :: y :: P1.*1 ≡ₚ b :: R).
  { apply (Permutation_cons_inv (a:=a)). rewrite <- Hperm.
    exact (Permutation_middle [_; _] _ _). }
  assert (Hb : b ∈ x :: y :: P1.*1) by (rewrite Hperm'; left).
  apply elem_of_cons in Hb as [->|Hb]; [|apply elem_of_cons in Hb as [->|Hb]].
  - apply Permutation_cons_inv in Hperm'.
    assert (Hy : a <= y) by (apply Hmin; rewrite <- Hperm'; left).
    exists ((a + x, (D - 1)%nat) :: (y, da) :: P1). split; [|split].
    + rewrite HP, !fmap_cons. done.
    + rewrite !fmap_cons. cbn [fst]. by rewrite Hperm'.
    + rewrite HP, !weighted_depth_cons. rewrite Nat2Z.inj_sub by done. nia.
  - rewrite Permutation_swap in Hperm'. apply Permutation_cons_inv in Hperm'.
    assert (Hx : a <= x) by (apply Hmin; rewrite <- Hperm'; left).
    exists ((a + y, (D - 1)%nat) :: (x, da) :: P1). split; [|split].
    + rewrite HP, !fmap_cons. done.
    + rewrite !fmap_cons. cbn [fst]. by rewrite Hperm'.
    + rewrite HP, !weighted_depth_cons. rewrite Nat2Z.inj_sub by done. nia.
  - destruct (elem_of_fst_Permutation _ _ Hb) as (db & P2 & HP1).
    assert (Hdb : (db <= D)%nat) by (apply (Hdepth b); rewrite HP, HP1; right; left).
    rewrite HP1, fmap_cons in Hperm'. cbn [fst] in Hperm'.
    assert (HR : R ≡ₚ x :: y :: P2.*1).
    { apply (Permutation_cons_inv (a:=b)). rewrite <- Hperm'.
      symmetry. exact (Permutation_middle [_; _] _ _). }
    assert (Hx : a <= x /\ b <= x) by (apply Hmin; rewrite HR; left).
    assert (Hy : a <= y /\ b <= y) by (apply Hmin; rewrite HR; right; left).
    exists ((a + b, (D - 1)%nat) :: (x, da) :: (y, db) :: P2). split; [|split].
    + rewrite HP, HP1, !fmap_cons. done.
    + rewrite !fmap_cons. cbn [fst]. by rewrite HR.
    + rewrite HP, HP1, !weighted_depth_cons. rewrite Nat2Z.inj_sub by done. nia.
Qed.

Lemma exchange P0 x y D a b R :
  (1 <= D)%nat ->
  (forall w d, (w, d) ∈ P0 -> (d <= D)%nat) ->
  x :: y :: P0.*1 ≡ₚ a :: b :: R ->
  (forall r, r ∈ R -> a <= r /\ b <= r) ->
  exists Q,
    Q.*2 ≡ₚ (D - 1)%nat :: P0.*2 /\ Q.*1 ≡ₚ (a + b) :: R
    /\ weighted_depth Q + a + b <= weighted_depth ((x, D) :: (y, D) :: P0).
Proof.
  intros HD Hdepth Hperm Hmin.
  assert (Hswap : weighted_depth ((x, D) :: (y, D) :: P0)
                  = weighted_depth ((y, D) :: (x, D) :: P0))
    by (apply weighted_depth_perm, Permutation_swap).
  assert (Ha : a ∈ x :: y :: P0.*1) by (rewrite Hperm; left).
  apply elem_of_cons in Ha as [->|Ha]; [|apply elem_of_cons in Ha as [->|Ha]].
  - apply Permutation_cons_inv in Hperm.
    apply exchange_sibling; try done. intros r Hr. by apply Hmin.
  - rewrite Permutation_swap in Hperm. apply Permutation_cons_inv in Hperm.
    rewrite Hswap. apply exchange_sibling; try done. intros r Hr. by apply Hmin.
  - by apply exchange_elsewhere.
Qed.

(** In a tree whose two lightest leaves are [a] and [b], these can be made
    siblings without making the tree more costly; merged into one leaf of
    weight [a + b], they give a tree for the other weights and [a + b]
    that costs at least [a + b] less. *)
Lemma merge_two_lightest t a b R :
  (leaf_depths t).*1 ≡ₚ a :: b :: R ->
  (forall r, r ∈ R -> a <= r /\ b <= r) ->
  exists t', (leaf_depths t').*1 ≡ₚ (a + b) :: R /\ cost t' + a + b <= cost t.
Proof.
  intros Hperm Hmin.
  destruct t as [w|l r].
  { apply Permutation_length in Hperm. cbn in Hperm. lia. }
  destruct (deepest_pair l r) as (t0 & x & y & P0 & HP & Ht0).
  set (D := wheight (Fork l r)) in *.
  assert (HD : (1 <= D)%nat) by (subst D; cbn; lia).
  assert (Hdepth : forall w d, (w, d) ∈ P0 -> (d <= D)%nat).
  { intros w d Hin. apply (depth_le_height (Fork l r) w). rewrite HP. by do 2 right. }
  rewrite HP, !fmap_cons in Hperm. cbn [fst] in Hperm.
  destruct (exchange P0 x y D a b R HD Hdepth Hperm Hmin) as (Q & HQ2 & HQ1 & Hcost).
  rewrite <- Ht0 in HQ2.
  destruct (realise _ Q HQ2) as (ws & Hlen & Hzip).
  rewrite length_fmap in Hlen.
  exists (relabel t0 ws). unfold cost. rewrite relabel_leaf_depths by done.
  rewrite Hzip. split; [done|]. by rewrite HP.
Qed.

Lemma fst_fmap_S (ld : list (Z * nat)) : (prod_map id S <$> ld).*1 = ld.*1.
Proof. rewrite <- list_fmap_compose. by apply list_fmap_ext; intros ? [??]. Qed.

Lemma cost_Fork l r :
  cost (Fork l r)
  = cost l + cost r + total (leaf_depths l).*1 + total (leaf_depths r).*1.
Proof.
  unfold cost. cbn [leaf_depths].
  rewrite weighted_depth_S, weighted_depth_app, fmap_app, total_app. lia.
Qed.

Lemma shape_merged l r :
  is_null l = false -> shape (merged l r) = Fork (shape l) (shape r).
Proof. intros Hl. unfold merged. cbn [shape]. by rewrite Hl. Qed.

Lemma tight_leaf c w : 0 <= w -> tight (createNode c w).
Proof. intros Hw. split; [done|]. split; [done|]. cbn. lia. Qed.

Lemma encoded_bits_leaf c w : encoded_bits (createNode c w) = 0.
Proof. unfold encoded_bits, cost, weighted_depth. cbn. lia. Qed.

Lemma tight_merged l r :
  tight l -> tight r -> frequency l + frequency r < 2 ^ 32 ->
  tight (merged l r)
  /\ frequency (merged l r) = frequency l + frequency r
  /\ encoded_bits (merged l r)
     = encoded_bits l + encoded_bits r + frequency l + frequency r.
Proof.
  intros (Hl & Hl0 & Hlw) (Hr & Hr0 & Hrw) Hsum.
  assert (Hf : frequency (merged l r) = frequency l + frequency r).
  { cbn [merged frequency]. apply to_uint_small. lia. }
  split; [|split; [done|]].
  - split; [done|]. split; [lia|].
    rewrite Hf, shape_merged by done. cbn [leaf_depths].
    rewrite fst_fmap_S, fmap_app, total_app. lia.
  - unfold encoded_bits. rewrite shape_merged by done. rewrite cost_Fork. lia.
Qed.

Global Instance total_proper : Proper ((≡ₚ) ==> (=)) total.
Proof. intros a b. apply total_perm. Qed.

Lemma total_nonneg l : Forall (fun v => 0 <= v) l -> 0 <= total l.
Proof. unfold total. induction 1; cbn [foldr]; lia. Qed.

Lemma live_length heap : heap_wf heap -> length (live heap) = Z.to_nat (size heap).
Proof. intros [Hrange Hlen]. unfold live. rewrite length_take. lia. Qed.

(** The merging loop ends with a tree that codes the text in no more bits
    than any tree with the weights of the trees of the heap at its leaves,
    once the bits spent inside the trees of the heap are counted. *)
Lemma merge_loop_optimal fuel :
  forall heap,
    heap_wf heap -> heap_ordered (size heap) (nodes heap) ->
    Forall tight (live heap) -> total (frequency <$> live heap) < 2 ^ 32 ->
    1 <= size heap -> (Z.to_nat (size heap) <= fuel)%nat ->
    exists heap',
      merge_loop fuel heap = Some heap' /\ heap_wf heap' /\ size heap' = 1
      /\ forall T : wtree,
           (leaf_depths T).*1 ≡ₚ frequency <$> live heap ->
           total (encoded_bits <$> live heap') <= total (encoded_bits <$> live heap) + cost T.
Proof.
  induction fuel as [|fuel IH]; intros heap Hwf Hord Htight Hsum Hsize Hfuel; [lia|].
  cbn [merge_loop].
  destruct (Z.ltb_spec 1 (size heap)) as [Hlt|Hge].
  2:{ exists heap. split; [done|]. split; [done|]. split; [lia|].
      intros T HT.
      assert (Hone : length (leaf_depths T) = 1%nat).
      { apply Permutation_length in HT.
        rewrite !length_fmap, live_length in HT by done. lia. }
      destruct T as [w|l r].
      - unfold cost, weighted_depth. cbn. lia.
      - cbn [leaf_depths] in Hone. rewrite length_fmap, length_app in Hone.
        pose proof (leaf_depths_nonempty l). pose proof (leaf_depths_nonempty r).
        destruct (leaf_depths l), (leaf_depths r); cbn [length] in Hone; try done; lia. }
  destruct (extractMin_perm heap Hwf ltac:(lia)) as (Hwf1 & Hsz1 & Hcap1 & Hp1).
  destruct (extractMin_order heap Hwf Hord ltac:(lia)) as (Hord1 & Hmin1).
  destruct (extractMin heap) as [left heap1]. cbn [fst snd] in *.
  destruct (extractMin_perm heap1 Hwf1 ltac:(lia)) as (Hwf2 & Hsz2 & Hcap2 & Hp2).
  destruct (extractMin_order heap1 Hwf1 Hord1 ltac:(lia)) as (Hord2 & Hmin2).
  destruct (extractMin heap1) as [right heap2]. cbn [fst snd] in *.
  assert (Hlive : live heap ≡ₚ left :: right :: live heap2) by (by rewrite Hp1, Hp2).
  rewrite Hlive in Htight, Hsum.
  apply Forall_cons in Htight as [Hl Htight]. apply Forall_cons in Htight as [Hr Htight].
  rewrite !fmap_cons in Hsum. unfold total in Hsum. cbn [foldr] in Hsum.
  fold (total (frequency <$> live heap2)) in Hsum.
  assert (Hrest : 0 <= total (frequency <$> live heap2)).
  { apply total_nonneg, Forall_fmap. eapply Forall_impl; [exact Htight|]. by intros t (_ & H0 & _). }
  destruct (tight_merged left right Hl Hr) as (Hm & Hfm & Hbits).
  { destruct Hl as (_ & ? & _), Hr as (_ & ? & _). lia. }
  rewrite (proj1 Hl), (proj1 Hr). cbn [orb].
  fold (merged left right).
  destruct Hwf as [Hrange Hlen].
  destruct (insertMinHeap_perm heap2 (merged left right) Hwf2 ltac:(lia))
    as (Hwf3 & Hsz3 & Hcap3 & Hp3).
  destruct (insertMinHeap_order heap2 (merged left right) Hwf2 ltac:(lia) Hord2) as [Hord3 _].
  rewrite <- Hsz3 in Hord3.
  destruct (IH (insertMinHeap heap2 (merged left right))) as (heap' & Hloop & Hwf' & Hsz' & Hopt).
  - done.
  - done.
  - rewrite Hp3. by apply Forall_cons.
  - rewrite Hp3, fmap_cons. unfold total. cbn [foldr].
    fold (total (frequency <$> live heap2)). lia.
  - lia.
  - lia.
  - exists heap'. split; [done|]. split; [done|]. split; [done|].
    intros T HT. rewrite Hlive, !fmap_cons in HT.
    destruct (merge_two_lightest T (frequency left) (frequency right)
                (frequency <$> live heap2) HT) as (T' & HT' & Hcost).
    { intros v Hv. apply list_elem_of_fmap in Hv as (x & -> & Hx). split.
      - apply Hmin1. rewrite Hlive. by do 2 right.
      - apply Hmin2. rewrite Hp2. by right. }
    rewrite <- Hfm in HT'.
    specialize (Hopt T'). rewrite Hp3, !fmap_cons in Hopt. specialize (Hopt HT').
    rewrite Hlive, !fmap_cons.
    unfold total in *. cbn [foldr] in *.
    fold (total (encoded_bits <$> live heap2)) in *. lia.
Qed.

Lemma populate_inserts f indices heap :
  fold_left (fun heap i =>
               if 0 <? freq_at f i
               then insertMinHeap heap (createNode (to_uchar (Z.of_nat i)) (freq_at f i))
               else heap)
            indices heap
  = fold_left insertMinHeap (leaf_of f <$> present_in f indices) heap.
Proof.
  revert heap. induction indices as [|i indices IH]; intros heap; [done|].
  cbn [fold_left]. rewrite present_in_cons, IH.
  by destruct (0 <? freq_at f i).
Qed.

Lemma shape_leaves t : full t -> (leaf_depths (shape t)).*1 = (leaf_weights t).*2.
Proof.
  induction t as [|c w l IHl r IHr]; intros Hfull; [done|].
  cbn [full shape leaf_weights] in *.
  destruct (is_null l && is_null r); [done|].
  destruct Hfull as [Hl Hr]. cbn [leaf_depths].
  by rewrite fst_fmap_S, !fmap_app, IHl, IHr.
Qed.

Lemma buildHuffmanTree_least_bits f (T : wtree) :
  valid_frequencies f -> (2 <= length (present f))%nat -> total f < 2 ^ 32 ->
  (leaf_depths T).*1 ≡ₚ freq_at f <$> present f ->
  encoded_bits (buildHuffmanTree f).1 <= cost T.
Proof.
  intros Hvalid Hn Hsum Hleaves. unfold buildHuffmanTree.
  rewrite count_unique_present.
  pose proof (present_length f) as Hlen.
  rewrite (proj2 (Z.eqb_neq _ 0)) by lia.
  rewrite (proj2 (Z.eqb_neq _ 1)) by lia.
  unfold populate_heap. rewrite populate_inserts. fold (present f).
  destruct (inserts_spec (Z.of_nat (length (present f))) (leaf_of f <$> present f))
    as (Hwf & Hsz & Hcap & Hlive & Hord & _).
  { rewrite length_fmap. lia. }
  rewrite length_fmap in Hsz.
  set (heap := fold_left insertMinHeap _ _) in *. clearbody heap.
  assert (Hfreq : frequency <$> live heap ≡ₚ freq_at f <$> present f).
  { rewrite Hlive, <- list_fmap_compose. done. }
  destruct (merge_loop_optimal (Z.to_nat (size heap)) heap Hwf Hord)
    as (heap' & Hloop & Hwf' & Hsz' & Hopt); [| |lia|lia|].
  { rewrite Hlive. apply Forall_fmap, Forall_forall. intros i Hi.
    apply tight_leaf. apply elem_of_present in Hi. lia. }
  { rewrite Hfreq, (total_present f Hvalid). done. }
  rewrite Hloop.
  destruct (extractMin_perm heap' Hwf' ltac:(lia)) as (Hwf1 & Hsz1 & _ & Hp1).
  destruct (extractMin heap') as [root heap1]. cbn [fst snd] in *.
  assert (Hlive1 : live heap1 = []).
  { apply length_zero_iff_nil. rewrite live_length by done. lia. }
  rewrite Hlive1 in Hp1.
  specialize (Hopt T).
  rewrite Hp1, Hlive, <- list_fmap_compose in Hopt.
  rewrite Hleaves, <- !list_fmap_compose in Hopt.
  specialize (Hopt ltac:(done)).
  assert (Hzero : total ((encoded_bits ∘ leaf_of f) <$> present f) = 0).
  { generalize (present f). intros l. induction l as [|i l IH]; [done|].
    rewrite fmap_cons. unfold total in *. cbn [foldr]. rewrite IH.
    unfold compose, leaf_of. by rewrite encoded_bits_leaf. }
  rewrite Hzero in Hopt. unfold total in Hopt. cbn in Hopt. lia.
Qed.

(** X24: the tree of [buildHuffmanTree] is optimal.  For an array of
    counts with at least two nonzero cells and a sum below 2^32, no tree
    with the same leaves (the symbols with a nonzero count, each with its
    count) in which every inner node has two children codes a text with
    these counts in fewer bits. *)
Theorem buildHuffmanTree_optimal f t' :
  valid_frequencies f -> (2 <= length (present f))%nat -> total f < 2 ^ 32 ->
  full t' ->
  leaf_weights t' ≡ₚ (fun i => (Z.of_nat i, freq_at f i)) <$> present f ->
  encoded_bits (buildHuffmanTree f).1 <= encoded_bits t'.
Proof.
  intros Hvalid Hn Hsum Hfull Hleaves.
  apply buildHuffmanTree_least_bits; try done.
  rewrite (shape_leaves t' Hfull), Hleaves, <- list_fmap_compose. done.
Qed.

Lemma buildHuffmanTree_optimal_witness :
  let f := <[67%nat := 4]> (<[66%nat := 3]> (<[65%nat := 2]> (replicate 256 0))) in
  let t' := Node 0 9 (Node 65 2 NULL NULL)
                 (Node 0 7 (Node 66 3 NULL NULL) (Node 67 4 NULL NULL)) in
  valid_frequencies f /\ (2 <= length (present f))%nat /\ total f < 2 ^ 32 /\ full t'
  /\ leaf_weights t' ≡ₚ (fun i => (Z.of_nat i, freq_at f i)) <$> present f
  /\ encoded_bits (buildHuffmanTree f).1 = 14 /\ encoded_bits t' = 16
  /\ encoded_bits (buildHuffmanTree f).1 <= encoded_bits t'.
Proof.
  intros f t'.
  assert (Hf : valid_frequencies f).
  { split; [reflexivity|]. apply (bool_decide_unpack _). vm_compute. exact I. }
  assert (Hn : (2 <= length (present f))%nat) by (vm_compute; lia).
  assert (Hsum : total f < 2 ^ 32) by (vm_compute; reflexivity).
  assert (Hfull : full t') by (cbn; tauto).
  assert (Hleaves : leaf_weights t' ≡ₚ (fun i => (Z.of_nat i, freq_at f i)) <$> present f).
  { assert (E : leaf_weights t' = (fun i => (Z.of_nat i, freq_at f i)) <$> present f)
      by (vm_compute; reflexivity).
    by rewrite E. }
  split; [exact Hf|]. split; [exact Hn|]. split; [exact Hsum|]. split; [exact Hfull|].
  split; [exact Hleaves|]. split; [vm_compute; reflexivity|]. split; [vm_compute; reflexivity|].
  exact (buildHuffmanTree_optimal f t' Hf Hn Hsum Hfull Hleaves).
Defined.

(** ** The bits of the payload *)

Lemma leaf_weights_symbols t : (leaf_weights t).*1 = symbols t.
Proof.
  induction t as [|c w l IHl r IHr]; [done|].
  destruct (is_null l && is_null r) eqn:Hleaf.
  - unfold symbols. cbn [leaf_weights paths]. by rewrite Hleaf.
  - rewrite symbols_node by done. cbn [leaf_weights]. by rewrite Hleaf, fmap_app, IHl, IHr.
Qed.

Lemma shape_total t : total (leaf_depths (shape t)).*1 = total (leaf_weights t).*2.
Proof.
  induction t as [|c w l IHl r IHr]; [done|].
  cbn [shape leaf_weights]. destruct (is_null l && is_null r); [done|].
  cbn [leaf_depths]. by rewrite fst_fmap_S, !fmap_app, !total_app, IHl, IHr.
Qed.

Lemma leaf_weights_by_symbol t (W : Z -> Z) :
  (forall c w, (c, w) ∈ leaf_weights t -> w = W c) ->
  (leaf_weights t).*2 = W <$> symbols t.
Proof.
  intros HW. rewrite <- leaf_weights_symbols, <- list_fmap_compose.
  apply Forall_fmap_ext_1, Forall_forall. intros [c w] Hin. cbn. by apply HW.
Qed.

(** The bits of a text coded with a tree: every leaf contributes its
    weight times the length of its path. *)
Lemma cost_shape_paths t (W : Z -> Z) :
  (forall c w, (c, w) ∈ leaf_weights t -> w = W c) ->
  cost (shape t) = total ((fun cp => W cp.1 * Z.of_nat (length cp.2)) <$> paths t).
Proof.
  induction t as [|c w l IHl r IHr]; intros HW.
  { unfold cost, weighted_depth. cbn. lia. }
  cbn [shape paths leaf_weights] in *.
  destruct (is_null l && is_null r) eqn:Hleaf.
  { unfold cost, weighted_depth, total. cbn. lia. }
  assert (HWl : forall c w, (c, w) ∈ leaf_weights l -> w = W c).
  { intros c0 w0 Hin. apply HW, elem_of_app. by left. }
  assert (HWr : forall c w, (c, w) ∈ leaf_weights r -> w = W c).
  { intros c0 w0 Hin. apply HW, elem_of_app. by right. }
  rewrite cost_Fork, IHl, IHr, !shape_total by done.
  rewrite (leaf_weights_by_symbol l W HWl), (leaf_weights_by_symbol r W HWr).
  rewrite fmap_app, total_app, <- !list_fmap_compose.
  unfold symbols. rewrite <- !list_fmap_compose.
  assert (Hedge : forall (b : bool) (ps : list (Z * list bool)),
            total (((fun cp => W cp.1 * Z.of_nat (length cp.2)) ∘ prod_map id (cons b)) <$> ps)
            = total ((fun cp => W cp.1 * Z.of_nat (length cp.2)) <$> ps)
              + total ((W ∘ fst) <$> ps)).
  { intros b ps. induction ps as [|[c0 p0] ps IH]; [done|].
    rewrite !fmap_cons. unfold total in *. cbn [foldr]. rewrite IH.
    cbn [compose prod_map fst snd id length]. lia. }
  rewrite !Hedge. lia.
Qed.

(** Summing over the bytes of a text is summing over the 256 byte values,
    each as often as it occurs. *)
Lemma total_by_occurrences (G : nat -> Z) x :
  Forall is_byte x ->
  total ((fun b => G (Z.to_nat b)) <$> x)
  = total ((fun k => occurrences x k * G k) <$> seq 0 ASCII_SIZE).
Proof.
  induction 1 as [|b x Hb Hx IH].
  { generalize (seq 0 ASCII_SIZE). intros l. induction l as [|k l IHl]; [done|].
    rewrite fmap_cons. unfold total in *. cbn [foldr]. rewrite <- IHl.
    rewrite occurrences_nil. cbn. lia. }
  rewrite fmap_cons. unfold total at 1. cbn [foldr].
  fold (total ((fun b => G (Z.to_nat b)) <$> x)). rewrite IH.
  assert (Hsplit : forall l : list nat,
            total ((fun k => occurrences (b :: x) k * G k) <$> l)
            = total ((fun k => if decide (b = Z.of_nat k) then G k else 0) <$> l)
              + total ((fun k => occurrences x k * G k) <$> l)).
  { intros l. induction l as [|k l IHl]; [done|].
    rewrite !fmap_cons. unfold total in *. cbn [foldr]. rewrite IHl, occurrences_cons.
    case_decide; lia. }
  rewrite Hsplit. f_equal.
  assert (Hpick : forall s n,
            total ((fun k => if decide (b = Z.of_nat k) then G k else 0) <$> seq s n)
            = if decide (Z.of_nat s <= b < Z.of_nat s + Z.of_nat n) then G (Z.to_nat b) else 0).
  { intros s n. revert s. induction n as [|n IHn]; intros s.
    - cbn. case_decide; [lia|done].
    - cbn [seq]. rewrite fmap_cons. unfold total in *. cbn [foldr]. rewrite IHn.
      repeat case_decide; try lia. subst b. rewrite Nat2Z.id. lia. }
  rewrite Hpick. unfold is_byte in Hb. unfold ASCII_SIZE. rewrite decide_True; [done|lia].
Qed.

Lemma total_present_weighted f (G : nat -> Z) l :
  Forall (fun i => 0 <= freq_at f i) l ->
  total ((fun k => freq_at f k * G k) <$> present_in f l)
  = total ((fun k => freq_at f k * G k) <$> l).
Proof.
  induction 1 as [|i l Hi _ IH]; [done|].
  rewrite present_in_cons, (fmap_cons _ i l). unfold total in *. cbn [foldr].
  destruct (Z.ltb_spec 0 (freq_at f i)).
  - rewrite fmap_cons. cbn [foldr]. lia.
  - rewrite IH. replace (freq_at f i) with 0 by lia. lia.
Qed.

Lemma code_bits_tree x f t :
  Forall is_byte x ->
  (forall k, (k < 256)%nat -> freq_at f k = occurrences x k) ->
  is_null t = false -> is_leaf t = false ->
  symbols t ≡ₚ Z.of_nat <$> present f -> (height t <= 255)%nat ->
  leaf_weights t ≡ₚ (fun i => (Z.of_nat i, freq_at f i)) <$> present f ->
  code_bits (buildCodeTable t) x = encoded_bits t.
Proof.
  intros Hx Hocc Hnull Hleaf Hsym Hheight Hleaves.
  set (codes := buildCodeTable t).
  set (G := fun k : nat => CodeEntry.length (codes !!! k)).
  set (W := fun c : Z => freq_at f (Z.to_nat c)).
  (* the text, byte by byte *)
  unfold code_bits.
  assert (Hbytes : (fun b => CodeEntry.length (codes !!! Z.to_nat (to_uchar b))) <$> x
                   = (fun b => G (Z.to_nat b)) <$> x).
  { apply Forall_fmap_ext_1. eapply Forall_impl; [exact Hx|].
    intros b Hb. cbn beta. by rewrite to_uchar_small. }
  rewrite Hbytes, (total_by_occurrences G x Hx).
  (* the symbols that occur *)
  assert (Hcounts : (fun k => occurrences x k * G k) <$> seq 0 ASCII_SIZE
                    = (fun k => freq_at f k * G k) <$> seq 0 ASCII_SIZE).
  { apply Forall_fmap_ext_1, Forall_forall. intros k Hk. apply elem_of_seq in Hk.
    cbn beta. rewrite Hocc; [done|]. unfold ASCII_SIZE in Hk. lia. }
  rewrite Hcounts, <- (total_present_weighted f G).
  2:{ apply Forall_forall. intros k Hk. apply elem_of_seq in Hk.
      rewrite Hocc by (unfold ASCII_SIZE in Hk; lia). apply occurrences_range. }
  fold (present f).
  (* the leaves of the tree *)
  unfold encoded_bits. rewrite (cost_shape_paths t W).
  2:{ intros c w Hin. rewrite Hleaves in Hin.
      apply list_elem_of_fmap in Hin as (i & Heq & _). injection Heq as -> ->.
      unfold W. by rewrite Nat2Z.id. }
  assert (Hpaths : (fun cp : Z * list bool => W cp.1 * Z.of_nat (length cp.2)) <$> paths t
                   = (fun c => W c * G (Z.to_nat c)) <$> symbols t).
  { unfold symbols. rewrite <- list_fmap_compose.
    apply Forall_fmap_ext_1, Forall_forall. intros [c p] Hin. cbn [compose fst snd].
    assert (Hc : c ∈ symbols t) by (apply list_elem_of_fmap; by exists (c, p)).
    rewrite Hsym in Hc. apply list_elem_of_fmap in Hc as (i & -> & Hi).
    apply elem_of_present in Hi as [Hi _]. unfold ASCII_SIZE in Hi.
    unfold G, codes. rewrite Nat2Z.id.
    by rewrite (built_code f t Hnull Hleaf Hsym Hheight i p Hin Hi). }
  rewrite Hpaths, Hsym, <- list_fmap_compose.
  f_equal. apply list_fmap_ext. intros _ i _. cbn [compose]. unfold W. by rewrite Nat2Z.id.
Qed.

(** X25: the codes that [compressFile] uses spend on the text exactly the
    bits that its tree stands for: the code lengths of the bytes of the
    input add up to the sum, over the leaves of the tree, of count times
    depth. *)
Theorem code_bits_encoded_bits x f :
  Forall is_byte x -> x <> [] ->
  valid_frequencies f ->
  (forall k, (k < 256)%nat -> freq_at f k = occurrences x k) ->
  code_bits (buildCodeTable (buildHuffmanTree f).1) x = encoded_bits (buildHuffmanTree f).1.
Proof.
  intros Hx Hne Hvalid Hocc.
  assert (Hpresent : present f <> []).
  { destruct x as [|b x]; [done|]. apply Forall_cons in Hx as [Hb _].
    intros E. pose proof (byte_present (b :: x) f b Hocc Hb ltac:(left)) as Hin.
    rewrite E in Hin. by apply elem_of_nil in Hin. }
  destruct (buildHuffmanTree_spec f Hpresent) as (t & Htree & Hnull & Hleaf & Hsym & Hheight).
  destruct (buildHuffmanTree_weighted f Hvalid Hpresent) as (t0 & Htree0 & _ & _ & _ & Hleaves).
  rewrite Htree in Htree0. injection Htree0 as <-.
  rewrite Htree. cbn [fst]. by apply (code_bits_tree x f t).
Qed.

Lemma code_bits_encoded_bits_witness :
  let x := bytes_of_string "AABBBCCCC" in
  let f := <[67%nat := 4]> (<[66%nat := 3]> (<[65%nat := 2]> (replicate 256 0))) in
  Forall is_byte x /\ x <> [] /\ valid_frequencies f
  /\ code_bits (buildCodeTable (buildHuffmanTree f).1) x = 14
  /\ code_bits (buildCodeTable (buildHuffmanTree f).1) x = encoded_bits (buildHuffmanTree f).1.
Proof.
  intros x f.
  assert (Hx : Forall is_byte x) by (apply (bool_decide_unpack _); vm_compute; exact I).
  assert (Hne : x <> []) by discriminate.
  assert (Hf : valid_frequencies f).
  { split; [reflexivity|]. apply (bool_decide_unpack _). vm_compute. exact I. }
  assert (Hocc : forall k, (k < 256)%nat -> freq_at f k = occurrences x k).
  { intros k Hk.
    assert (H : Forall (fun k => freq_at f k = occurrences x k) (seq 0 256))
      by (apply (bool_decide_unpack _); vm_compute; exact I).
    rewrite Forall_forall in H. apply H, elem_of_seq. lia. }
  split; [exact Hx|]. split; [exact Hne|]. split; [exact Hf|].
  split; [vm_compute; reflexivity|].
  exact (code_bits_encoded_bits x f Hx Hne Hf Hocc).
Defined.

Lemma frequencies_cells f : length f = ASCII_SIZE -> freq_at f <$> seq 0 ASCII_SIZE = f.
Proof.
  intros Hlen.
  apply list_eq_same_length with ASCII_SIZE; [done|by rewrite length_fmap, length_seq|].
  intros i x y Hi Hx Hy. rewrite list_lookup_fmap, lookup_seq_lt in Hx by done.
  cbn in Hx. injection Hx as <-. unfold freq_at.
  by rewrite (list_lookup_total_correct _ _ _ Hy).
Qed.

(** The counts of a text add up to its length. *)
Lemma total_counts x f :
  Forall is_byte x -> length f = ASCII_SIZE ->
  (forall k, (k < 256)%nat -> freq_at f k = occurrences x k) ->
  total f = Z.of_nat (length x).
Proof.
  intros Hx Hlen Hocc.
  rewrite <- (frequencies_cells f Hlen).
  assert (Hcells : freq_at f <$> seq 0 ASCII_SIZE
                   = (fun k => occurrences x k * 1) <$> seq 0 ASCII_SIZE).
  { apply Forall_fmap_ext_1, Forall_forall. intros k Hk. apply elem_of_seq in Hk.
    rewrite Hocc by (unfold ASCII_SIZE in Hk; lia). lia. }
  rewrite Hcells, <- (total_by_occurrences (fun _ => 1) x Hx).
  clear. induction x as [|b x IH]; [done|].
  rewrite fmap_cons. unfold total in *. cbn [foldr length]. rewrite IH. lia.
Qed.

(** X26: the payload that [compressFile] writes is as short as a prefix
    code allows.  For an input of fewer than 2^31 bytes with at least two
    distinct bytes, the payload has ceil(B/8) bytes, where B is the number
    of bits that the tree of [buildHuffmanTree] gives to the input, and no
    tree with the distinct bytes of the input at its leaves, each with its
    number of occurrences, and two children at every inner node, codes the
    input in fewer than B bits. *)
Theorem compressFile_payload_minimal x b b' :
  Forall is_byte x -> Z.of_nat (length x) < 2 ^ 31 ->
  b ∈ x -> b' ∈ x -> b <> b' ->
  exists f h payload,
    compressFile x = Exit 0 [] (Some (writeFileHeader [] h ++ writeFrequencies [] f ++ payload))
    /\ (forall k, (k < 256)%nat -> freq_at f k = occurrences x k)
    /\ Z.of_nat (length payload) = (encoded_bits (buildHuffmanTree f).1 + 7) / 8
    /\ forall t',
         full t' ->
         leaf_weights t' ≡ₚ (fun i => (Z.of_nat i, freq_at f i)) <$> present f ->
         encoded_bits (buildHuffmanTree f).1 <= encoded_bits t'
         /\ Z.of_nat (length payload) <= (encoded_bits t' + 7) / 8.
Proof.
  intros Hx Hlen Hb Hb' Hne.
  assert (Hx0 : x <> []) by (intros ->; by apply elem_of_nil in Hb).
  destruct (compressFile_spec x Hx Hx0 Hlen) as (f & t & ps & payload & Hc & Hcompress).
  destruct Hc as [Hvalid Hocc Htree Hnull Hleaf Hsym Hheight _ Hcodes (k & Hk & Hbits)].
  exists f, (archive_header x f payload), payload.
  split; [exact Hcompress|]. split; [exact Hocc|].
  assert (Hin : Z.to_nat b ∈ present f /\ Z.to_nat b' ∈ present f).
  { rewrite Forall_forall in Hx. split; apply (byte_present x); auto. }
  destruct Hin as [Hin Hin'].
  assert (Hdistinct : Z.to_nat b <> Z.to_nat b').
  { rewrite Forall_forall in Hx. pose proof (Hx b Hb). pose proof (Hx b' Hb').
    unfold is_byte in *. lia. }
  assert (Hpresent : present f <> []).
  { intros E. rewrite E in Hin. by apply elem_of_nil in Hin. }
  assert (Hn : (2 <= length (present f))%nat).
  { destruct (present f) as [|i [|i' l]]; [done| |cbn [length]; lia].
    apply list_elem_of_singleton in Hin, Hin'. congruence. }
  assert (Hsum : total f < 2 ^ 32).
  { rewrite (total_counts x f Hx (proj1 Hvalid) Hocc). ints. lia. }
  destruct (buildHuffmanTree_weighted f Hvalid Hpresent) as (t0 & Htree0 & _ & _ & _ & Hleaves).
  rewrite Htree in Htree0. injection Htree0 as <-.
  assert (Hpayload : Z.of_nat (length payload) = (encoded_bits t + 7) / 8).
  { rewrite <- (code_bits_tree x f t Hx Hocc Hnull Hleaf Hsym Hheight Hleaves).
    rewrite (code_bits_paths _ _ _ Hcodes).
    apply (f_equal length) in Hbits.
    rewrite bits_of_bytes_length, length_app, length_replicate in Hbits.
    Z.to_euclidean_division_equations. lia. }
  rewrite Htree. cbn [fst]. split; [exact Hpayload|].
  intros t' Hfull Hleaves'.
  assert (Hopt : encoded_bits t <= encoded_bits t').
  { pose proof (buildHuffmanTree_least_bits f (shape t') Hvalid Hn Hsum) as H.
    rewrite Htree in H. apply H.
    rewrite (shape_leaves t' Hfull), Hleaves', <- list_fmap_compose. done. }
  split; [exact Hopt|]. rewrite Hpayload.
  apply Z.div_le_mono; lia.
Qed.

Lemma compressFile_payload_minimal_witness :
  let x := bytes_of_string "AABBBCCCC" in
  Forall is_byte x /\ Z.of_nat (length x) < 2 ^ 31 /\ 65 ∈ x /\ 66 ∈ x
  /\ exists f h payload,
       compressFile x
       = Exit 0 [] (Some (writeFileHeader [] h ++ writeFrequencies [] f ++ payload))
       /\ (forall k, (k < 256)%nat -> freq_at f k = occurrences x k)
       /\ Z.of_nat (length payload) = (encoded_bits (buildHuffmanTree f).1 + 7) / 8
       /\ forall t',
            full t' ->
            leaf_weights t' ≡ₚ (fun i => (Z.of_nat i, freq_at f i)) <$> present f ->
            encoded_bits (buildHuffmanTree f).1 <= encoded_bits t'
            /\ Z.of_nat (length payload) <= (encoded_bits t' + 7) / 8.
Proof.
  intros x.
  assert (Hx : Forall is_byte x) by (apply (bool_decide_unpack _); vm_compute; exact I).
  assert (Hlen : Z.of_nat (length x) < 2 ^ 31) by (vm_compute; reflexivity).
  assert (Hb : 65 ∈ x) by (apply (bool_decide_unpack _); vm_compute; exact I).
  assert (Hb' : 66 ∈ x) by (apply (bool_decide_unpack _); vm_compute; exact I).
  split; [exact Hx|]. split; [exact Hlen|]. split; [exact Hb|]. split; [exact Hb'|].
  exact (compressFile_payload_minimal x 65 66 Hx Hlen Hb Hb' ltac:(discriminate)).
Defined.

(** ** Sizes that the program does not check *)

(** X27: an input of 2^31 to 2^32 - 1 bytes makes the [int] byte counter of
    [calculateFrequencies] negative; [compressFile] takes it for the error
    return and gives up without a message and without opening the output
    file.  An input of exactly 2^32 bytes brings the counter back to 0 and
    is reported as empty. *)
Theorem compressFile_too_large x :
  (2 ^ 31 <= Z.of_nat (length x) < 2 ^ 32 -> compressFile x = Exit (-1) [] None)
  /\ (Z.of_nat (length x) = 2 ^ 32 -> compressFile x = Exit (-1) [EmptyInput] None).
Proof.
  split; intros Hlen.
  - apply compressFile_overflow. clear -Hlen. dlia.
  - pose proof (count_loop_size x (replicate ASCII_SIZE 0) 0 ltac:(ints; lia)) as Hsize.
    rewrite Z.add_0_l, Hlen in Hsize. change (to_int (2 ^ 32)) with 0 in Hsize.
    unfold compressFile, calculateFrequencies.
    destruct (fold_left count_step x _) as [f n]. cbn [snd] in Hsize. subst n.
    reflexivity.
Qed.

Lemma compressFile_too_large_witness :
  2 ^ 31 <= Z.of_nat (length two_gib_of_zeros) < 2 ^ 32
  /\ compressFile two_gib_of_zeros = Exit (-1) [] None.
Proof.
  assert (Hlen : 2 ^ 31 <= Z.of_nat (length two_gib_of_zeros) < 2 ^ 32).
  { unfold two_gib_of_zeros. rewrite length_replicate, Z2Nat.id by lia. lia. }
  split; [exact Hlen|].
  exact (proj1 (compressFile_too_large two_gib_of_zeros) Hlen).
Defined.

Lemma decodeAndWrite_trailing root x ps payload k junk pad :
  is_null root = false -> is_leaf root = false ->
  Forall2 (fun c p => (c, p) ∈ paths root) x ps ->
  bits_of_bytes payload = concat ps ++ replicate k false ->
  Z.of_nat (length x) < 2 ^ 31 ->
  decodeAndWrite (payload ++ junk) [] root (Z.of_nat (length x)) pad
  = (SizeReached, to_uchar <$> x).
Proof.
  intros Hroot Hleaf Hx Hbits Hlen. unfold decodeAndWrite. rewrite Hroot.
  assert (Hfuel : S (8 * length (payload ++ junk))
                  = (length (concat ps) + S (k + 8 * length junk))%nat).
  { rewrite length_app, Nat.mul_add_distr_l, <- (bits_of_bytes_length payload), Hbits,
      length_app, length_replicate. lia. }
  rewrite Hfuel.
  apply (decode_all root x ps Hroot Hleaf Hx (k + 8 * length junk) 0 0%nat 0 (payload ++ junk) []
           (replicate k false ++ bits_of_bytes junk)); [|lia|lia|done].
  unfold pending_bits. cbn [low_bits app].
  by rewrite bits_of_bytes_app, Hbits, <- app_assoc.
Qed.

(** X28: [decompressFile] checks neither the compressed-size field of the
    header nor the length of the payload: an archive written by
    [compressFile] for an input of fewer than 2^31 bytes still decompresses
    to that input when the field holds any other value and when any bytes
    follow the payload. *)
Theorem decompressFile_ignores_compressed_size x n junk :
  Forall is_byte x -> x <> [] -> Z.of_nat (length x) < 2 ^ 31 ->
  exists h body,
    compressFile x = Exit 0 [] (Some (writeFileHeader [] h ++ body))
    /\ decompressFile (writeFileHeader [] (set_compressed_size h n) ++ body ++ junk)
       = Exit 0 [] (Some x).
Proof.
  intros Hx Hne Hlen.
  destruct (compressFile_spec x Hx Hne Hlen) as (f & t & ps & payload & Hc & Hcompress).
  exists (archive_header x f payload), (writeFrequencies [] f ++ payload).
  split; [exact Hcompress|].
  destruct Hc as [Hvalid _ Htree Hnull Hleaf _ _ Hpaths _ (k & Hk & Hbits)].
  pose proof (present_length f) as Hp.
  unfold decompressFile. rewrite readFileHeader_writeFileHeader.
  cbn [set_compressed_size archive_header magic original_size compressed_size
         frequency_count padding_bits].
  change (negb (to_uint MAGIC_NUMBER =? MAGIC_NUMBER)) with false. cbv iota.
  cbn [frequency_count original_size padding_bits].
  rewrite (to_uint_small (Z.of_nat (length (present f)))) by (ints; lia).
  rewrite to_int_small by (ints; lia).
  rewrite <- app_assoc.
  rewrite <- count_unique_present, readFrequencies_writeFrequencies by done.
  rewrite Htree, Hnull.
  rewrite (to_uint_small (Z.of_nat (length x))) by (ints; lia).
  rewrite (decodeAndWrite_trailing t x ps payload k junk) by done.
  do 2 f_equal.
  rewrite <- (list_fmap_id x) at 2. apply Forall_fmap_ext_1.
  eapply Forall_impl; [exact Hx|]. intros c Hc. by apply to_uchar_small.
Qed.

Lemma decompressFile_ignores_compressed_size_witness :
  let x := bytes_of_string "AABBBCCCC" in
  Forall is_byte x /\ x <> [] /\ Z.of_nat (length x) < 2 ^ 31
  /\ exists h body,
       compressFile x = Exit 0 [] (Some (writeFileHeader [] h ++ body))
       /\ decompressFile (writeFileHeader [] (set_compressed_size h 1000) ++ body ++ [1; 2; 3])
          = Exit 0 [] (Some x).
Proof.
  intros x.
  assert (Hx : Forall is_byte x) by (apply (bool_decide_unpack _); vm_compute; exact I).
  assert (Hne : x <> []) by discriminate.
  assert (Hlen : Z.of_nat (length x) < 2 ^ 31) by (vm_compute; reflexivity).
  split; [exact Hx|]. split; [exact Hne|]. split; [exact Hlen|].
  exact (decompressFile_ignores_compressed_size x 1000 [1; 2; 3] Hx Hne Hlen).
Defined.
